(** * Semantic pointer algebra and cleanup memory

    A shallow embedding of [scripts/semantic_algebra.py]: the vector algebra
    (binding, unbinding, superposition, similarity), the vocabulary, the
    population code, the weight generator and the Hopfield cleanup memory.

    NumPy arrays of float64 are lists over a scalar type.  The arithmetic the
    module performs on them is collected in the class [Scalar], which has two
    instances: the real numbers (exact arithmetic, used for the algebraic
    properties) and the IEEE 754 binary64 numbers of the kernel (used where
    the behaviour of NaN matters).  The routines of [numpy.fft] are given
    over the reals, by the discrete Fourier transform they compute.

    Python exceptions are values of [exn]; a function that may raise returns
    a [result]. *)

From Stdlib Require Import String.
From Stdlib Require Import Reals Lra Lia ZArith Bool Arith List Permutation.
From Stdlib Require Floats.
Import ListNotations.


(** ** Exceptions *)

(** The messages of the [ValueError]s the module raises, by kind. *)
Inductive reason : Type :=
| DimensionMismatch      (* "Vector dimensions must match", "Vector dimension ... != ..." *)
| NoVectors              (* "Must provide at least one vector" *)
| AlreadyExists          (* "Semantic pointer '...' already exists" *)
| BadDimensionality      (* "Dimensionality must be at least 2" *)
| NoNeurons              (* "Must have at least 1 neuron" *)
| EmptyVocabulary        (* "Cannot create CleanupMemory with empty vocabulary" *)
| BadThreshold           (* "Threshold must be positive" *)
| InvalidFFTPoints.      (* numpy.fft: "Invalid number of FFT data points (0) specified." *)

Inductive exn : Type :=
| ValueError (why : reason)
| KeyError (name : string).

Inductive result (T : Type) : Type :=
| Ok (value : T)
| Raise (e : exn).

Arguments Ok {T} value.
Arguments Raise {T} e.

Definition bind_result {T U : Type} (r : result T) (k : T -> result U) : result U :=
  match r with
  | Ok v => k v
  | Raise e => Raise e
  end.

Notation "'do' x <- r ; k" := (bind_result r (fun x => k))
  (at level 10, x name, r at level 100, k at level 200).
Notation "'do' ' p <- r ; k" := (bind_result r (fun x => let p := x in k))
  (at level 10, p pattern, r at level 100, k at level 200).

Definition raises {T : Type} (r : result T) (e : exn) : Prop := r = Raise e.

Definition succeeds {T : Type} (r : result T) : Prop := exists v, r = Ok v.

(** ** Scalars *)

(** The float64 operations the module uses.  [sgtb x y] is [x > y] and
    [sltb x y] is [x < y]; [sfloor] is the literal [1e-10]. *)
Class Scalar (A : Type) : Type := {
  s0 : A;
  s1 : A;
  sfloor : A;
  sadd : A -> A -> A;
  ssub : A -> A -> A;
  smul : A -> A -> A;
  sdiv : A -> A -> A;
  sopp : A -> A;
  ssqrt : A -> A;
  stanh : A -> A;
  sgtb : A -> A -> bool;
  sltb : A -> A -> bool;
  sleb : A -> A -> bool
}.

Definition Rgtb (x y : R) : bool := if Rlt_dec y x then true else false.
Definition Rltb (x y : R) : bool := if Rlt_dec x y then true else false.
Definition Rleb (x y : R) : bool := if Rle_dec x y then true else false.

#[export] Instance R_scalar : Scalar R := {|
  s0 := 0%R;
  s1 := 1%R;
  sfloor := (1 / 10 ^ 10)%R;
  sadd := Rplus;
  ssub := Rminus;
  smul := Rmult;
  sdiv := Rdiv;
  sopp := Ropp;
  ssqrt := sqrt;
  stanh := tanh;
  sgtb := Rgtb;
  sltb := Rltb;
  sleb := Rleb
|}.

(** ** Arrays *)

Section Arrays.
Context {A : Type} `{Scalar A}.

Definition vec := list A.
Definition matrix := list (list A).

(** [np.dot(a, b)] on one-dimensional arrays of equal length. *)
Fixpoint dot (a b : vec) : A :=
  match a, b with
  | x :: a', y :: b' => sadd (smul x y) (dot a' b')
  | _, _ => s0
  end.

(** [np.linalg.norm(v)]: the square root of the sum of squares. *)
Definition vnorm (v : vec) : A := ssqrt (dot v v).

(** [v / c] and [c * v], elementwise. *)
Definition vdiv (v : vec) (c : A) : vec := map (fun x => sdiv x c) v.
Definition vscale (c : A) (v : vec) : vec := map (fun x => smul c x) v.

(** [a + b] and [a - b] on arrays of equal length. *)
Fixpoint vadd (a b : vec) : vec :=
  match a, b with
  | x :: a', y :: b' => sadd x y :: vadd a' b'
  | _, _ => []
  end.

Fixpoint vsub (a b : vec) : vec :=
  match a, b with
  | x :: a', y :: b' => ssub x y :: vsub a' b'
  | _, _ => []
  end.

Definition zeros (n : nat) : vec := repeat s0 n.

(** [M @ x] for a two-dimensional [M] and a one-dimensional [x]. *)
Definition matvec (M : matrix) (x : vec) : vec := map (fun row => dot row x) M.

Definition vtanh (v : vec) : vec := map stanh v.

(** [np.outer(a, b)]. *)
Definition outer (a b : vec) : matrix := map (fun x => map (fun y => smul x y) b) a.

(** [M + N] on matrices of equal shape. *)
Fixpoint madd (M N : matrix) : matrix :=
  match M, N with
  | r :: M', s :: N' => vadd r s :: madd M' N'
  | _, _ => []
  end.

Definition mzeros (rows cols : nat) : matrix := repeat (zeros cols) rows.

(** The [j]-th column of [M], and [M @ N] on two-dimensional arrays whose
    inner dimensions agree ([cols] is the number of columns of [N]). *)
Definition column (M : matrix) (j : nat) : vec := map (fun row => nth j row s0) M.

Definition matmul (M N : matrix) : matrix :=
  let cols := length (hd [] N) in
  map (fun row => map (fun j => dot row (column N j)) (seq 0 cols)) M.

(** [np.fill_diagonal(M, 0)]. *)
Fixpoint set_nth (i : nat) (x : A) (v : vec) : vec :=
  match v, i with
  | [], _ => []
  | _ :: v', O => x :: v'
  | y :: v', S i' => y :: set_nth i' x v'
  end.

Fixpoint fill_diagonal_from (i : nat) (M : matrix) : matrix :=
  match M with
  | [] => []
  | row :: M' => set_nth i s0 row :: fill_diagonal_from (S i) M'
  end.

Definition fill_diagonal (M : matrix) : matrix := fill_diagonal_from 0 M.

(** The normalisation every operation ends with:
    [norm = np.linalg.norm(v); if norm > 1e-10: v = v / norm]. *)
Definition normalize (v : vec) : vec :=
  let norm := vnorm v in
  if sgtb norm sfloor then vdiv v norm else v.

(** ** Core operations that do not go through the FFT *)

(** [np.sum(vectors, axis=0)] on a non-empty tuple of arrays of one length. *)
Fixpoint vsum (first : vec) (rest : list vec) : vec :=
  match rest with
  | [] => first
  | v :: rest' => vsum (vadd first v) rest'
  end.

(** [superposition], called on the tuple [vectors] of its arguments. *)
Definition superposition (vectors : list vec) : result vec :=
  match vectors with
  | [] => Raise (ValueError NoVectors)
  | first :: rest =>
      let dim := length first in
      if forallb (fun v => Nat.eqb (length v) dim) rest
      then Ok (normalize (vsum first rest))
      else Raise (ValueError DimensionMismatch)
  end.

(** [cosine_similarity(a, b)]: the dot product, with no division by the
    norms. *)
Definition cosine_similarity (a b : vec) : result A :=
  if Nat.eqb (length a) (length b) then Ok (dot a b)
  else Raise (ValueError DimensionMismatch).

End Arrays.

Arguments vec A : clear implicits.
Arguments matrix A : clear implicits.

(** ** Python dictionaries keyed by strings

    A [dict] keeps its keys in insertion order; assigning to a key that is
    present replaces the value where it stands. *)

Section Dict.
Variable V : Type.

Definition dict := list (string * V).

Fixpoint dict_get (name : string) (d : dict) : option V :=
  match d with
  | [] => None
  | (k, v) :: d' => if String.eqb k name then Some v else dict_get name d'
  end.

Definition dict_mem (name : string) (d : dict) : bool :=
  match dict_get name d with
  | Some _ => true
  | None => false
  end.

Fixpoint dict_set (name : string) (v : V) (d : dict) : dict :=
  match d with
  | [] => [(name, v)]
  | (k, w) :: d' =>
      if String.eqb k name then (k, v) :: d' else (k, w) :: dict_set name v d'
  end.

Definition dict_keys (d : dict) : list string := map fst d.

End Dict.

Arguments dict_get {V} name d.
Arguments dict_mem {V} name d.
Arguments dict_set {V} name v d.
Arguments dict_keys {V} d.

(** ** The classes of the module, over any scalar type *)

Section Classes.
Context {A : Type} `{Scalar A}.

(** *** SemanticVocabulary *)

Record SemanticVocabulary : Type := {
  vocab_dim : nat;
  vectors : dict (vec A)
}.

(** [SemanticVocabulary(dimensionality)]. *)
Definition SemanticVocabulary_init (dimensionality : nat) : result SemanticVocabulary :=
  if dimensionality <? 2 then Raise (ValueError BadDimensionality)
  else Ok {| vocab_dim := dimensionality; vectors := [] |}.

(** [add(name, vector)].  [randn] is the array [np.random.randn(self.dim)]
    would return; it is looked at only when [vector] is [None].  The
    updated vocabulary is returned beside the stored vector. *)
Definition add (self : SemanticVocabulary) (name : string) (vector : option (vec A))
    (randn : vec A) : result (SemanticVocabulary * vec A) :=
  if dict_mem name (vectors self) then Raise (ValueError AlreadyExists)
  else
    do vector <-
      match vector with
      | None => Ok (vdiv randn (vnorm randn))
      | Some vector =>
          if negb (length vector =? vocab_dim self) then Raise (ValueError DimensionMismatch)
          else Ok (normalize vector)
      end;
    Ok ({| vocab_dim := vocab_dim self;
           vectors := dict_set name vector (vectors self) |}, vector).

(** [get(name)]. *)
Definition get (self : SemanticVocabulary) (name : string) : result (vec A) :=
  match dict_get name (vectors self) with
  | None => Raise (KeyError name)
  | Some v => Ok v
  end.

(** [[self.get(name) for name in names]]. *)
Fixpoint get_all (self : SemanticVocabulary) (names : list string) : result (list (vec A)) :=
  match names with
  | [] => Ok []
  | name :: names' =>
      do v <- get self name;
      do vs <- get_all self names';
      Ok (v :: vs)
  end.

(** The assignment [self.vectors[result_name] = result]. *)
Definition store (self : SemanticVocabulary) (result_name : string) (value : vec A)
    : SemanticVocabulary :=
  {| vocab_dim := vocab_dim self;
     vectors := dict_set result_name value (vectors self) |}.

(** [superpose(names..., result_name=...)]. *)
Definition superpose (self : SemanticVocabulary) (names : list string)
    (result_name : string) : result (SemanticVocabulary * vec A) :=
  do vs <- get_all self names;
  do value <- superposition vs;
  Ok (store self result_name value, value).

(** [similarity(name_a, name_b)]. *)
Definition similarity (self : SemanticVocabulary) (name_a name_b : string) : result A :=
  do a <- get self name_a;
  do b <- get self name_b;
  cosine_similarity a b.

(** [name in vocab] and [len(vocab)]. *)
Definition contains (self : SemanticVocabulary) (name : string) : bool :=
  dict_mem name (vectors self).

Definition vocab_len (self : SemanticVocabulary) : nat := length (vectors self).

(** *** NeuralEncoder

    [encoders] has [n_neurons] rows of length [enc_dim].  [decoders] is the
    value of the property of that name: a matrix of [enc_dim] rows of
    length [n_neurons], fitted once by least squares on random samples and
    kept. *)
Record NeuralEncoder : Type := {
  n_neurons : nat;
  enc_dim : nat;
  encoders : matrix A;
  decoders : matrix A
}.

(** [NeuralEncoder(n_neurons, sp_dimensionality)]: [randn] is the array
    [np.random.randn(n_neurons, sp_dimensionality)] would return and [fit]
    the decoders later fitted to the encoders. *)
Definition NeuralEncoder_init (n : nat) (sp_dimensionality : nat) (randn : matrix A)
    (fit : matrix A -> matrix A) : result NeuralEncoder :=
  if n <? 1 then Raise (ValueError NoNeurons)
  else if sp_dimensionality <? 2 then Raise (ValueError BadDimensionality)
  else
    let rows := map (fun row => vdiv row (vnorm row)) randn in
    Ok {| n_neurons := n; enc_dim := sp_dimensionality;
          encoders := rows; decoders := fit rows |}.

(** [np.maximum(0, x)] on one number. *)
Definition relu (x : A) : A := if sltb x s0 then s0 else x.

(** [encode(semantic_pointer, gain, bias)]. *)
Definition encode (self : NeuralEncoder) (semantic_pointer : vec A) (gain bias : A)
    : result (vec A) :=
  if negb (length semantic_pointer =? enc_dim self) then Raise (ValueError DimensionMismatch)
  else
    let firing_rates :=
      map (fun x => sadd (smul gain x) bias) (matvec (encoders self) semantic_pointer) in
    Ok (map relu firing_rates).

(** [decode(firing_rates)]. *)
Definition decode (self : NeuralEncoder) (firing_rates : vec A) : result (vec A) :=
  if negb (length firing_rates =? n_neurons self) then Raise (ValueError DimensionMismatch)
  else
    let recovered := matvec (decoders self) firing_rates in
    Ok (normalize recovered).

(** *** SemanticWeightGenerator *)

Record SemanticWeightGenerator : Type := {
  enc_src : NeuralEncoder;
  enc_tgt : NeuralEncoder
}.

Definition SemanticWeightGenerator_init (encoder_src encoder_tgt : NeuralEncoder)
    : result SemanticWeightGenerator :=
  if negb (enc_dim encoder_src =? enc_dim encoder_tgt)
  then Raise (ValueError DimensionMismatch)
  else Ok {| enc_src := encoder_src; enc_tgt := encoder_tgt |}.

(** [np.roll(v, shift)] for a shift that is not negative: the elements move
    [shift] places to the right and those pushed out come back in front. *)
Definition roll (v : vec A) (shift : nat) : vec A :=
  let n := length v in
  let k := shift mod n in
  skipn (n - k) v ++ firstn (n - k) v.

(** [_circular_conv_matrix(vector)]: row [i] is [np.roll(vector, i)]. *)
Definition _circular_conv_matrix (vector : vec A) : matrix A :=
  let dim := length vector in
  map (fun i => roll vector i) (seq 0 dim).

(** [_circular_corr_matrix(vector)]: [vector[0]] followed by the rest
    reversed, handed to [_circular_conv_matrix].  On the empty array
    [vector[0]] is an IndexError; the callers have checked the length
    against a dimension of at least 2. *)
Definition reversed_vector (vector : vec A) : vec A :=
  match vector with
  | [] => []
  | x :: rest => x :: rev rest
  end.

Definition _circular_corr_matrix (vector : vec A) : matrix A :=
  _circular_conv_matrix (reversed_vector vector).

Definition identity_weights (self : SemanticWeightGenerator) : matrix A :=
  matmul (encoders (enc_tgt self)) (decoders (enc_src self)).

Definition binding_weights (self : SemanticWeightGenerator) (bind_with_vector : vec A)
    : result (matrix A) :=
  if negb (length bind_with_vector =? enc_dim (enc_src self))
  then Raise (ValueError DimensionMismatch)
  else
    let transform := _circular_conv_matrix bind_with_vector in
    Ok (matmul (matmul (encoders (enc_tgt self)) transform) (decoders (enc_src self))).

Definition unbinding_weights (self : SemanticWeightGenerator) (unbind_vector : vec A)
    : result (matrix A) :=
  if negb (length unbind_vector =? enc_dim (enc_src self))
  then Raise (ValueError DimensionMismatch)
  else
    let transform := _circular_corr_matrix unbind_vector in
    Ok (matmul (matmul (encoders (enc_tgt self)) transform) (decoders (enc_src self))).

End Classes.

Arguments SemanticVocabulary A : clear implicits.
Arguments NeuralEncoder A : clear implicits.
Arguments SemanticWeightGenerator A : clear implicits.

(** ** CleanupMemory *)

Section Cleanup.
Context {A : Type} `{Scalar A}.

(** [vocab] is the vocabulary the memory was built from and [weights] the
    Hopfield matrix computed from it at that time. *)
Record CleanupMemory : Type := {
  vocab : SemanticVocabulary A;
  cm_dim : nat;
  threshold : A;
  weights : matrix A
}.

(** [_compute_hopfield_weights]: the outer products of the vocabulary
    vectors, summed in the order of the dictionary, diagonal cleared. *)
Definition _compute_hopfield_weights (vocabulary : SemanticVocabulary A) : matrix A :=
  let dim := vocab_dim vocabulary in
  let W := fold_left (fun W entry => madd W (outer (snd entry) (snd entry)))
                     (vectors vocabulary) (mzeros dim dim) in
  fill_diagonal W.

(** [CleanupMemory(vocabulary, threshold)]. *)
Definition CleanupMemory_init (vocabulary : SemanticVocabulary A) (thr : A)
    : result CleanupMemory :=
  if length (vectors vocabulary) =? 0 then Raise (ValueError EmptyVocabulary)
  else if sleb thr s0 then Raise (ValueError BadThreshold)
  else Ok {| vocab := vocabulary;
             cm_dim := vocab_dim vocabulary;
             threshold := thr;
             weights := _compute_hopfield_weights vocabulary |}.

(** What [cleanup] returns: the cleaned vector alone, or with the
    trajectory and the number of iterations when [return_trajectory] is
    set. *)
Inductive cleaned : Type :=
| Vector (x : vec A)
| WithTrajectory (x : vec A) (trajectory : list (vec A)) (n_iters : Z).

Definition cleaned_vector (c : cleaned) : vec A :=
  match c with
  | Vector x => x
  | WithTrajectory x _ _ => x
  end.

Section Settling.
Variable self : CleanupMemory.
Variable noisy_vector : vec A.
Variable return_trajectory : bool.

(** One pass of the body of the loop, up to the new state:
    [x_new = np.tanh(self.weights @ x)], then the normalisation with its
    fallback to the input. *)
Definition settle_step (x : vec A) : vec A :=
  let x_new := vtanh (matvec (weights self) x) in
  let norm := vnorm x_new in
  if sgtb norm sfloor then vdiv x_new norm
  else vdiv noisy_vector (vnorm noisy_vector).

(** How the [for] loop ends: by the [return] inside it, or by running out
    of iterations, with the state and the trajectory at that point. *)
Inductive loop_end : Type :=
| Converged (x_new : vec A) (trajectory : list (vec A)) (iteration : Z)
| Exhausted (x : vec A) (trajectory : list (vec A)).

(** The loop [for iteration in range(max_iterations)], with [todo]
    iterations left and [iteration] the value of the loop variable. *)
Fixpoint settle (todo : nat) (iteration : Z) (x : vec A) (trajectory : list (vec A))
    : loop_end :=
  match todo with
  | O => Exhausted x trajectory
  | S todo' =>
      let x_new := settle_step x in
      let trajectory :=
        if return_trajectory then trajectory ++ [x_new] else trajectory in
      let change := vnorm (vsub x_new x) in
      if sltb change (threshold self) then Converged x_new trajectory iteration
      else settle todo' (iteration + 1)%Z x_new trajectory
  end.

(** The state after [k] passes of the loop body, the states the passes
    reach one after the other, and the test [change < self.threshold]
    of pass [k + 1]. *)
Fixpoint settle_iter (k : nat) (x : vec A) : vec A :=
  match k with
  | O => x
  | S k' => settle_iter k' (settle_step x)
  end.

Fixpoint settle_states (k : nat) (x : vec A) : list (vec A) :=
  match k with
  | O => []
  | S k' => settle_step x :: settle_states k' (settle_step x)
  end.

Definition converged_at (k : nat) (x : vec A) : bool :=
  sltb (vnorm (vsub (settle_iter (S k) x) (settle_iter k x))) (threshold self).

(** [cleanup(noisy_vector, max_iterations, return_trajectory)]. *)
Definition cleanup (max_iterations : Z) : result cleaned :=
  if negb (length noisy_vector =? cm_dim self) then Raise (ValueError DimensionMismatch)
  else
    let x := noisy_vector in
    let trajectory := if return_trajectory then [x] else [] in
    match settle (Z.to_nat max_iterations) 0%Z x trajectory with
    | Converged x_new trajectory iteration =>
        if return_trajectory
        then Ok (WithTrajectory x_new trajectory (iteration + 1)%Z)
        else Ok (Vector x_new)
    | Exhausted x trajectory =>
        if return_trajectory
        then Ok (WithTrajectory x trajectory max_iterations)
        else Ok (Vector x)
    end.
End Settling.

(** The loop of [find_nearest_match] over the entries of the vocabulary. *)
Fixpoint nearest_scan (vector : vec A) (entries : dict (vec A))
    (best_name : option string) (best_similarity : A) : result (option string * A) :=
  match entries with
  | [] => Ok (best_name, best_similarity)
  | (name, vocab_vec) :: rest =>
      do similarity <- cosine_similarity vector vocab_vec;
      if sgtb similarity best_similarity
      then nearest_scan vector rest (Some name) similarity
      else nearest_scan vector rest best_name best_similarity
  end.

(** [find_nearest_match(vector)]; [best_name] starts as [None] and
    [best_similarity] as [-1.0]. *)
Definition find_nearest_match (self : CleanupMemory) (vector : vec A)
    : result (option string * A) :=
  if negb (length vector =? cm_dim self) then Raise (ValueError DimensionMismatch)
  else nearest_scan vector (vectors (vocab self)) None (sopp s1).

Definition get_weights (self : CleanupMemory) : matrix A := weights self.

End Cleanup.

Arguments CleanupMemory A : clear implicits.
Arguments cleaned A : clear implicits.
Arguments loop_end A : clear implicits.

(** ** The FFT-based operations, over the reals *)

Local Open Scope R_scope.

(** Complex numbers as pairs of a real and an imaginary part. *)
Definition complex : Type := (R * R)%type.

Definition Cmul (z w : complex) : complex :=
  (fst z * fst w - snd z * snd w, fst z * snd w + snd z * fst w).

Definition Cconj (z : complex) : complex := (fst z, - snd z).

(** The product [X * Y] of two arrays of one length, elementwise. *)
Definition Cmul_arrays (X Y : list complex) : list complex :=
  map (fun p => Cmul (fst p) (snd p)) (combine X Y).

(** [rsum n f] is the sum of [f 0], ..., [f (n - 1)]. *)
Fixpoint rsum (n : nat) (f : nat -> R) : R :=
  match n with
  | O => 0
  | S n' => rsum n' f + f n'
  end.

(** The angle [2 pi k m / n] of the [n]-point transform. *)
Definition theta (n k m : nat) : R := 2 * PI * INR k * INR m / INR n.

(** [np.fft.rfft(a)]: the bins [0 .. n/2] of the discrete Fourier transform
    [X[k] = sum_m a[m] exp(-2 pi i m k / n)] of a real array of length [n]. *)
Definition rfft (a : vec R) : result (list complex) :=
  let n := length a in
  if (n =? 0)%nat then Raise (ValueError InvalidFFTPoints)
  else Ok (map (fun k => (rsum n (fun m => nth m a 0 * cos (theta n k m)),
                          rsum n (fun m => - (nth m a 0 * sin (theta n k m)))))
               (seq 0 (n / 2 + 1))).

(** [np.fft.irfft(X, n)]: the inverse of [rfft].  The bins above [n/2] are
    taken to be the conjugates of those below, so bin [0] and, for even [n],
    bin [n/2] count once and through their real parts only, and the bins
    between count twice. *)
Definition irfft (X : list complex) (n : nat) : result (vec R) :=
  if (n =? 0)%nat then Raise (ValueError InvalidFFTPoints)
  else
    let re k := fst (nth k X (0, 0)) in
    let im k := snd (nth k X (0, 0)) in
    Ok (map (fun m =>
               (re O
                + rsum ((n - 1) / 2)
                    (fun i => 2 * (re (S i) * cos (theta n (S i) m)
                                   - im (S i) * sin (theta n (S i) m)))
                + (if Nat.even n then re (n / 2)%nat * (-1) ^ m else 0))
               / INR n)
            (seq 0 n)).

(** The line [result = np.fft.irfft(np.fft.rfft(a) * np.fft.rfft(b), n=len(a))]
    of [circular_convolution]: the result before it is normalised. *)
Definition fft_convolve (a b : vec R) : result (vec R) :=
  do fa <- rfft a;
  do fb <- rfft b;
  irfft (Cmul_arrays fa fb) (length a).

(** The same line of [circular_correlation], with [np.conj] on the second
    spectrum. *)
Definition fft_correlate (c a : vec R) : result (vec R) :=
  do fc <- rfft c;
  do fa <- rfft a;
  irfft (Cmul_arrays fc (map Cconj fa)) (length c).

(** [circular_convolution(a, b)]. *)
Definition circular_convolution (a b : vec R) : result (vec R) :=
  if negb (length a =? length b)%nat then Raise (ValueError DimensionMismatch)
  else
    do result <- fft_convolve a b;
    Ok (normalize result).

(** [circular_correlation(c, a)]. *)
Definition circular_correlation (c a : vec R) : result (vec R) :=
  if negb (length c =? length a)%nat then Raise (ValueError DimensionMismatch)
  else
    do result <- fft_correlate c a;
    Ok (normalize result).

(** [SemanticVocabulary.bind(name_a, name_b, result_name)]. *)
Definition bind (self : SemanticVocabulary R) (name_a name_b result_name : string)
    : result (SemanticVocabulary R * vec R) :=
  do a <- get self name_a;
  do b <- get self name_b;
  do value <- circular_convolution a b;
  Ok (store self result_name value, value).

(** [SemanticVocabulary.unbind(bound_name, key_name, result_name)]. *)
Definition unbind (self : SemanticVocabulary R) (bound_name key_name result_name : string)
    : result (SemanticVocabulary R * vec R) :=
  do bound <- get self bound_name;
  do key <- get self key_name;
  do value <- circular_correlation bound key;
  Ok (store self result_name value, value).

(** ** The sums the transforms compute

    [conv_sum a b] and [corr_sum c a] are circular convolution and circular
    correlation written as sums over the indices; the theorems below show
    that the FFT pipelines above compute them. *)

Definition conv_sum (a b : vec R) : vec R :=
  let n := length a in
  map (fun k => rsum n (fun j => nth j a 0 * nth ((k + n - j) mod n) b 0)) (seq 0 n).

Definition corr_sum (c a : vec R) : vec R :=
  let n := length c in
  map (fun k => rsum n (fun j => nth j c 0 * nth ((j + n - k) mod n) a 0)) (seq 0 n).

(** Double sums, the angles of the transform at an integer, and the sum of
    the cosines the inverse transform weighs a wave with. *)
Definition rsum2 (n : nat) (f : nat -> nat -> R) : R :=
  rsum n (fun j => rsum n (fun l => f j l)).

Definition ang (n k : nat) (t : Z) : R := 2 * PI * INR k * IZR t / INR n.

Definition kernel (n : nat) (t : Z) : R :=
  1 + rsum ((n - 1) / 2) (fun i => 2 * cos (ang n (S i) t))
  + (if Nat.even n then cos (PI * IZR t) else 0).

(** The bins [rfft] returns for an array that is not empty. *)
Definition dft_bins (a : vec R) : list complex :=
  map (fun k => (rsum (length a) (fun m => nth m a 0 * cos (theta (length a) k m)),
                 rsum (length a) (fun m => - (nth m a 0 * sin (theta (length a) k m)))))
      (seq 0 (length a / 2 + 1)).

(** [X] is the spectrum of a sum of waves: bin [k] is the sum over
    [j, l < n] of [w j l * exp (- i * ang n k (tau j l))]. *)
Definition wave_spectrum (n : nat) (w : nat -> nat -> R) (tau : nat -> nat -> Z)
    (X : list complex) : Prop :=
  forall k, (k <= n / 2)%nat ->
    nth k X (0, 0) =
      (rsum2 n (fun j l => w j l * cos (ang n k (tau j l))),
       - rsum2 n (fun j l => w j l * sin (ang n k (tau j l)))).

(** The sum of the entries of a vector. *)
Definition total (v : vec R) : R := rsum (length v) (fun j => nth j v 0).

(** The round trip of the tests: bind [a] with [b], unbind the result with
    [b] and compare what comes back with [a]. *)
Definition roundtrip_similarity (a b : vec R) : result R :=
  do bound <- circular_convolution a b;
  do recovered <- circular_correlation bound b;
  cosine_similarity recovered a.

(** ** Predicates of the statements *)

(** "L2 norm within 0.01 of 1.0". *)
Definition unit_norm (v : vec R) : Prop := Rabs (vnorm v - 1) <= 1 / 100.

(** The invariant of a vocabulary: every stored vector has the dimension of
    the vocabulary, which is at least 2. *)
Definition vocab_wf {A : Type} (voc : SemanticVocabulary A) : Prop :=
  (2 <= vocab_dim voc)%nat /\
  Forall (fun entry => length (snd entry) = vocab_dim voc) (vectors voc).

(** What a wrapper that stores its result does to the vocabulary: it does not
    fail with the already-exists error, and when it returns, the new
    vocabulary is the old one with the result assigned to [result_name]. *)
Definition stores (self : SemanticVocabulary R) (result_name : string)
    (outcome : result (SemanticVocabulary R * vec R)) : Prop :=
  ~ raises outcome (ValueError AlreadyExists) /\
  forall self' value, outcome = Ok (self', value) ->
    self' = store self result_name value /\
    get self' result_name = Ok value /\
    forall other, other <> result_name -> get self' other = get self other.

(** A cleanup memory over a well-formed vocabulary. *)
Definition cm_wf {A : Type} (cm : CleanupMemory A) : Prop :=
  cm_dim cm = vocab_dim (vocab cm) /\ vocab_wf (vocab cm).

(** ** IEEE 754 binary64 scalars

    The float64 arithmetic of NumPy is that of the kernel's primitive floats.
    [tanh] comes from the C library and is a parameter; what the proofs need
    of it is stated where it is used.  Sums are taken in the order [dot]
    fixes, which NumPy leaves to its BLAS. *)

Module IEEE.
Import Floats.

Definition float_scalar (libm_tanh : float -> float) : Scalar float := {|
  s0 := 0%float;
  s1 := 1%float;
  sfloor := 0x1.b7cdfd9d7bdbbp-34%float;   (* the binary64 number the literal 1e-10 denotes *)
  sadd := PrimFloat.add;
  ssub := PrimFloat.sub;
  smul := PrimFloat.mul;
  sdiv := PrimFloat.div;
  sopp := PrimFloat.opp;
  ssqrt := PrimFloat.sqrt;
  stanh := libm_tanh;
  sgtb := fun x y => PrimFloat.ltb y x;
  sltb := PrimFloat.ltb;
  sleb := PrimFloat.leb
|}.

(** A float that is a zero of either sign, or NaN. *)
Definition zero_or_nan (x : float) : Prop :=
  match Prim2SF x with
  | S754_zero _ | S754_nan => True
  | _ => False
  end.

Definition is_nan_value (x : float) : Prop := Prim2SF x = S754_nan.

(** A cleanup memory over floats: the one for the vocabulary [{"A": [1, 0]}]
    with threshold 0.001, whose Hopfield matrix is zero. *)
Definition float_mem_A : CleanupMemory float :=
  {| vocab := {| vocab_dim := 2; vectors := [("A"%string, [1%float; 0%float])] |};
     cm_dim := 2;
     threshold := 0x1.0624dd2f1a9fcp-10%float;   (* 0.001 *)
     weights := [[0%float; 0%float]; [0%float; 0%float]] |}.

End IEEE.

(** ** Small vocabularies and memories used in examples *)

Local Open Scope string_scope.

(** The vocabulary after [add("A", [1, 0])], and after [add("B", [0, 1])]
    as well, in dimension 2. *)
Definition voc_A : SemanticVocabulary R :=
  {| vocab_dim := 2; vectors := [("A", [1; 0])] |}.

Definition voc_AB : SemanticVocabulary R :=
  {| vocab_dim := 2; vectors := [("A", [1; 0]); ("B", [0; 1])] |}.

(** Two unit vectors of dimension 64: the first vector of the standard
    basis, and the constant vector. *)
Definition basis_64 : vec R := 1 :: repeat 0 63.

Definition constant_64 : vec R := repeat (1 / 8) 64.

(** [CleanupMemory(voc_A, threshold=0.001)]. *)
Definition mem_A : CleanupMemory R :=
  {| vocab := voc_A; cm_dim := 2; threshold := 1 / 1000;
     weights := _compute_hopfield_weights voc_A |}.

Local Close Scope string_scope.

(** ** Further definitions for the statements *)

(** [basis n k]: the [k]-th vector of the standard basis in dimension [n]. *)
Definition basis (n k : nat) : vec R :=
  map (fun i => if (i =? k)%nat then 1 else 0) (seq 0 n).

(** A matrix of [rows] rows, each of [cols] entries. *)
Definition shape {A : Type} (M : matrix A) (rows cols : nat) : Prop :=
  length M = rows /\ Forall (fun row => length row = cols) M.

(** An encoder as its constructor and the property [decoders] leave it:
    [encoders] is [n_neurons] by [enc_dim] and [decoders] the other way
    round. *)
Definition encoder_wf {A : Type} (enc : NeuralEncoder A) : Prop :=
  (1 <= n_neurons enc)%nat /\ (2 <= enc_dim enc)%nat /\
  shape (encoders enc) (n_neurons enc) (enc_dim enc) /\
  shape (decoders enc) (enc_dim enc) (n_neurons enc).

(** The sum over the entries of a dictionary of the products of coordinates
    [i] and [j] of each vector, accumulated in the order of the entries. *)
Definition outer_sum (entries : dict (vec R)) (i j : nat) : R :=
  fold_left (fun acc entry => acc + nth i (snd entry) 0 * nth j (snd entry) 0) entries 0.

(** ** The semantic-pointer state of the server ([src/server.py])

    [SemanticPointer.cleanup_memory] is built from [self.vocab] and keeps
    that object: a vector added to the vocabulary later is seen by
    [find_nearest_match], while the Hopfield matrix stays the one computed
    when the memory was built.  The field [cleanup_memory] holds the memory
    as it was built; [shared_memory] is the memory as a method call finds
    it, with the vocabulary of the moment.  [default_threshold] is the
    literal [0.001], the default threshold of [CleanupMemory]. *)
Section Server.
Context {A : Type} `{Scalar A}.
Variable default_threshold : A.

Record SemanticPointer : Type := {
  sp_vocab : SemanticVocabulary A;
  sp_encoders : dict (NeuralEncoder A);
  sp_dim : nat;
  sp_n_neurons : nat;
  cleanup_memory : option (CleanupMemory A)
}.

(** [SemanticPointer(dim, n_neurons_per_pool)]. *)
Definition SemanticPointer_init (dim n_neurons_per_pool : nat) : result SemanticPointer :=
  do voc <- SemanticVocabulary_init dim;
  Ok {| sp_vocab := voc; sp_encoders := []; sp_dim := dim;
        sp_n_neurons := n_neurons_per_pool; cleanup_memory := None |}.

Definition shared_memory (sp : SemanticPointer) (cm : CleanupMemory A) : CleanupMemory A :=
  {| vocab := sp_vocab sp; cm_dim := cm_dim cm; threshold := threshold cm;
     weights := weights cm |}.

(** A command of the handler: it reads and updates the state [sp], and
    returns or raises.  What it did to the state before it raised stays. *)
Definition command (T : Type) : Type := SemanticPointer -> SemanticPointer * result T.

Definition ret {T : Type} (x : T) : command T := fun sp => (sp, Ok x).

Definition throw {T : Type} (e : exn) : command T := fun sp => (sp, Raise e).

Definition and_then {T U : Type} (m : command T) (k : T -> command U) : command U :=
  fun sp =>
    match m sp with
    | (sp', Ok x) => k x sp'
    | (sp', Raise e) => (sp', Raise e)
    end.

Notation "'run' x <- m ; k" := (and_then m (fun x => k))
  (at level 10, x name, m at level 100, k at level 200).

(** [name in sp.vocab], [sp.vocab.get(name)] and [sp.vocab.add(name, vector)]. *)
Definition vocab_contains (name : string) : command bool :=
  fun sp => (sp, Ok (contains (sp_vocab sp) name)).

Definition vocab_get (name : string) : command (vec A) :=
  fun sp => (sp, get (sp_vocab sp) name).

Definition vocab_add (name : string) (vector : vec A) : command (vec A) :=
  fun sp =>
    match add (sp_vocab sp) name (Some vector) [] with
    | Ok (voc, stored) =>
        ({| sp_vocab := voc; sp_encoders := sp_encoders sp; sp_dim := sp_dim sp;
            sp_n_neurons := sp_n_neurons sp; cleanup_memory := cleanup_memory sp |},
         Ok stored)
    | Raise e => (sp, Raise e)
    end.

(** [SemanticPointer.initialize_cleanup], with the default threshold.  Of
    the status it returns, the size of the vocabulary and the dimension. *)
Definition initialize_cleanup : command (nat * nat) :=
  fun sp =>
    if (length (vectors (sp_vocab sp)) =? 0)%nat then (sp, Raise (ValueError EmptyVocabulary))
    else
      match CleanupMemory_init (sp_vocab sp) default_threshold with
      | Ok cm =>
          ({| sp_vocab := sp_vocab sp; sp_encoders := sp_encoders sp; sp_dim := sp_dim sp;
              sp_n_neurons := sp_n_neurons sp; cleanup_memory := Some cm |},
           Ok (length (vectors (sp_vocab sp)), sp_dim sp))
      | Raise e => (sp, Raise e)
      end.

(** [if sp.cleanup_memory is None: sp.initialize_cleanup()], and the object
    [sp.cleanup_memory] after it. *)
Definition the_cleanup_memory : command (CleanupMemory A) :=
  fun sp =>
    match cleanup_memory sp with
    | Some cm => (sp, Ok cm)
    | None =>
        match initialize_cleanup sp with
        | (sp', Ok _) =>
            match cleanup_memory sp' with
            | Some cm => (sp', Ok cm)
            | None => (sp', Raise (ValueError EmptyVocabulary))
                (* not reached: [initialize_cleanup] has set the field *)
            end
        | (sp', Raise e) => (sp', Raise e)
        end
    end.

(** A method call on the memory [cm]: the method finds the vocabulary as it
    is at the call. *)
Definition memory_call {T : Type} (cm : CleanupMemory A)
    (method : CleanupMemory A -> result T) : command T :=
  fun sp => (sp, method (shared_memory sp cm)).

(** The triple [cleanup] returns when the trajectory is requested. *)
Definition with_trajectory (c : cleaned A) : vec A * list (vec A) * Z :=
  match c with
  | WithTrajectory x trajectory n_iters => (x, trajectory, n_iters)
  | Vector x => (x, [], 0%Z)   (* not returned when [return_trajectory] is set *)
  end.

(** The result of the command [spCleanup], as sent to the client. *)
Record cleanup_reply : Type := {
  cleanedVector : string;
  iterations : Z;
  nearestMatch : option string;
  reply_similarity : A;
  trajectoryLength : nat
}.

(** The command [spCleanup] of the handler, for an enabled [sp]:
    [noisy_name], [result_name] and [max_iterations] are the fields
    [noisyVector], [resultName] and [maxIterations] of the message.  The
    handler catches [KeyError] and [ValueError] and sends the exception as
    an error message: [Raise e] is that message. *)
Definition spCleanup (noisy_name result_name : string) (max_iterations : Z)
    : command cleanup_reply :=
  run present <- vocab_contains noisy_name;
  if negb present then throw (KeyError noisy_name)
  else
    run cm <- the_cleanup_memory;
    run noisy_vec <- vocab_get noisy_name;
    run c <- memory_call cm (fun self => cleanup self noisy_vec true max_iterations);
    let '(cleaned_vec, trajectory, n_iters) := with_trajectory c in
    run _ <- vocab_add result_name cleaned_vec;
    run nearest <- memory_call cm (fun self => find_nearest_match self cleaned_vec);
    ret {| cleanedVector := result_name;
           iterations := n_iters;
           nearestMatch := fst nearest;
           reply_similarity := snd nearest;
           trajectoryLength := length trajectory |}.

(** The state the commands keep: a well-formed vocabulary and, once built,
    a memory of the vocabulary's dimension whose matrix has that many
    rows. *)
Definition sp_ok (sp : SemanticPointer) : Prop :=
  vocab_wf (sp_vocab sp) /\
  forall cm, cleanup_memory sp = Some cm ->
    cm_dim cm = vocab_dim (sp_vocab sp) /\ length (weights cm) = cm_dim cm.

End Server.

Arguments SemanticPointer A : clear implicits.
Arguments cleanup_reply A : clear implicits.

(** * Properties *)

(** ** Finite sums *)

Lemma rsum_ext n f g : (forall i, (i < n)%nat -> f i = g i) -> rsum n f = rsum n g.
Proof.
  induction n as [|n IH]; intros E; simpl; [reflexivity|].
  rewrite IH by (intros; apply E; lia). rewrite (E n) by lia. reflexivity.
Qed.

Lemma rsum_plus n f g : rsum n (fun i => f i + g i) = rsum n f + rsum n g.
Proof. induction n as [|n IH]; simpl; [lra | rewrite IH; lra]. Qed.

Lemma rsum_scal n c f : rsum n (fun i => c * f i) = c * rsum n f.
Proof. induction n as [|n IH]; simpl; [lra | rewrite IH; lra]. Qed.

Lemma rsum_scal_r n c f : rsum n (fun i => f i * c) = rsum n f * c.
Proof. induction n as [|n IH]; simpl; [lra | rewrite IH; lra]. Qed.

Lemma rsum_opp n f : rsum n (fun i => - f i) = - rsum n f.
Proof. induction n as [|n IH]; simpl; [lra | rewrite IH; lra]. Qed.

Lemma rsum_zero n : rsum n (fun _ => 0) = 0.
Proof. induction n as [|n IH]; simpl; [lra | rewrite IH; lra]. Qed.

Lemma rsum_const n c : rsum n (fun _ => c) = INR n * c.
Proof.
  induction n as [|n IH]; [simpl; lra|].
  rewrite S_INR. simpl. rewrite IH. lra.
Qed.

Lemma rsum_swap n m (f : nat -> nat -> R) :
  rsum n (fun i => rsum m (fun j => f i j)) = rsum m (fun j => rsum n (fun i => f i j)).
Proof.
  induction n as [|n IH]; simpl.
  - rewrite rsum_zero. reflexivity.
  - rewrite IH. rewrite <- rsum_plus. reflexivity.
Qed.

Lemma rsum_single n f j0 :
  (j0 < n)%nat -> (forall i, (i < n)%nat -> i <> j0 -> f i = 0) -> rsum n f = f j0.
Proof.
  induction n as [|n IH]; intros Hj Hz; [lia|].
  simpl. destruct (Nat.eq_dec j0 n) as [->|Hne].
  - rewrite (rsum_ext n f (fun _ => 0)).
    + rewrite rsum_zero. lra.
    + intros i Hi. apply Hz; lia.
  - rewrite IH; [|lia|intros; apply Hz; lia].
    rewrite (Hz n); [lra|lia|congruence].
Qed.

Lemma rsum_all_zero n f : (forall i, (i < n)%nat -> f i = 0) -> rsum n f = 0.
Proof.
  intros Hz. rewrite (rsum_ext n f (fun _ => 0)) by assumption. apply rsum_zero.
Qed.

Lemma rsum_mul n m f g :
  rsum n f * rsum m g = rsum n (fun i => rsum m (fun j => f i * g j)).
Proof.
  rewrite <- rsum_scal_r. apply rsum_ext. intros i _.
  rewrite rsum_scal. reflexivity.
Qed.

(* Dirichlet kernel *)
Lemma dirichlet h x :
  sin (x / 2) * (1 + rsum h (fun i => 2 * cos (INR (S i) * x))) = sin ((INR h + 1 / 2) * x).
Proof.
  induction h as [|h IH].
  - simpl. replace ((0 + 1 / 2) * x) with (x / 2) by lra. lra.
  - cbn [rsum]. 
    replace (sin (x / 2) * (1 + (rsum h (fun i => 2 * cos (INR (S i) * x)) + 2 * cos (INR (S h) * x))))
      with (sin (x / 2) * (1 + rsum h (fun i => 2 * cos (INR (S i) * x)))
            + 2 * cos (INR (S h) * x) * sin (x / 2)) by lra.
    rewrite IH.
    replace ((INR (S h) + 1 / 2) * x) with (INR (S h) * x + x / 2) by lra.
    replace ((INR h + 1 / 2) * x) with (INR (S h) * x - x / 2) by (rewrite S_INR; lra).
    rewrite sin_plus, sin_minus. lra.
Qed.

(** ** Sines and cosines at multiples of pi, and the kernel *)

Lemma cos_2PI_nat (k : nat) : cos (2 * PI * INR k) = 1.
Proof.
  replace (2 * PI * INR k) with (0 + 2 * INR k * PI) by lra.
  rewrite cos_period. apply cos_0.
Qed.

Lemma sin_2PI_nat (k : nat) : sin (2 * PI * INR k) = 0.
Proof.
  replace (2 * PI * INR k) with (0 + 2 * INR k * PI) by lra.
  rewrite sin_period. apply sin_0.
Qed.

Lemma cos_2PI_Z (z : Z) : cos (2 * PI * IZR z) = 1.
Proof.
  destruct (Z_le_gt_dec 0 z) as [Hz|Hz].
  - rewrite <- (Z2Nat.id z) by lia. rewrite <- INR_IZR_INZ. apply cos_2PI_nat.
  - replace (2 * PI * IZR z) with (- (2 * PI * IZR (- z))) by (rewrite opp_IZR; lra).
    rewrite cos_neg. rewrite <- (Z2Nat.id (- z)) by lia.
    rewrite <- INR_IZR_INZ. apply cos_2PI_nat.
Qed.

Lemma sin_PI_Z (z : Z) : sin (PI * IZR z) = 0.
Proof. apply sin_eq_0_1. exists z. lra. Qed.

Lemma cos_PI_nat (m : nat) : cos (PI * INR m) = (-1) ^ m.
Proof.
  induction m as [|m IH].
  - simpl. rewrite Rmult_0_r. apply cos_0.
  - rewrite S_INR. replace (PI * (INR m + 1)) with (PI * INR m + PI) by lra.
    rewrite neg_cos, IH. simpl. lra.
Qed.

Lemma sin_PI_nat (m : nat) : sin (PI * INR m) = 0.
Proof. rewrite INR_IZR_INZ. apply sin_PI_Z. Qed.

Lemma half_pred_even n m : (0 < n)%nat -> n = (2 * m)%nat -> ((n - 1) / 2 = m - 1)%nat.
Proof. intros Hn Hm. symmetry. apply (Nat.div_unique _ _ _ 1); lia. Qed.

Lemma half_pred_odd n m : n = (2 * m + 1)%nat -> ((n - 1) / 2 = m)%nat.
Proof.
  intros ->. replace (2 * m + 1 - 1)%nat with (m * 2)%nat by lia.
  apply Nat.div_mul. lia.
Qed.

Lemma kernel_div n t :
  (0 < n)%nat -> (Z.of_nat n | t)%Z -> kernel n t = INR n.
Proof.
  intros Hn [q ->]. unfold kernel.
  assert (Hn0 : INR n <> 0) by (apply not_0_INR; lia).
  rewrite (rsum_ext _ _ (fun _ => 2)).
  2:{ intros i _. unfold ang. rewrite mult_IZR, <- INR_IZR_INZ.
      replace (2 * PI * INR (S i) * (IZR q * INR n) / INR n)
        with (2 * PI * IZR (Z.of_nat (S i) * q)).
      - rewrite cos_2PI_Z. lra.
      - rewrite mult_IZR, <- INR_IZR_INZ. field. exact Hn0. }
  rewrite rsum_const.
  destruct (Nat.even n) eqn:E.
  - apply Nat.even_spec in E. destruct E as [m Hm].
    assert (Hh := half_pred_even n m Hn Hm).
    rewrite Hh.
    replace (PI * IZR (q * Z.of_nat n)) with (2 * PI * IZR (q * Z.of_nat m)).
    + rewrite cos_2PI_Z. rewrite minus_INR by lia. rewrite Hm, mult_INR. simpl. lra.
    + rewrite Hm. rewrite !mult_IZR, Nat2Z.inj_mul, mult_IZR. simpl. lra.
  - assert (O : Nat.odd n = true) by (rewrite <- Nat.negb_even, E; reflexivity).
    apply Nat.odd_spec in O. destruct O as [m Hm].
    assert (Hh := half_pred_odd n m Hm).
    rewrite Hh, Hm. rewrite plus_INR, mult_INR. simpl. lra.
Qed.

Lemma sin_ndiv n t :
  (0 < n)%nat -> ~ (Z.of_nat n | t)%Z -> sin (PI * IZR t / INR n) <> 0.
Proof.
  intros Hn Hnd Hs.
  assert (Hn0 : INR n <> 0) by (apply not_0_INR; lia).
  apply sin_eq_0_0 in Hs. destruct Hs as [k Hk].
  apply Hnd. exists k.
  apply eq_IZR. rewrite mult_IZR, <- INR_IZR_INZ.
  assert (HP := PI_neq0).
  assert (E : PI * IZR t = PI * (IZR k * INR n)).
  { replace (PI * IZR t) with (PI * IZR t / INR n * INR n) by (field; exact Hn0).
    rewrite Hk. ring. }
  apply Rmult_eq_reg_l in E; assumption.
Qed.

Lemma kernel_ndiv n t :
  (0 < n)%nat -> ~ (Z.of_nat n | t)%Z -> kernel n t = 0.
Proof.
  intros Hn Hnd.
  assert (Hn0 : INR n <> 0) by (apply not_0_INR; lia).
  assert (Hs := sin_ndiv n t Hn Hnd).
  set (x := 2 * PI * IZR t / INR n).
  assert (Hx : x / 2 = PI * IZR t / INR n) by (unfold x; field; exact Hn0).
  apply (Rmult_eq_reg_l (sin (x / 2))); [|rewrite Hx; exact Hs].
  rewrite Rmult_0_r. unfold kernel.
  rewrite (rsum_ext _ (fun i => 2 * cos (ang n (S i) t)) (fun i => 2 * cos (INR (S i) * x))).
  2:{ intros i _. unfold ang, x. f_equal. f_equal. field. exact Hn0. }
  rewrite Rmult_plus_distr_l, dirichlet.
  destruct (Nat.even n) eqn:E.
  - apply Nat.even_spec in E. destruct E as [m Hm].
    assert (Hh := half_pred_even n m Hn Hm).
    rewrite Hh.
    assert (Hm1 : (1 <= m)%nat) by lia.
    replace ((INR (m - 1) + 1 / 2) * x) with (PI * IZR t - x / 2).
    + rewrite sin_minus, sin_PI_Z. lra.
    + rewrite minus_INR by lia. unfold x. 
      assert (En : INR n = 2 * INR m) by (rewrite Hm, mult_INR; simpl; lra).
      simpl. rewrite En. field. intro Z0. rewrite En in Hn0. lra.
  - assert (O : Nat.odd n = true) by (rewrite <- Nat.negb_even, E; reflexivity).
    apply Nat.odd_spec in O. destruct O as [m Hm].
    assert (Hh := half_pred_odd n m Hm).
    rewrite Hh.
    replace ((INR m + 1 / 2) * x) with (PI * IZR t).
    + rewrite sin_PI_Z. lra.
    + unfold x.
      assert (En : INR n = 2 * INR m + 1) by (rewrite Hm, plus_INR, mult_INR; simpl; lra).
      rewrite En. field. rewrite <- En. exact Hn0.
Qed.

(** ** The inverse transform of a spectrum of waves *)

Lemma rsum2_ext n f g :
  (forall j l, (j < n)%nat -> (l < n)%nat -> f j l = g j l) -> rsum2 n f = rsum2 n g.
Proof.
  intros E. unfold rsum2. apply rsum_ext. intros j Hj.
  apply rsum_ext. intros l Hl. apply E; assumption.
Qed.

Lemma rsum2_plus n f g :
  rsum2 n (fun j l => f j l + g j l) = rsum2 n f + rsum2 n g.
Proof.
  unfold rsum2. rewrite <- rsum_plus. apply rsum_ext. intros j _.
  apply rsum_plus.
Qed.

Lemma rsum2_scal_r n c f : rsum2 n (fun j l => f j l * c) = rsum2 n f * c.
Proof.
  unfold rsum2. rewrite <- rsum_scal_r. apply rsum_ext. intros j _.
  apply rsum_scal_r.
Qed.

Lemma rsum2_scal n c f : rsum2 n (fun j l => c * f j l) = c * rsum2 n f.
Proof.
  unfold rsum2. rewrite <- rsum_scal. apply rsum_ext. intros j _.
  apply rsum_scal.
Qed.

Lemma rsum2_rsum n h (f : nat -> nat -> nat -> R) :
  rsum2 n (fun j l => rsum h (fun i => f i j l)) = rsum h (fun i => rsum2 n (f i)).
Proof.
  unfold rsum2.
  rewrite (rsum_ext n _ (fun j => rsum h (fun i => rsum n (fun l => f i j l)))).
  - apply rsum_swap.
  - intros j _. apply rsum_swap.
Qed.

Lemma nth_map_seq {T : Type} (f : nat -> T) (len k : nat) (d : T) :
  (k < len)%nat -> nth k (map f (seq 0 len)) d = f k.
Proof.
  intros Hk. rewrite (nth_indep _ d (f 0%nat)) by (rewrite length_map, length_seq; exact Hk).
  rewrite (map_nth f (seq 0 len) 0%nat k). rewrite seq_nth by exact Hk. reflexivity.
Qed.

Lemma theta_ang n k m : theta n k m = ang n k (Z.of_nat m).
Proof. unfold theta, ang. rewrite <- INR_IZR_INZ. reflexivity. Qed.

Lemma ang_minus n k t u : ang n k t - ang n k u = ang n k (t - u).
Proof. unfold ang. rewrite minus_IZR. unfold Rdiv. ring. Qed.

Lemma ang_0 n t : ang n 0 t = 0.
Proof. unfold ang. simpl. unfold Rdiv. ring. Qed.

Lemma ang_half n t : (0 < n)%nat -> Nat.even n = true -> ang n (n / 2) t = PI * IZR t.
Proof.
  intros Hn E. apply Nat.even_spec in E. destruct E as [m Hm].
  assert (Hd : (n / 2 = m)%nat).
  { rewrite Hm, Nat.mul_comm. apply Nat.div_mul. lia. }
  unfold ang. rewrite Hd.
  assert (En : INR n = 2 * INR m) by (rewrite Hm, mult_INR; simpl; lra).
  rewrite En. field. intro Z0.
  assert (INR n <> 0) by (apply not_0_INR; lia). lra.
Qed.

Lemma wave_term n w tau X k m :
  wave_spectrum n w tau X -> (k <= n / 2)%nat ->
  fst (nth k X (0, 0)) * cos (theta n k m) - snd (nth k X (0, 0)) * sin (theta n k m)
  = rsum2 n (fun j l => w j l * cos (ang n k (tau j l - Z.of_nat m))).
Proof.
  intros HX Hk. rewrite (HX k Hk). cbn [fst snd].
  rewrite <- rsum2_scal_r.
  replace (- rsum2 n (fun j l => w j l * sin (ang n k (tau j l))) * sin (theta n k m))
    with (- (rsum2 n (fun j l => w j l * sin (ang n k (tau j l))) * sin (theta n k m))) by ring.
  rewrite <- rsum2_scal_r. unfold Rminus. rewrite Ropp_involutive.
  rewrite <- rsum2_plus. apply rsum2_ext. intros j l _ _.
  rewrite <- ang_minus, cos_minus, theta_ang. ring.
Qed.

Lemma irfft_wave n w tau X :
  (0 < n)%nat -> wave_spectrum n w tau X ->
  irfft X n =
    Ok (map (fun m => rsum2 n (fun j l => w j l * kernel n (tau j l - Z.of_nat m)) / INR n)
            (seq 0 n)).
Proof.
  intros Hn HX. unfold irfft.
  destruct (n =? 0)%nat eqn:E0; [apply Nat.eqb_eq in E0; lia|].
  f_equal. apply map_ext_in. intros m Hm. apply in_seq in Hm.
  f_equal.
  (* bin 0 *)
  assert (H0 : fst (nth 0 X (0, 0)) = rsum2 n (fun j l => w j l * 1)).
  { pose proof (wave_term n w tau X 0 m HX (Nat.le_0_l _)) as W.
    unfold theta in W. simpl INR in W.
    replace (2 * PI * 0 * INR m / INR n) with 0 in W by (unfold Rdiv; ring).
    rewrite cos_0, sin_0 in W. rewrite Rmult_1_r, Rmult_0_r, Rminus_0_r in W.
    rewrite W. apply rsum2_ext. intros j l _ _. rewrite ang_0, cos_0. reflexivity. }
  (* the bins counted twice *)
  assert (Hmid : rsum ((n - 1) / 2)
            (fun i => 2 * (fst (nth (S i) X (0, 0)) * cos (theta n (S i) m)
                           - snd (nth (S i) X (0, 0)) * sin (theta n (S i) m)))
          = rsum2 n (fun j l => w j l *
               rsum ((n - 1) / 2) (fun i => 2 * cos (ang n (S i) (tau j l - Z.of_nat m))))).
  { rewrite (rsum2_ext n _
       (fun j l => rsum ((n - 1) / 2)
          (fun i => 2 * (w j l * cos (ang n (S i) (tau j l - Z.of_nat m)))))).
    2:{ intros j l _ _. rewrite <- rsum_scal. apply rsum_ext. intros i _. ring. }
    rewrite (rsum2_rsum n ((n - 1) / 2)
       (fun i j l => 2 * (w j l * cos (ang n (S i) (tau j l - Z.of_nat m))))).
    apply rsum_ext. intros i Hi.
    rewrite rsum2_scal. f_equal.
    apply wave_term; [exact HX|].
    assert (2 * ((n - 1) / 2) <= n - 1)%nat by (apply Nat.Div0.mul_div_le).
    assert (n <= 2 * (n / 2) + 1)%nat.
    { pose proof (Nat.div_mod_eq n 2). pose proof (Nat.mod_upper_bound n 2). lia. }
    lia. }
  (* the bin in the middle *)
  assert (Hnyq : (if Nat.even n then fst (nth (n / 2) X (0, 0)) * (-1) ^ m else 0)
          = rsum2 n (fun j l => w j l *
               (if Nat.even n then cos (PI * IZR (tau j l - Z.of_nat m)) else 0))).
  { destruct (Nat.even n) eqn:Ev.
    - pose proof (wave_term n w tau X (n / 2) m HX (Nat.le_refl _)) as W.
      rewrite theta_ang, (ang_half _ _ Hn Ev), <- INR_IZR_INZ in W.
      rewrite cos_PI_nat, sin_PI_nat in W. rewrite Rmult_0_r, Rminus_0_r in W.
      rewrite W. apply rsum2_ext. intros j l _ _. rewrite (ang_half _ _ Hn Ev). reflexivity.
    - symmetry. unfold rsum2. apply rsum_all_zero. intros j _.
      apply rsum_all_zero. intros l _. ring. }
  rewrite H0, Hmid, Hnyq. rewrite <- !rsum2_plus.
  apply rsum2_ext. intros j l _ _. unfold kernel. ring.
Qed.

(** ** The FFT pipelines compute circular convolution and correlation *)

Lemma rsum2_opp n f : rsum2 n (fun j l => - f j l) = - rsum2 n f.
Proof.
  rewrite (rsum2_ext n _ (fun j l => (-1) * f j l)) by (intros; ring).
  rewrite rsum2_scal. ring.
Qed.

Lemma rsum2_minus n f g :
  rsum2 n (fun j l => f j l - g j l) = rsum2 n f - rsum2 n g.
Proof.
  unfold Rminus. rewrite <- rsum2_opp, <- rsum2_plus. reflexivity.
Qed.

Lemma rsum_mul2 n f g : rsum n f * rsum n g = rsum2 n (fun j l => f j * g l).
Proof. apply rsum_mul. Qed.

Lemma ang_plus n k j l :
  ang n k (Z.of_nat j + Z.of_nat l) = theta n k j + theta n k l.
Proof. rewrite !theta_ang. unfold ang. rewrite plus_IZR. unfold Rdiv. ring. Qed.

Lemma ang_sub n k j l :
  ang n k (Z.of_nat j - Z.of_nat l) = theta n k j - theta n k l.
Proof. rewrite !theta_ang. unfold ang. rewrite minus_IZR. unfold Rdiv. ring. Qed.

Lemma rfft_ok a : (0 < length a)%nat -> rfft a = Ok (dft_bins a).
Proof.
  intros Hn. unfold rfft, dft_bins.
  destruct (length a =? 0)%nat eqn:E; [apply Nat.eqb_eq in E; lia | reflexivity].
Qed.

Lemma rfft_inv a X : rfft a = Ok X -> (0 < length a)%nat /\ X = dft_bins a.
Proof.
  intros HX.
  assert (Hn : (0 < length a)%nat).
  { unfold rfft in HX. destruct (length a =? 0)%nat eqn:E; [discriminate|].
    apply Nat.eqb_neq in E. lia. }
  split; [exact Hn|]. rewrite (rfft_ok a Hn) in HX. congruence.
Qed.

Lemma length_dft_bins a : length (dft_bins a) = (length a / 2 + 1)%nat.
Proof. unfold dft_bins. rewrite length_map, length_seq. reflexivity. Qed.

Lemma nth_dft_bins a k :
  (k <= length a / 2)%nat ->
  nth k (dft_bins a) (0, 0) =
    (rsum (length a) (fun m => nth m a 0 * cos (theta (length a) k m)),
     rsum (length a) (fun m => - (nth m a 0 * sin (theta (length a) k m)))).
Proof. intros Hk. unfold dft_bins. rewrite nth_map_seq by lia. reflexivity. Qed.

Lemma nth_Cmul_arrays X Y k :
  length X = length Y -> (k < length X)%nat ->
  nth k (Cmul_arrays X Y) (0, 0) = Cmul (nth k X (0, 0)) (nth k Y (0, 0)).
Proof.
  intros HL Hk. unfold Cmul_arrays.
  rewrite (nth_indep _ (0, 0) ((fun p => Cmul (fst p) (snd p)) ((0, 0), (0, 0)))).
  - rewrite (map_nth (fun p => Cmul (fst p) (snd p))).
    rewrite combine_nth by exact HL. reflexivity.
  - rewrite length_map, length_combine. lia.
Qed.

Lemma conv_spectrum a b X Y :
  length a = length b -> (0 < length a)%nat ->
  rfft a = Ok X -> rfft b = Ok Y ->
  wave_spectrum (length a) (fun j l => nth j a 0 * nth l b 0)
    (fun j l => (Z.of_nat j + Z.of_nat l)%Z) (Cmul_arrays X Y).
Proof.
  intros HL Hn HX HY k Hk.
  apply rfft_inv in HX. apply rfft_inv in HY.
  destruct HX as [_ ->]. destruct HY as [_ ->].
  rewrite nth_Cmul_arrays; [|rewrite !length_dft_bins, HL; reflexivity
                            |rewrite length_dft_bins; lia].
  rewrite !nth_dft_bins by (rewrite <- ?HL; exact Hk). rewrite <- HL.
  unfold Cmul. cbn [fst snd].
  f_equal.
  - rewrite !rsum_mul2, <- rsum2_minus. apply rsum2_ext. intros j l _ _.
    rewrite ang_plus, cos_plus. ring.
  - rewrite !rsum_mul2, <- rsum2_plus, <- rsum2_opp. apply rsum2_ext. intros j l _ _.
    rewrite ang_plus, sin_plus. ring.
Qed.

Lemma corr_spectrum c a X Y :
  length c = length a -> (0 < length c)%nat ->
  rfft c = Ok X -> rfft a = Ok Y ->
  wave_spectrum (length c) (fun j l => nth j c 0 * nth l a 0)
    (fun j l => (Z.of_nat j - Z.of_nat l)%Z) (Cmul_arrays X (map Cconj Y)).
Proof.
  intros HL Hn HX HY k Hk.
  apply rfft_inv in HX. apply rfft_inv in HY.
  destruct HX as [_ ->]. destruct HY as [_ ->].
  rewrite nth_Cmul_arrays; [|rewrite length_map, !length_dft_bins, HL; reflexivity
                            |rewrite length_dft_bins; lia].
  rewrite (nth_indep (map Cconj _) (0, 0) (Cconj (0, 0)))
    by (rewrite length_map, length_dft_bins, <- HL; lia).
  rewrite (map_nth Cconj).
  rewrite !nth_dft_bins by (rewrite <- ?HL; exact Hk). rewrite <- HL.
  unfold Cmul, Cconj. cbn [fst snd]. rewrite <- rsum_opp.
  f_equal.
  - rewrite !rsum_mul2, <- rsum2_minus. apply rsum2_ext. intros j l _ _.
    rewrite ang_sub, cos_minus. ring.
  - rewrite !rsum_mul2, <- rsum2_plus, <- rsum2_opp. apply rsum2_ext. intros j l _ _.
    rewrite ang_sub, sin_minus. ring.
Qed.

Lemma divides_window (n : nat) (t : Z) :
  (0 < n)%nat -> (Z.of_nat n | t)%Z -> (- Z.of_nat n < t < 2 * Z.of_nat n)%Z ->
  t = 0%Z \/ t = Z.of_nat n.
Proof.
  intros Hn [q Hq] Ht.
  assert (q = 0 \/ q = 1)%Z as [-> | ->] by nia; lia.
Qed.

Lemma divides_window_neg (n : nat) (t : Z) :
  (0 < n)%nat -> (Z.of_nat n | t)%Z -> (- 2 * Z.of_nat n < t < Z.of_nat n)%Z ->
  t = 0%Z \/ t = (- Z.of_nat n)%Z.
Proof.
  intros Hn [q Hq] Ht.
  assert (q = 0 \/ q = -1)%Z as [-> | ->] by nia; lia.
Qed.

Lemma wrap_sub n m j :
  (m < n)%nat -> (j < n)%nat ->
  ((m + n - j) mod n = if (j <=? m)%nat then m - j else m + n - j)%nat.
Proof.
  intros Hm Hj. destruct (j <=? m)%nat eqn:E.
  - apply Nat.leb_le in E.
    replace (m + n - j)%nat with ((m - j) + 1 * n)%nat by lia.
    rewrite Nat.Div0.mod_add. apply Nat.mod_small. lia.
  - apply Nat.leb_gt in E. apply Nat.mod_small. lia.
Qed.

Lemma conv_index n j l m :
  (j < n)%nat -> (l < n)%nat -> (m < n)%nat ->
  (Z.of_nat n | Z.of_nat j + Z.of_nat l - Z.of_nat m)%Z <-> l = ((m + n - j) mod n)%nat.
Proof.
  intros Hj Hl Hm. rewrite wrap_sub by assumption. split.
  - intros D. apply divides_window in D; [|lia|lia].
    destruct (j <=? m)%nat eqn:E; [apply Nat.leb_le in E | apply Nat.leb_gt in E]; lia.
  - intros ->. destruct (j <=? m)%nat eqn:E; [apply Nat.leb_le in E | apply Nat.leb_gt in E].
    + exists 0%Z. lia.
    + exists 1%Z. lia.
Qed.

Lemma corr_index n j l m :
  (j < n)%nat -> (l < n)%nat -> (m < n)%nat ->
  (Z.of_nat n | Z.of_nat j - Z.of_nat l - Z.of_nat m)%Z <-> l = ((j + n - m) mod n)%nat.
Proof.
  intros Hj Hl Hm. rewrite wrap_sub by assumption. split.
  - intros D. apply divides_window_neg in D; [|lia|lia].
    destruct (m <=? j)%nat eqn:E; [apply Nat.leb_le in E | apply Nat.leb_gt in E]; lia.
  - intros ->. destruct (m <=? j)%nat eqn:E; [apply Nat.leb_le in E | apply Nat.leb_gt in E].
    + exists 0%Z. lia.
    + exists (-1)%Z. lia.
Qed.

Lemma kernel_pick n (tau : nat -> Z) (f : nat -> R) l0 :
  (0 < n)%nat -> (l0 < n)%nat ->
  (forall l, (l < n)%nat -> (Z.of_nat n | tau l)%Z <-> l = l0) ->
  rsum n (fun l => f l * kernel n (tau l)) = f l0 * INR n.
Proof.
  intros Hn Hl0 Hp.
  rewrite (rsum_single n _ l0 Hl0).
  - rewrite kernel_div; [reflexivity | exact Hn | apply Hp; [exact Hl0 | reflexivity]].
  - intros l Hl Hne. rewrite kernel_ndiv; [ring | exact Hn |].
    intros D. apply Hne. apply Hp; assumption.
Qed.

Theorem irfft_rfft_convolution a b X Y :
  length a = length b -> rfft a = Ok X -> rfft b = Ok Y ->
  irfft (Cmul_arrays X Y) (length a) = Ok (conv_sum a b).
Proof.
  intros HL HX HY.
  assert (Hn : (0 < length a)%nat) by (apply (rfft_inv a X HX)).
  rewrite (irfft_wave _ _ _ _ Hn (conv_spectrum a b X Y HL Hn HX HY)).
  unfold conv_sum. cbv zeta. apply (f_equal Ok). apply map_ext_in. intros m Hm. apply in_seq in Hm.
  unfold rsum2.
  rewrite (rsum_ext _ _ (fun j => nth j a 0 * nth ((m + length a - j) mod length a) b 0 * INR (length a))).
  - rewrite rsum_scal_r. field. apply not_0_INR. lia.
  - intros j Hj.
    rewrite (kernel_pick (length a) (fun l => (Z.of_nat j + Z.of_nat l - Z.of_nat m)%Z)
               (fun l => nth j a 0 * nth l b 0) ((m + length a - j) mod length a)).
    + reflexivity.
    + exact Hn.
    + apply Nat.mod_upper_bound. lia.
    + intros l Hl. apply conv_index; lia.
Qed.

Theorem irfft_rfft_correlation c a X Y :
  length c = length a -> rfft c = Ok X -> rfft a = Ok Y ->
  irfft (Cmul_arrays X (map Cconj Y)) (length c) = Ok (corr_sum c a).
Proof.
  intros HL HX HY.
  assert (Hn : (0 < length c)%nat) by (apply (rfft_inv c X HX)).
  rewrite (irfft_wave _ _ _ _ Hn (corr_spectrum c a X Y HL Hn HX HY)).
  unfold corr_sum. cbv zeta. apply (f_equal Ok). apply map_ext_in. intros m Hm. apply in_seq in Hm.
  unfold rsum2.
  rewrite (rsum_ext _ _ (fun j => nth j c 0 * nth ((j + length c - m) mod length c) a 0 * INR (length c))).
  - rewrite rsum_scal_r. field. apply not_0_INR. lia.
  - intros j Hj.
    rewrite (kernel_pick (length c) (fun l => (Z.of_nat j - Z.of_nat l - Z.of_nat m)%Z)
               (fun l => nth j c 0 * nth l a 0) ((j + length c - m) mod length c)).
    + reflexivity.
    + exact Hn.
    + apply Nat.mod_upper_bound. lia.
    + intros l Hl. apply corr_index; lia.
Qed.

Theorem fft_convolve_sum a b :
  length a = length b -> (0 < length a)%nat ->
  fft_convolve a b = Ok (conv_sum a b).
Proof.
  intros HL Hn. unfold fft_convolve.
  rewrite (rfft_ok a Hn). rewrite (rfft_ok b) by lia. cbn [bind_result].
  apply irfft_rfft_convolution; [exact HL | apply rfft_ok; exact Hn | apply rfft_ok; lia].
Qed.

Theorem fft_correlate_sum c a :
  length c = length a -> (0 < length c)%nat ->
  fft_correlate c a = Ok (corr_sum c a).
Proof.
  intros HL Hn. unfold fft_correlate.
  rewrite (rfft_ok c Hn). rewrite (rfft_ok a) by lia. cbn [bind_result].
  apply irfft_rfft_correlation; [exact HL | apply rfft_ok; exact Hn | apply rfft_ok; lia].
Qed.

Theorem circular_convolution_sum a b :
  length a = length b -> (0 < length a)%nat ->
  circular_convolution a b = Ok (normalize (conv_sum a b)).
Proof.
  intros HL Hn. unfold circular_convolution.
  rewrite HL, Nat.eqb_refl. cbn [negb].
  rewrite (fft_convolve_sum a b HL Hn). reflexivity.
Qed.

Theorem circular_correlation_sum c a :
  length c = length a -> (0 < length c)%nat ->
  circular_correlation c a = Ok (normalize (corr_sum c a)).
Proof.
  intros HL Hn. unfold circular_correlation.
  rewrite HL, Nat.eqb_refl. cbn [negb].
  rewrite (fft_correlate_sum c a HL Hn). reflexivity.
Qed.

(** ** Vectors of reals *)

Lemma Rgtb_true x y : Rgtb x y = true <-> y < x.
Proof. unfold Rgtb. destruct (Rlt_dec y x); split; intros; try discriminate; auto; contradiction. Qed.

Lemma Rgtb_false x y : Rgtb x y = false <-> x <= y.
Proof.
  unfold Rgtb. destruct (Rlt_dec y x); split; intros; try discriminate; auto; lra.
Qed.

Lemma Rltb_true x y : Rltb x y = true <-> x < y.
Proof. unfold Rltb. destruct (Rlt_dec x y); split; intros; try discriminate; auto; contradiction. Qed.

Lemma Rltb_false x y : Rltb x y = false <-> y <= x.
Proof.
  unfold Rltb. destruct (Rlt_dec x y); split; intros; try discriminate; auto; lra.
Qed.

Lemma Rleb_true x y : Rleb x y = true <-> x <= y.
Proof. unfold Rleb. destruct (Rle_dec x y); split; intros; try discriminate; auto; contradiction. Qed.

Lemma Rleb_false x y : Rleb x y = false <-> y < x.
Proof.
  unfold Rleb. destruct (Rle_dec x y); split; intros; try discriminate; auto; lra.
Qed.

Lemma sfloor_pos : 0 < sfloor.
Proof.
  cbn. lra.
Qed.

Lemma sfloor_lt_1 : sfloor < 1.
Proof. cbn. lra. Qed.

Lemma rsum_shift n f : rsum (S n) f = f O + rsum n (fun i => f (S i)).
Proof.
  induction n as [|n IH]; [simpl; lra|].
  change (rsum (S (S n)) f) with (rsum (S n) f + f (S n)).
  rewrite IH. simpl. lra.
Qed.

Lemma dot_rsum (a b : vec R) :
  length a = length b ->
  dot a b = rsum (length a) (fun i => nth i a 0 * nth i b 0).
Proof.
  revert b. induction a as [|x a IH]; intros [|y b] HL; try discriminate; [reflexivity|].
  cbn [length]. rewrite rsum_shift. cbn [dot nth]. rewrite IH by (injection HL; auto).
  reflexivity.
Qed.

Lemma dot_comm (a b : vec R) : dot a b = dot b a.
Proof.
  revert b. induction a as [|x a IH]; intros [|y b]; cbn; try reflexivity.
  rewrite IH. ring.
Qed.

Lemma dot_vdiv_l (a b : vec R) c : dot (vdiv a c) b = dot a b / c.
Proof.
  revert b. induction a as [|x a IH]; intros [|y b]; cbn; try (unfold Rdiv; ring).
  unfold vdiv in IH. rewrite IH. unfold Rdiv. ring.
Qed.

Lemma dot_vdiv_r (a b : vec R) c : dot a (vdiv b c) = dot a b / c.
Proof. rewrite dot_comm, dot_vdiv_l, dot_comm. reflexivity. Qed.

Lemma dot_self_nonneg (v : vec R) : 0 <= dot v v.
Proof.
  induction v as [|x v IH]; cbn; [lra|]. nra.
Qed.

Lemma vnorm_nonneg (v : vec R) : 0 <= vnorm v.
Proof. apply sqrt_pos. Qed.

Lemma vnorm_sqr (v : vec R) : vnorm v * vnorm v = dot v v.
Proof. apply sqrt_sqrt, dot_self_nonneg. Qed.

Lemma vnorm_vdiv (v : vec R) c : 0 < c -> vnorm (vdiv v c) = vnorm v / c.
Proof.
  intros Hc. unfold vnorm. rewrite dot_vdiv_l, dot_vdiv_r.
  replace (dot v v / c / c) with (dot v v / (c * c)) by (field; lra).
  rewrite sqrt_div_alt by nra. rewrite sqrt_square by lra. reflexivity.
Qed.

Lemma vnorm_vdiv_self (v : vec R) : 0 < vnorm v -> vnorm (vdiv v (vnorm v)) = 1.
Proof. intros Hv. rewrite vnorm_vdiv by exact Hv. field. lra. Qed.

Lemma normalize_above (v : vec R) :
  sfloor < vnorm v -> normalize v = vdiv v (vnorm v).
Proof.
  intros Hv. unfold normalize. cbn [sgtb R_scalar].
  destruct (Rgtb (vnorm v) sfloor) eqn:E; [reflexivity|].
  apply Rgtb_false in E. lra.
Qed.

Lemma normalize_below (v : vec R) : vnorm v <= sfloor -> normalize v = v.
Proof.
  intros Hv. unfold normalize. cbn [sgtb R_scalar].
  destruct (Rgtb (vnorm v) sfloor) eqn:E; [|reflexivity].
  apply Rgtb_true in E. lra.
Qed.

Lemma normalize_unit (v : vec R) : sfloor < vnorm v -> vnorm (normalize v) = 1.
Proof.
  intros Hv. rewrite normalize_above by exact Hv.
  apply vnorm_vdiv_self. pose proof sfloor_pos. lra.
Qed.

Lemma unit_norm_of_eq (v : vec R) : vnorm v = 1 -> unit_norm v.
Proof. intros E. unfold unit_norm. rewrite E, Rminus_diag, Rabs_R0. lra. Qed.

Lemma vdiv_one (v : vec R) : vdiv v 1 = v.
Proof.
  unfold vdiv. rewrite <- (map_id v) at 2. apply map_ext. intros x.
  cbn. unfold Rdiv. rewrite Rinv_1. ring.
Qed.

Lemma normalize_of_unit (v : vec R) : vnorm v = 1 -> normalize v = v.
Proof.
  intros E. rewrite normalize_above.
  - rewrite E. apply vdiv_one.
  - rewrite E. apply sfloor_lt_1.
Qed.

Lemma length_vdiv (v : vec R) c : length (vdiv v c) = length v.
Proof. apply length_map. Qed.

Lemma length_normalize (v : vec R) : length (normalize v) = length v.
Proof. unfold normalize. destruct (sgtb _ _); [apply length_vdiv | reflexivity]. Qed.

Local Close Scope R_scope.

(** ** The settling loop *)

Section Loop.
Context {A : Type} `{Scalar A}.
Variable self : CleanupMemory A.
Variable noisy_vector : vec A.

Local Abbreviation step := (settle_step self noisy_vector).
Local Abbreviation iter := (settle_iter self noisy_vector).
Local Abbreviation states := (settle_states self noisy_vector).
Local Abbreviation converged := (converged_at self noisy_vector).

Lemma settle_iter_snoc k x :
  iter (S k) x = step (iter k x).
Proof.
  revert x. induction k as [|k IH]; intros x; [reflexivity|].
  change (iter (S (S k)) x) with (iter (S k) (step x)).
  rewrite IH. reflexivity.
Qed.

Lemma length_settle_states k x : length (states k x) = k.
Proof. revert x. induction k as [|k IH]; intros x; cbn; [reflexivity | rewrite IH; reflexivity]. Qed.

Lemma settle_states_snoc k x :
  states (S k) x = states k x ++ [iter (S k) x].
Proof.
  revert x. induction k as [|k IH]; intros x; [reflexivity|].
  change (states (S (S k)) x)
    with (step x :: states (S k) (step x)).
  rewrite IH. reflexivity.
Qed.

Lemma nth_settle_states k x j :
  (j < k)%nat -> nth j (states k x) [] = iter (S j) x.
Proof.
  revert x j. induction k as [|k IH]; intros x j Hj; [lia|].
  destruct j as [|j]; [reflexivity|]. cbn [states nth]. rewrite IH by lia. reflexivity.
Qed.

(** The trajectory [x :: states k x] ends with [iter k x]. *)
Lemma trajectory_end k x :
  exists front, x :: states k x = front ++ [iter k x].
Proof.
  destruct k as [|k].
  - exists []. reflexivity.
  - exists (x :: states k x). rewrite settle_states_snoc. reflexivity.
Qed.

Lemma nth_trajectory k x j :
  (j <= k)%nat -> nth j (x :: states k x) [] = iter j x.
Proof.
  intros Hj. destruct j as [|j]; [reflexivity|].
  cbn [nth]. apply nth_settle_states. lia.
Qed.

(** What the loop does: it runs until the first pass that passes the
    convergence test, or for all its iterations. *)
Lemma settle_spec (rt : bool) todo iteration x trajectory :
  match settle self noisy_vector rt todo iteration x trajectory with
  | Converged x_new trajectory' iteration' =>
      exists m, (m < todo)%nat /\ iteration' = (iteration + Z.of_nat m)%Z /\
        x_new = iter (S m) x /\ converged m x = true /\
        trajectory' = (if rt then trajectory ++ states (S m) x else trajectory)
  | Exhausted x' trajectory' =>
      x' = iter todo x /\
      (forall m, (m < todo)%nat -> converged m x = false) /\
      trajectory' = (if rt then trajectory ++ states todo x else trajectory)
  end.
Proof.
  revert iteration x trajectory.
  induction todo as [|todo IH]; intros iteration x trajectory.
  - cbn [settle]. split; [reflexivity|]. split; [intros m Hm; lia|].
    destruct rt; [rewrite app_nil_r|]; reflexivity.
  - cbn [settle].
    destruct (sltb (vnorm (vsub (step x) x)) (threshold self)) eqn:C.
    + exists O. split; [lia|]. split; [lia|]. split; [reflexivity|]. split; [exact C|].
      destruct rt; reflexivity.
    + specialize (IH (iteration + 1)%Z (step x)
                     (if rt then trajectory ++ [step x] else trajectory)).
      destruct (settle self noisy_vector rt todo (iteration + 1)%Z
                  (step x)
                  (if rt then trajectory ++ [step x] else trajectory))
        as [x_new trajectory' iteration' | x' trajectory'].
      * destruct IH as [m [Hm [Hi [Hx [Hc Ht]]]]].
        exists (S m). split; [lia|]. split; [lia|]. split; [exact Hx|]. split; [exact Hc|].
        destruct rt; [|exact Ht]. rewrite Ht, <- app_assoc. reflexivity.
      * destruct IH as [Hx [Hc Ht]]. split; [exact Hx|]. split.
        -- intros [|m] Hm; [exact C | apply Hc; lia].
        -- destruct rt; [|exact Ht]. rewrite Ht, <- app_assoc. reflexivity.
Qed.

(** [cleanup] never raises on a vector of the right length. *)
Lemma cleanup_succeeds (rt : bool) (max_iterations : Z) :
  length noisy_vector = cm_dim self ->
  succeeds (cleanup self noisy_vector rt max_iterations).
Proof.
  intros HL. unfold cleanup. rewrite HL, Nat.eqb_refl. cbn [negb].
  destruct (settle _ _ _ _ _ _ _); destruct rt; eexists; reflexivity.
Qed.

(** The two ways [cleanup] returns: from inside the loop at the first pass
    whose change is below the threshold, or after the last pass. *)
Lemma cleanup_cases (rt : bool) (max_iterations : Z) :
  length noisy_vector = cm_dim self ->
  (exists m, (m < Z.to_nat max_iterations)%nat /\
     converged m noisy_vector = true /\
     cleanup self noisy_vector rt max_iterations =
       Ok (if rt
           then WithTrajectory (iter (S m) noisy_vector)
                  (noisy_vector :: states (S m) noisy_vector) (Z.of_nat m + 1)
           else Vector (iter (S m) noisy_vector)))
  \/
  ((forall m, (m < Z.to_nat max_iterations)%nat -> converged m noisy_vector = false) /\
   cleanup self noisy_vector rt max_iterations =
     Ok (if rt
         then WithTrajectory (iter (Z.to_nat max_iterations) noisy_vector)
                (noisy_vector :: states (Z.to_nat max_iterations) noisy_vector)
                max_iterations
         else Vector (iter (Z.to_nat max_iterations) noisy_vector))).
Proof.
  intros HL. unfold cleanup. rewrite HL, Nat.eqb_refl. cbn [negb].
  pose proof (settle_spec rt (Z.to_nat max_iterations) 0%Z noisy_vector
                (if rt then [noisy_vector] else [])) as S.
  destruct (settle self noisy_vector rt (Z.to_nat max_iterations) 0 noisy_vector
              (if rt then [noisy_vector] else []))
    as [x_new trajectory' iteration' | x' trajectory'].
  - destruct S as [m [Hm [Hi [Hx [Hc Ht]]]]]. left. exists m.
    split; [exact Hm|]. split; [exact Hc|]. subst x_new iteration' trajectory'.
    destruct rt; reflexivity.
  - destruct S as [Hx [Hc Ht]]. right. split; [exact Hc|]. subst x' trajectory'.
    destruct rt; reflexivity.
Qed.

Lemma cleanup_length (rt : bool) (max_iterations : Z) r :
  cleanup self noisy_vector rt max_iterations = Ok r ->
  length noisy_vector = cm_dim self.
Proof.
  unfold cleanup. destruct (length noisy_vector =? cm_dim self) eqn:E.
  - intros _. apply Nat.eqb_eq. exact E.
  - discriminate.
Qed.
End Loop.

Local Open Scope R_scope.

(** ** The examples are what the constructors build *)

Lemma tanh_0 : tanh 0 = 0.
Proof. unfold tanh. rewrite sinh_0. unfold Rdiv. ring. Qed.

Lemma vnorm_1_0 : vnorm [1; 0] = 1.
Proof.
  unfold vnorm. cbn [dot sadd smul s0 R_scalar ssqrt].
  replace (1 * 1 + (0 * 0 + 0)) with 1 by ring. apply sqrt_1.
Qed.

Lemma vnorm_0_1 : vnorm [0; 1] = 1.
Proof.
  unfold vnorm. cbn [dot sadd smul s0 R_scalar ssqrt].
  replace (0 * 0 + (1 * 1 + 0)) with 1 by ring. apply sqrt_1.
Qed.

Lemma voc_A_built :
  (do voc <- SemanticVocabulary_init 2; add voc "A" (Some [1; 0]) []) = Ok (voc_A, [1; 0]).
Proof.
  cbn [SemanticVocabulary_init Nat.ltb Nat.leb bind_result].
  unfold add. cbn [dict_mem dict_get vectors vocab_dim length Nat.eqb negb bind_result].
  rewrite (normalize_of_unit _ vnorm_1_0). reflexivity.
Qed.

Lemma voc_AB_built : add voc_A "B" (Some [0; 1]) [] = Ok (voc_AB, [0; 1]).
Proof.
  unfold add. cbn [dict_mem dict_get vectors voc_A vocab_dim length Nat.eqb negb bind_result].
  cbn [String.eqb Ascii.eqb Bool.eqb].
  rewrite (normalize_of_unit _ vnorm_0_1). reflexivity.
Qed.

Lemma mem_A_built : CleanupMemory_init voc_A (1 / 1000) = Ok mem_A.
Proof.
  unfold CleanupMemory_init. cbn [vectors voc_A length Nat.eqb sleb s0 R_scalar].
  assert (E : Rleb (1 / 1000) 0 = false) by (apply Rleb_false; lra).
  rewrite E. reflexivity.
Qed.

Lemma mem_A_matvec (x : vec R) : vtanh (matvec (weights mem_A) x) = [0; 0].
Proof.
  cbn [weights mem_A _compute_hopfield_weights voc_A vectors vocab_dim fold_left snd
       mzeros zeros repeat outer map madd vadd fill_diagonal fill_diagonal_from set_nth
       matvec vtanh].
  destruct x as [|a [|b x]]; cbn [dot sadd smul s0 R_scalar stanh].
  - rewrite tanh_0. reflexivity.
  - rewrite !Rmult_0_l, !Rplus_0_l. rewrite ?Rmult_1_l, ?Rmult_0_l, ?Rmult_0_r, ?Rplus_0_l.
    rewrite ?tanh_0. reflexivity.
  - rewrite ?Rmult_1_l, ?Rmult_0_l, ?Rmult_0_r, ?Rplus_0_l, ?Rplus_0_r, ?Rmult_0_l.
    rewrite ?tanh_0. reflexivity.
Qed.

Lemma mem_A_step (noisy x : vec R) :
  settle_step mem_A noisy x = vdiv noisy (vnorm noisy).
Proof.
  unfold settle_step. rewrite mem_A_matvec.
  assert (E : sgtb (vnorm [0; 0]) sfloor = false).
  { apply Rgtb_false. unfold vnorm. cbn [dot sadd smul s0 R_scalar ssqrt].
    replace (0 * 0 + (0 * 0 + 0)) with 0 by ring. rewrite sqrt_0.
    pose proof sfloor_pos. cbn [sfloor R_scalar] in *. lra. }
  rewrite E. reflexivity.
Qed.

Lemma vsub_self (v : vec R) : dot (vsub v v) (vsub v v) = 0.
Proof.
  induction v as [|x v IH]; [reflexivity|].
  cbn [vsub dot sadd smul ssub R_scalar]. cbn [sadd smul ssub R_scalar] in IH.
  rewrite IH. ring.
Qed.

(** Cleaning [[1, 0]] in [mem_A]: the first pass falls back to the input and
    the loop stops there. *)
Lemma mem_A_cleanup :
  cleanup mem_A [1; 0] true 1 = Ok (WithTrajectory [1; 0] [[1; 0]; [1; 0]] 1).
Proof.
  unfold cleanup. change (Z.to_nat 1) with 1%nat.
  change (negb (length [1; 0] =? cm_dim mem_A)%nat) with false.
  cbn [settle].
  rewrite !mem_A_step, !vnorm_1_0, !vdiv_one.
  assert (E : sltb (vnorm (vsub [1; 0] [1; 0])) (1 / 1000) = true).
  { apply Rltb_true. unfold vnorm. rewrite vsub_self. cbn [ssqrt R_scalar].
    rewrite sqrt_0. lra. }
  change (threshold mem_A) with (1 / 1000). rewrite E. reflexivity.
Qed.

(** ** Claims on the settling loop *)

(** C4: for every cleanup memory, every input of the memory's dimension and
    every [max_iterations >= 0], [cleanup] with the trajectory requested
    returns a count [n <= max_iterations] and a trajectory of [n + 1]
    vectors that starts with the input; when [n < max_iterations], the
    change between the last two vectors of the trajectory passes the test
    [change < threshold]. *)
Theorem cleanup_trajectory_report {A : Type} `{Scalar A}
    (self : CleanupMemory A) (noisy_vector : vec A) (max_iterations : Z) :
  length noisy_vector = cm_dim self -> (0 <= max_iterations)%Z ->
  exists x trajectory n,
    cleanup self noisy_vector true max_iterations = Ok (WithTrajectory x trajectory n) /\
    (0 <= n <= max_iterations)%Z /\
    Z.of_nat (length trajectory) = (n + 1)%Z /\
    hd_error trajectory = Some noisy_vector /\
    ((n < max_iterations)%Z ->
       exists front previous,
         trajectory = front ++ [previous; x] /\
         sltb (vnorm (vsub x previous)) (threshold self) = true).
Proof.
  intros HL HK.
  destruct (cleanup_cases self noisy_vector true max_iterations HL)
    as [[m [Hm [Hc E]]] | [Hc E]].
  - eexists _, _, _. split; [exact E|]. split; [lia|]. split.
    + cbn [length]. rewrite length_settle_states. lia.
    + split; [reflexivity|]. intros _.
      destruct (trajectory_end self noisy_vector m noisy_vector) as [front Hf].
      exists front, (settle_iter self noisy_vector m noisy_vector). split.
      * rewrite settle_states_snoc, app_comm_cons, Hf, <- app_assoc. reflexivity.
      * exact Hc.
  - eexists _, _, _. split; [exact E|]. split; [lia|]. split.
    + cbn [length]. rewrite length_settle_states. lia.
    + split; [reflexivity|]. intros Hn. lia.
Qed.

Lemma cleanup_trajectory_report_witness :
  exists x trajectory n,
    cleanup mem_A [1; 0] true 100 = Ok (WithTrajectory x trajectory n) /\
    (0 <= n <= 100)%Z /\
    Z.of_nat (length trajectory) = (n + 1)%Z /\
    hd_error trajectory = Some [1; 0] /\
    ((n < 100)%Z ->
       exists front previous,
         trajectory = front ++ [previous; x] /\
         sltb (vnorm (vsub x previous)) (threshold mem_A) = true).
Proof.
  apply (cleanup_trajectory_report mem_A [1; 0] 100); [reflexivity | lia].
Defined.

Lemma dot_zeros (n : nat) : dot (zeros n) (zeros n) = 0.
Proof.
  unfold zeros. induction n as [|n IH]; [reflexivity|].
  cbn [repeat dot]. rewrite IH. cbn [sadd smul s0 R_scalar]. ring.
Qed.

Lemma vnorm_zeros (n : nat) : vnorm (zeros n) = 0.
Proof. unfold vnorm. rewrite dot_zeros. apply sqrt_0. Qed.

Lemma vnorm_0_0 : vnorm [0; 0] = 0.
Proof. exact (vnorm_zeros 2). Qed.

Lemma settle_step_degenerate (self : CleanupMemory R) (noisy_vector x : vec R) :
  vnorm (vtanh (matvec (weights self) x)) <= sfloor ->
  settle_step self noisy_vector x = vdiv noisy_vector (vnorm noisy_vector).
Proof.
  intros Hn. unfold settle_step.
  assert (E : sgtb (vnorm (vtanh (matvec (weights self) x))) sfloor = false)
    by (apply Rgtb_false; exact Hn).
  rewrite E. reflexivity.
Qed.

Lemma settle_step_regular (self : CleanupMemory R) (noisy_vector x : vec R) :
  sfloor < vnorm (vtanh (matvec (weights self) x)) ->
  settle_step self noisy_vector x
  = vdiv (vtanh (matvec (weights self) x)) (vnorm (vtanh (matvec (weights self) x))).
Proof.
  intros Hn. unfold settle_step.
  assert (E : sgtb (vnorm (vtanh (matvec (weights self) x))) sfloor = true)
    by (apply Rgtb_true; exact Hn).
  rewrite E. reflexivity.
Qed.

(** The trajectory [cleanup] returns lists the states of the loop. *)
Lemma cleanup_trajectory_states {A : Type} `{Scalar A}
    (self : CleanupMemory A) (noisy_vector : vec A) (max_iterations : Z) x trajectory n :
  cleanup self noisy_vector true max_iterations = Ok (WithTrajectory x trajectory n) ->
  exists k, trajectory = noisy_vector :: settle_states self noisy_vector k noisy_vector.
Proof.
  intros E. pose proof (cleanup_length _ _ _ _ _ E) as HL.
  assert (T : forall (a a' : vec A) b b' c c',
             Ok (WithTrajectory a b c) = Ok (WithTrajectory a' b' c') -> b' = b)
    by (intros; congruence).
  destruct (cleanup_cases self noisy_vector true max_iterations HL)
    as [[m [_ [_ E']]] | [_ E']]; rewrite E' in E; apply T in E.
  - exists (S m). exact E.
  - exists (Z.to_nat max_iterations). exact E.
Qed.


Module IEEEReset.
Import Floats IEEE.



End IEEEReset.

(** ** The nearest match *)

Lemma cosine_similarity_ok (a b : vec R) :
  length a = length b -> cosine_similarity a b = Ok (dot a b).
Proof. intros HL. unfold cosine_similarity. rewrite HL, Nat.eqb_refl. reflexivity. Qed.

(** The scan keeps the best so far unless a later entry is strictly more
    similar: it returns either what it started with, nothing in the entries
    being more similar, or the first entry of greatest similarity. *)
Lemma nearest_scan_spec (vector : vec R) (entries : dict (vec R))
    (best_name : option string) (best_similarity : R) :
  Forall (fun entry => length (snd entry) = length vector) entries ->
  (nearest_scan vector entries best_name best_similarity = Ok (best_name, best_similarity)
   /\ forall entry, In entry entries -> dot vector (snd entry) <= best_similarity)
  \/
  (exists before name v after,
     entries = before ++ (name, v) :: after /\
     nearest_scan vector entries best_name best_similarity = Ok (Some name, dot vector v) /\
     best_similarity < dot vector v /\
     (forall entry, In entry before -> dot vector (snd entry) < dot vector v) /\
     (forall entry, In entry after -> dot vector (snd entry) <= dot vector v)).
Proof.
  intros Hwf. revert best_name best_similarity.
  induction Hwf as [|[name v] entries Hv Hwf IH]; intros best_name best_similarity.
  - left. split; [reflexivity|]. intros entry [].
  - cbn [snd] in Hv. cbn [nearest_scan].
    rewrite cosine_similarity_ok by (symmetry; exact Hv). cbn [bind_result sgtb R_scalar].
    destruct (Rgtb (dot vector v) best_similarity) eqn:G.
    + apply Rgtb_true in G.
      destruct (IH (Some name) (dot vector v)) as [[E Hle] | [before [name' [v' [after [-> [E [Hlt [Hb Ha]]]]]]]]].
      * right. exists [], name, v, entries.
        split; [reflexivity|]. split; [exact E|]. split; [exact G|].
        split; [intros entry []|exact Hle].
      * right. exists ((name, v) :: before), name', v', after.
        split; [reflexivity|]. split; [exact E|]. split; [lra|].
        split; [|exact Ha].
        intros entry [<- | Hin]; [exact Hlt | apply Hb; exact Hin].
    + apply Rgtb_false in G.
      destruct (IH best_name best_similarity) as [[E Hle] | [before [name' [v' [after [-> [E [Hlt [Hb Ha]]]]]]]]].
      * left. split; [exact E|].
        intros entry [<- | Hin]; [exact G | apply Hle; exact Hin].
      * right. exists ((name, v) :: before), name', v', after.
        split; [reflexivity|]. split; [exact E|]. split; [exact Hlt|].
        split; [|exact Ha].
        intros entry [<- | Hin]; [cbn [snd]; lra | apply Hb; exact Hin].
Qed.

(** What [find_nearest_match] returns on a well-formed memory: when some
    entry is more similar than -1, the first entry of greatest similarity,
    with its similarity; otherwise no name at all. *)
Theorem find_nearest_match_spec (self : CleanupMemory R) (vector : vec R) :
  cm_wf self -> length vector = cm_dim self ->
  (find_nearest_match self vector = Ok (None, -1)
   /\ forall entry, In entry (vectors (vocab self)) -> dot vector (snd entry) <= -1)
  \/
  (exists before name v after,
     vectors (vocab self) = before ++ (name, v) :: after /\
     find_nearest_match self vector = Ok (Some name, dot vector v) /\
     -1 < dot vector v /\
     (forall entry, In entry before -> dot vector (snd entry) < dot vector v) /\
     (forall entry, In entry after -> dot vector (snd entry) <= dot vector v)).
Proof.
  intros [Hd [_ Hwf]] HL. unfold find_nearest_match.
  rewrite HL, Nat.eqb_refl. cbn [negb sopp s1 R_scalar].
  replace (- (1)) with (-1) by lra.
  apply nearest_scan_spec.
  rewrite HL, Hd. exact Hwf.
Qed.

Lemma mem_A_wf : cm_wf mem_A.
Proof.
  split; [reflexivity|]. split; [cbn; lia|].
  repeat constructor.
Qed.

Lemma find_nearest_match_spec_witness :
  (find_nearest_match mem_A [1; 0] = Ok (None, -1)
   /\ forall entry, In entry (vectors (vocab mem_A)) -> dot [1; 0] (snd entry) <= -1)
  \/
  (exists before name v after,
     vectors (vocab mem_A) = before ++ (name, v) :: after /\
     find_nearest_match mem_A [1; 0] = Ok (Some name, dot [1; 0] v) /\
     -1 < dot [1; 0] v /\
     (forall entry, In entry before -> dot [1; 0] (snd entry) < dot [1; 0] v) /\
     (forall entry, In entry after -> dot [1; 0] (snd entry) <= dot [1; 0] v)).
Proof.
  apply (find_nearest_match_spec mem_A [1; 0]); [exact mem_A_wf | reflexivity].
Defined.

(** C5 (the code departs from it): for the memory of the vocabulary
    [{"A": [1, 0]}] and the unit vector [[-1, 0]], whose similarity to the
    only entry is exactly -1, the comparison [similarity > best_similarity]
    against the initial [-1.0] never succeeds and [find_nearest_match]
    returns [(None, -1.0)]: no entry of the vocabulary. *)
Theorem find_nearest_match_none :
  cm_wf mem_A /\ length [-1; 0] = cm_dim mem_A /\ vnorm [-1; 0] = 1
  /\ find_nearest_match mem_A [-1; 0] = Ok (None, -1).
Proof.
  split; [exact mem_A_wf|]. split; [reflexivity|]. split.
  - unfold vnorm. cbn [dot sadd smul s0 R_scalar ssqrt].
    replace (-1 * -1 + (0 * 0 + 0)) with 1 by ring. apply sqrt_1.
  - destruct (find_nearest_match_spec mem_A [-1; 0] mem_A_wf eq_refl)
      as [[E _] | [before [name [v [after [Hv [_ [Hlt _]]]]]]]]; [exact E|].
    exfalso.
    assert (Hin : In (name, v) (vectors (vocab mem_A))) by (rewrite Hv; apply in_elt).
    destruct Hin as [Hin | []]. injection Hin as _ <-.
    cbn [dot sadd smul s0 R_scalar] in Hlt. lra.
Qed.

(** ** Dimension checks *)

Lemma eqb_length_false (n m : nat) : negb (n =? m)%nat = true <-> n <> m.
Proof.
  rewrite negb_true_iff. apply Nat.eqb_neq.
Qed.

Lemma guard_mismatch {T : Type} (n m : nat) (k : result T) :
  (forall e, k = Raise e -> e <> ValueError DimensionMismatch) ->
  raises (if negb (n =? m)%nat then Raise (ValueError DimensionMismatch) else k)
         (ValueError DimensionMismatch)
  <-> n <> m.
Proof.
  intros Hk. unfold raises. destruct (n =? m)%nat eqn:E; cbn [negb].
  - apply Nat.eqb_eq in E. split; [|intros N; contradiction].
    intros R0. exfalso. exact (Hk _ R0 eq_refl).
  - apply Nat.eqb_neq in E. split; [intros _; exact E | reflexivity].
Qed.

Lemma rfft_raises (a : vec R) e : rfft a = Raise e -> e = ValueError InvalidFFTPoints.
Proof.
  unfold rfft. destruct (length a =? 0)%nat; [|discriminate]. congruence.
Qed.

Lemma irfft_raises X n e : irfft X n = Raise e -> e = ValueError InvalidFFTPoints.
Proof.
  unfold irfft. destruct (n =? 0)%nat; [|discriminate]. congruence.
Qed.

Lemma fft_convolve_raises (a b : vec R) e :
  fft_convolve a b = Raise e -> e = ValueError InvalidFFTPoints.
Proof.
  unfold fft_convolve.
  destruct (rfft a) as [X|e1] eqn:Ea; cbn [bind_result];
    [|intros E; injection E as <-; exact (rfft_raises _ _ Ea)].
  destruct (rfft b) as [Y|e2] eqn:Eb; cbn [bind_result];
    [|intros E; injection E as <-; exact (rfft_raises _ _ Eb)].
  apply irfft_raises.
Qed.

Lemma fft_correlate_raises (c a : vec R) e :
  fft_correlate c a = Raise e -> e = ValueError InvalidFFTPoints.
Proof.
  unfold fft_correlate.
  destruct (rfft c) as [X|e1] eqn:Ec; cbn [bind_result];
    [|intros E; injection E as <-; exact (rfft_raises _ _ Ec)].
  destruct (rfft a) as [Y|e2] eqn:Ea; cbn [bind_result];
    [|intros E; injection E as <-; exact (rfft_raises _ _ Ea)].
  apply irfft_raises.
Qed.

Lemma circular_convolution_mismatch (a b : vec R) :
  raises (circular_convolution a b) (ValueError DimensionMismatch) <-> length a <> length b.
Proof.
  unfold circular_convolution. apply guard_mismatch. intros e.
  destruct (fft_convolve a b) as [r|e1] eqn:E; cbn [bind_result]; [discriminate|].
  intros E1. injection E1 as <-. rewrite (fft_convolve_raises _ _ _ E). discriminate.
Qed.

Lemma circular_correlation_mismatch (c a : vec R) :
  raises (circular_correlation c a) (ValueError DimensionMismatch) <-> length c <> length a.
Proof.
  unfold circular_correlation. apply guard_mismatch. intros e.
  destruct (fft_correlate c a) as [r|e1] eqn:E; cbn [bind_result]; [discriminate|].
  intros E1. injection E1 as <-. rewrite (fft_correlate_raises _ _ _ E). discriminate.
Qed.

Section Checks.
Context {A : Type} `{Scalar A}.

Lemma superposition_mismatch (first : vec A) (rest : list (vec A)) :
  raises (superposition (first :: rest)) (ValueError DimensionMismatch)
  <-> exists v, In v rest /\ length v <> length first.
Proof.
  unfold raises, superposition.
  destruct (forallb (fun v => length v =? length first) rest) eqn:F.
  - split; [discriminate|]. intros [v [Hin Hne]].
    rewrite forallb_forall in F. apply F in Hin. apply Nat.eqb_eq in Hin. contradiction.
  - split; [|reflexivity]. intros _.
    assert (E : existsb (fun v => negb (length v =? length first)) rest = true).
    { clear -F. induction rest as [|v rest IH]; [discriminate|].
      cbn [forallb existsb] in *. destruct (length v =? length first); cbn [negb andb orb] in *;
        [apply IH; exact F | reflexivity]. }
    apply existsb_exists in E. destruct E as [v [Hin Hne]].
    exists v. split; [exact Hin|]. apply eqb_length_false. exact Hne.
Qed.

Lemma cosine_similarity_mismatch (a b : vec A) :
  raises (cosine_similarity a b) (ValueError DimensionMismatch) <-> length a <> length b.
Proof.
  unfold raises, cosine_similarity. destruct (length a =? length b) eqn:E.
  - apply Nat.eqb_eq in E. split; [discriminate | contradiction].
  - apply Nat.eqb_neq in E. split; [intros _; exact E | reflexivity].
Qed.

Lemma encode_mismatch (self : NeuralEncoder A) (semantic_pointer : vec A) (gain bias : A) :
  raises (encode self semantic_pointer gain bias) (ValueError DimensionMismatch)
  <-> length semantic_pointer <> enc_dim self.
Proof. unfold encode. apply guard_mismatch. intros e. discriminate. Qed.

Lemma decode_mismatch (self : NeuralEncoder A) (firing_rates : vec A) :
  raises (decode self firing_rates) (ValueError DimensionMismatch)
  <-> length firing_rates <> n_neurons self.
Proof. unfold decode. apply guard_mismatch. intros e. discriminate. Qed.

Lemma cleanup_mismatch (self : CleanupMemory A) (noisy_vector : vec A)
    (return_trajectory : bool) (max_iterations : Z) :
  raises (cleanup self noisy_vector return_trajectory max_iterations)
         (ValueError DimensionMismatch)
  <-> length noisy_vector <> cm_dim self.
Proof.
  unfold cleanup. apply guard_mismatch. intros e.
  destruct (settle _ _ _ _ _ _ _); destruct return_trajectory; discriminate.
Qed.

Lemma nearest_scan_succeeds (vector : vec A) (entries : dict (vec A))
    (best_name : option string) (best_similarity : A) :
  Forall (fun entry => length (snd entry) = length vector) entries ->
  succeeds (nearest_scan vector entries best_name best_similarity).
Proof.
  intros Hwf. revert best_name best_similarity.
  induction Hwf as [|[name v] entries Hv Hwf IH]; intros best_name best_similarity.
  - eexists. reflexivity.
  - cbn [snd] in Hv. cbn [nearest_scan]. unfold cosine_similarity.
    rewrite Hv, Nat.eqb_refl. cbn [bind_result].
    destruct (sgtb _ _); apply IH.
Qed.

Lemma find_nearest_match_mismatch (self : CleanupMemory A) (vector : vec A) :
  cm_wf self ->
  raises (find_nearest_match self vector) (ValueError DimensionMismatch)
  <-> length vector <> cm_dim self.
Proof.
  intros [Hd [_ Hwf]]. unfold find_nearest_match, raises.
  destruct (length vector =? cm_dim self) eqn:E; cbn [negb].
  - apply Nat.eqb_eq in E. split; [|contradiction].
    intros R0. exfalso.
    destruct (nearest_scan_succeeds vector (vectors (vocab self)) None (sopp s1)) as [r Hr].
    + rewrite E, Hd. exact Hwf.
    + rewrite Hr in R0. discriminate.
  - apply Nat.eqb_neq in E. split; [intros _; exact E | reflexivity].
Qed.

Lemma generator_init_mismatch (encoder_src encoder_tgt : NeuralEncoder A) :
  raises (SemanticWeightGenerator_init encoder_src encoder_tgt) (ValueError DimensionMismatch)
  <-> enc_dim encoder_src <> enc_dim encoder_tgt.
Proof. unfold SemanticWeightGenerator_init. apply guard_mismatch. intros e. discriminate. Qed.

Lemma binding_weights_mismatch (self : SemanticWeightGenerator A) (v : vec A) :
  raises (binding_weights self v) (ValueError DimensionMismatch)
  <-> length v <> enc_dim (enc_src self).
Proof. unfold binding_weights. apply guard_mismatch. intros e. discriminate. Qed.

Lemma unbinding_weights_mismatch (self : SemanticWeightGenerator A) (v : vec A) :
  raises (unbinding_weights self v) (ValueError DimensionMismatch)
  <-> length v <> enc_dim (enc_src self).
Proof. unfold unbinding_weights. apply guard_mismatch. intros e. discriminate. Qed.

(** C8: each public operation on two or more arrays raises the
    dimension-mismatch error exactly when the lengths disagree with each other
    or with the dimension fixed before: [circular_convolution],
    [circular_correlation], [superposition] and [cosine_similarity] on their
    arguments, [encode] and [decode] against the encoder, [cleanup] and
    [find_nearest_match] against the memory (built on a well-formed
    vocabulary), the constructor of the weight generator on its two encoders
    and [binding_weights] and [unbinding_weights] against the source
    encoder. *)
Theorem dimension_mismatch_rejection :
  (forall a b : vec R,
     raises (circular_convolution a b) (ValueError DimensionMismatch)
     <-> length a <> length b)
  /\ (forall c a : vec R,
        raises (circular_correlation c a) (ValueError DimensionMismatch)
        <-> length c <> length a)
  /\ (forall (first : vec A) (rest : list (vec A)),
        raises (superposition (first :: rest)) (ValueError DimensionMismatch)
        <-> exists v, In v rest /\ length v <> length first)
  /\ (forall a b : vec A,
        raises (cosine_similarity a b) (ValueError DimensionMismatch)
        <-> length a <> length b)
  /\ (forall (enc : NeuralEncoder A) (semantic_pointer : vec A) (gain bias : A),
        raises (encode enc semantic_pointer gain bias) (ValueError DimensionMismatch)
        <-> length semantic_pointer <> enc_dim enc)
  /\ (forall (enc : NeuralEncoder A) (firing_rates : vec A),
        raises (decode enc firing_rates) (ValueError DimensionMismatch)
        <-> length firing_rates <> n_neurons enc)
  /\ (forall (cm : CleanupMemory A) (noisy_vector : vec A) (return_trajectory : bool)
             (max_iterations : Z),
        raises (cleanup cm noisy_vector return_trajectory max_iterations)
               (ValueError DimensionMismatch)
        <-> length noisy_vector <> cm_dim cm)
  /\ (forall (cm : CleanupMemory A) (vector : vec A),
        cm_wf cm ->
        raises (find_nearest_match cm vector) (ValueError DimensionMismatch)
        <-> length vector <> cm_dim cm)
  /\ (forall encoder_src encoder_tgt : NeuralEncoder A,
        raises (SemanticWeightGenerator_init encoder_src encoder_tgt)
               (ValueError DimensionMismatch)
        <-> enc_dim encoder_src <> enc_dim encoder_tgt)
  /\ (forall (gen : SemanticWeightGenerator A) (v : vec A),
        raises (binding_weights gen v) (ValueError DimensionMismatch)
        <-> length v <> enc_dim (enc_src gen))
  /\ (forall (gen : SemanticWeightGenerator A) (v : vec A),
        raises (unbinding_weights gen v) (ValueError DimensionMismatch)
        <-> length v <> enc_dim (enc_src gen)).
Proof.
  split; [exact circular_convolution_mismatch|].
  split; [exact circular_correlation_mismatch|].
  split; [exact superposition_mismatch|].
  split; [exact cosine_similarity_mismatch|].
  split; [exact encode_mismatch|].
  split; [exact decode_mismatch|].
  split; [exact cleanup_mismatch|].
  split; [exact find_nearest_match_mismatch|].
  split; [exact generator_init_mismatch|].
  split; [exact binding_weights_mismatch | exact unbinding_weights_mismatch].
Qed.
End Checks.

(** An instance: in [mem_A], of dimension 2, a vector of length 1 is
    rejected and one of length 2 is not; so are arrays of lengths 2 and 1
    handed to [circular_convolution]. *)
Lemma dimension_mismatch_rejection_witness :
  raises (find_nearest_match mem_A [1]) (ValueError DimensionMismatch)
  /\ ~ raises (find_nearest_match mem_A [1; 0]) (ValueError DimensionMismatch)
  /\ raises (circular_convolution [1; 0] [1]) (ValueError DimensionMismatch).
Proof.
  pose proof (@dimension_mismatch_rejection R R_scalar) as D.
  split; [|split].
  - apply (proj1 (proj2 (proj2 (proj2 (proj2 (proj2 (proj2 (proj2 D))))))) mem_A [1] mem_A_wf).
    cbn. lia.
  - intros R0.
    apply (proj1 (proj2 (proj2 (proj2 (proj2 (proj2 (proj2 (proj2 D))))))) mem_A [1; 0] mem_A_wf)
      in R0.
    apply R0. reflexivity.
  - apply (proj1 D). cbn. lia.
Defined.

(** ** Norms of the results *)

Lemma circular_convolution_unit (a b raw r : vec R) :
  fft_convolve a b = Ok raw -> circular_convolution a b = Ok r ->
  sfloor < vnorm raw -> vnorm r = 1.
Proof.
  intros Eraw. unfold circular_convolution.
  destruct (negb (length a =? length b)%nat); [discriminate|].
  rewrite Eraw. cbn [bind_result]. intros E Hn. injection E as <-.
  apply normalize_unit. exact Hn.
Qed.

Lemma circular_correlation_unit (c a raw r : vec R) :
  fft_correlate c a = Ok raw -> circular_correlation c a = Ok r ->
  sfloor < vnorm raw -> vnorm r = 1.
Proof.
  intros Eraw. unfold circular_correlation.
  destruct (negb (length c =? length a)%nat); [discriminate|].
  rewrite Eraw. cbn [bind_result]. intros E Hn. injection E as <-.
  apply normalize_unit. exact Hn.
Qed.

Lemma superposition_unit (first : vec R) (rest : list (vec R)) (r : vec R) :
  superposition (first :: rest) = Ok r ->
  sfloor < vnorm (vsum first rest) -> vnorm r = 1.
Proof.
  unfold superposition.
  destruct (forallb (fun v => (length v =? length first)%nat) rest); [|discriminate].
  intros E Hn. injection E as <-. apply normalize_unit. exact Hn.
Qed.

Lemma add_unit (self self' : SemanticVocabulary R) (name : string)
    (vector : option (vec R)) (randn r : vec R) :
  add self name vector randn = Ok (self', r) ->
  sfloor < vnorm (match vector with Some v => v | None => randn end) ->
  vnorm r = 1.
Proof.
  unfold add. destruct (dict_mem name (vectors self)); [discriminate|].
  destruct vector as [v|].
  - destruct (negb (length v =? vocab_dim self)%nat); [discriminate|].
    cbn [bind_result]. intros E Hn. injection E as _ <-.
    apply normalize_unit. exact Hn.
  - cbn [bind_result]. intros E Hn. injection E as _ <-.
    apply vnorm_vdiv_self. pose proof sfloor_pos. lra.
Qed.

Lemma decode_unit (self : NeuralEncoder R) (firing_rates r : vec R) :
  decode self firing_rates = Ok r ->
  sfloor < vnorm (matvec (decoders self) firing_rates) -> vnorm r = 1.
Proof.
  unfold decode. destruct (negb (length firing_rates =? n_neurons self)%nat); [discriminate|].
  intros E Hn. injection E as <-. apply normalize_unit. exact Hn.
Qed.

Lemma settle_step_unit (self : CleanupMemory R) (noisy_vector x : vec R) :
  sfloor < vnorm (vtanh (matvec (weights self) x)) \/ 0 < vnorm noisy_vector ->
  vnorm (settle_step self noisy_vector x) = 1.
Proof.
  intros Hn.
  destruct (Rlt_le_dec sfloor (vnorm (vtanh (matvec (weights self) x)))) as [Hab | Hbe].
  - rewrite settle_step_regular by exact Hab.
    apply vnorm_vdiv_self. pose proof sfloor_pos. lra.
  - rewrite settle_step_degenerate by exact Hbe.
    apply vnorm_vdiv_self. destruct Hn as [Hab | Hpos]; [lra | exact Hpos].
Qed.

(** After at least one pass, what [cleanup] returns is the outcome of a pass
    of the loop. *)
Lemma cleanup_result_is_step {A : Type} `{Scalar A}
    (self : CleanupMemory A) (noisy_vector : vec A) (return_trajectory : bool)
    (max_iterations : Z) (c : cleaned A) :
  (1 <= max_iterations)%Z ->
  cleanup self noisy_vector return_trajectory max_iterations = Ok c ->
  exists x, cleaned_vector c = settle_step self noisy_vector x.
Proof.
  intros HK E. pose proof (cleanup_length _ _ _ _ _ E) as HL.
  destruct (cleanup_cases self noisy_vector return_trajectory max_iterations HL)
    as [[m [_ [_ E']]] | [_ E']]; rewrite E' in E; injection E as <-.
  - exists (settle_iter self noisy_vector m noisy_vector).
    rewrite <- settle_iter_snoc. destruct return_trajectory; reflexivity.
  - destruct (Z.to_nat max_iterations) as [|todo] eqn:T; [lia|].
    exists (settle_iter self noisy_vector todo noisy_vector).
    rewrite <- settle_iter_snoc. destruct return_trajectory; reflexivity.
Qed.

(** With no pass at all, [cleanup] returns its input as it is. *)
Lemma cleanup_no_pass {A : Type} `{Scalar A}
    (self : CleanupMemory A) (noisy_vector : vec A) (max_iterations : Z) :
  length noisy_vector = cm_dim self -> (max_iterations <= 0)%Z ->
  cleanup self noisy_vector false max_iterations = Ok (Vector noisy_vector).
Proof.
  intros HL HK. unfold cleanup. rewrite HL, Nat.eqb_refl. cbn [negb].
  replace (Z.to_nat max_iterations) with O by lia. reflexivity.
Qed.

Lemma vnorm_2_0 : vnorm [2; 0] = 2.
Proof.
  unfold vnorm. cbn [dot sadd smul s0 R_scalar ssqrt].
  replace (2 * 2 + (0 * 0 + 0)) with (2 * 2) by ring. apply sqrt_square. lra.
Qed.

Module IEEEUnit.
Import Floats IEEE.

(** C7 (the code departs from it): a vector the operations return need not
    have norm within 0.01 of 1, outside the degenerate cases too.  With
    [max_iterations <= 0] the loop of [cleanup] has no pass and the input
    comes back as it is, in every arithmetic, although the docstring says
    "Cleaned semantic pointer (normalized)": in binary64 [[2, 0]], of norm
    2, is returned with norm 2.  And in binary64 [superposition] of the one
    vector [[2^512, 2^512]] is [[0, 0]], of norm 0: the sum of squares
    overflows, so the norm before normalisation is infinite, above the floor,
    and each entry divided by it is 0. *)
Theorem unit_norm_violated :
  (forall (A : Type) (arithmetic : Scalar A) (self : CleanupMemory A)
          (noisy_vector : vec A) (max_iterations : Z),
     length noisy_vector = cm_dim self -> (max_iterations <= 0)%Z ->
     cleanup self noisy_vector false max_iterations = Ok (Vector noisy_vector))
  /\ (let ieee := float_scalar (fun x => x) in
      @cleanup float ieee float_mem_A [2; 0]%float false 0 = Ok (Vector [2; 0]%float)
      /\ @vnorm float ieee [2; 0]%float = 2%float
      /\ @sgtb float ieee (vnorm [2; 0]%float) sfloor = true
      /\ (abs (@vnorm float ieee [2; 0]%float - 1) <=? 0x1.47ae147ae147bp-7)%float = false)
  /\ (let ieee := float_scalar (fun x => x) in
      let huge := [0x1p512; 0x1p512]%float in
      @superposition float ieee [huge] = Ok [0; 0]%float
      /\ @vnorm float ieee (vsum huge []) = infinity
      /\ @sgtb float ieee (vnorm (vsum huge [])) sfloor = true
      /\ @vnorm float ieee [0; 0]%float = 0%float
      /\ (abs (@vnorm float ieee [0; 0]%float - 1) <=? 0x1.47ae147ae147bp-7)%float = false).
Proof.
  split; [|split].
  - intros A arithmetic self noisy_vector max_iterations HL HK.
    apply cleanup_no_pass; assumption.
  - cbv zeta. split; [apply cleanup_no_pass; [reflexivity | lia]|].
    repeat split; vm_compute; reflexivity.
  - cbv zeta. repeat split; vm_compute; reflexivity.
Qed.

End IEEEUnit.

(** ** Storing into the vocabulary *)

Lemma dict_get_set_same {V : Type} (name : string) (v : V) (d : dict V) :
  dict_get name (dict_set name v d) = Some v.
Proof.
  induction d as [|[k w] d IH]; cbn [dict_set dict_get].
  - rewrite String.eqb_refl. reflexivity.
  - destruct (String.eqb k name) eqn:E; cbn [dict_get]; rewrite E; [reflexivity | exact IH].
Qed.

Lemma dict_get_set_other {V : Type} (name other : string) (v : V) (d : dict V) :
  other <> name -> dict_get other (dict_set name v d) = dict_get other d.
Proof.
  intros Hne. induction d as [|[k w] d IH]; cbn [dict_set dict_get].
  - destruct (String.eqb name other) eqn:E; [|reflexivity].
    apply String.eqb_eq in E. congruence.
  - destruct (String.eqb k name) eqn:E; cbn [dict_get].
    + apply String.eqb_eq in E. subst k.
      destruct (String.eqb name other) eqn:E'; [|reflexivity].
      apply String.eqb_eq in E'. congruence.
    + rewrite IH. reflexivity.
Qed.

Lemma get_store_same {A : Type} (self : SemanticVocabulary A) (name : string) (v : vec A) :
  get (store self name v) name = Ok v.
Proof. unfold get, store. cbn [vectors]. rewrite dict_get_set_same. reflexivity. Qed.

Lemma get_store_other {A : Type} (self : SemanticVocabulary A) (name other : string)
    (v : vec A) :
  other <> name -> get (store self name v) other = get self other.
Proof.
  intros Hne. unfold get, store. cbn [vectors].
  rewrite dict_get_set_other by exact Hne. reflexivity.
Qed.

Lemma get_raises {A : Type} (self : SemanticVocabulary A) (name : string) e :
  get self name = Raise e -> e = KeyError name.
Proof. unfold get. destruct (dict_get name (vectors self)); [discriminate | congruence]. Qed.

Lemma get_all_raises {A : Type} (self : SemanticVocabulary A) (names : list string) e :
  get_all self names = Raise e -> exists name, e = KeyError name.
Proof.
  induction names as [|name names IH]; cbn [get_all]; [discriminate|].
  destruct (get self name) as [v|e1] eqn:G; cbn [bind_result].
  - destruct (get_all self names) as [vs|e2]; cbn [bind_result]; [discriminate|].
    intros E. injection E as <-. apply IH. reflexivity.
  - intros E. injection E as <-. exists name. exact (get_raises _ _ _ G).
Qed.

Lemma get_wf {A : Type} (self : SemanticVocabulary A) (name : string) :
  vocab_wf self -> contains self name = true ->
  exists v, get self name = Ok v /\ length v = vocab_dim self.
Proof.
  intros [_ Hwf]. unfold contains, dict_mem, get.
  induction Hwf as [|[k w] d Hw Hwf IH]; cbn [dict_get]; [discriminate|].
  destruct (String.eqb k name).
  - intros _. exists w. split; [reflexivity | exact Hw].
  - exact IH.
Qed.

Lemma circular_convolution_raises (a b : vec R) e :
  circular_convolution a b = Raise e ->
  e = ValueError DimensionMismatch \/ e = ValueError InvalidFFTPoints.
Proof.
  unfold circular_convolution. destruct (negb (length a =? length b)%nat).
  - intros E. injection E as <-. left. reflexivity.
  - destruct (fft_convolve a b) as [raw|e1] eqn:F; cbn [bind_result]; [discriminate|].
    intros E. injection E as <-. right. exact (fft_convolve_raises _ _ _ F).
Qed.

Lemma circular_correlation_raises (c a : vec R) e :
  circular_correlation c a = Raise e ->
  e = ValueError DimensionMismatch \/ e = ValueError InvalidFFTPoints.
Proof.
  unfold circular_correlation. destruct (negb (length c =? length a)%nat).
  - intros E. injection E as <-. left. reflexivity.
  - destruct (fft_correlate c a) as [raw|e1] eqn:F; cbn [bind_result]; [discriminate|].
    intros E. injection E as <-. right. exact (fft_correlate_raises _ _ _ F).
Qed.

Lemma superposition_raises (vs : list (vec R)) e :
  superposition vs = Raise e ->
  e = ValueError NoVectors \/ e = ValueError DimensionMismatch.
Proof.
  unfold superposition. destruct vs as [|first rest].
  - intros E. injection E as <-. left. reflexivity.
  - destruct (forallb (fun v => (length v =? length first)%nat) rest); [discriminate|].
    intros E. injection E as <-. right. reflexivity.
Qed.

Lemma wrapper_stores (self : SemanticVocabulary R) (result_name : string)
    (computed : result (vec R)) :
  (forall e, computed = Raise e -> e <> ValueError AlreadyExists) ->
  stores self result_name
    (do value <- computed; Ok (store self result_name value, value)).
Proof.
  intros Hc. unfold stores, raises. destruct computed as [value|e]; cbn [bind_result].
  - split; [discriminate|]. intros self' value' E. injection E as <- <-.
    split; [reflexivity|]. split; [apply get_store_same|].
    intros other Hne. apply get_store_other. exact Hne.
  - split; [|discriminate]. intros E. injection E as ->. exact (Hc _ eq_refl eq_refl).
Qed.

Lemma bind_stores (self : SemanticVocabulary R) (name_a name_b result_name : string) :
  stores self result_name (bind self name_a name_b result_name).
Proof.
  replace (bind self name_a name_b result_name)
    with (do value <- (do a <- get self name_a; do b <- get self name_b;
                       circular_convolution a b);
          Ok (store self result_name value, value))
    by (unfold bind; destruct (get self name_a); [destruct (get self name_b)|]; reflexivity).
  apply wrapper_stores. intros e.
  destruct (get self name_a) as [a|e1] eqn:Ga; cbn [bind_result];
    [|intros E; injection E as <-; rewrite (get_raises _ _ _ Ga); discriminate].
  destruct (get self name_b) as [b|e2] eqn:Gb; cbn [bind_result];
    [|intros E; injection E as <-; rewrite (get_raises _ _ _ Gb); discriminate].
  intros E. destruct (circular_convolution_raises _ _ _ E) as [-> | ->]; discriminate.
Qed.

Lemma unbind_stores (self : SemanticVocabulary R) (bound_name key_name result_name : string) :
  stores self result_name (unbind self bound_name key_name result_name).
Proof.
  replace (unbind self bound_name key_name result_name)
    with (do value <- (do bound <- get self bound_name; do key <- get self key_name;
                       circular_correlation bound key);
          Ok (store self result_name value, value))
    by (unfold unbind; destruct (get self bound_name); [destruct (get self key_name)|];
        reflexivity).
  apply wrapper_stores. intros e.
  destruct (get self bound_name) as [a|e1] eqn:Ga; cbn [bind_result];
    [|intros E; injection E as <-; rewrite (get_raises _ _ _ Ga); discriminate].
  destruct (get self key_name) as [b|e2] eqn:Gb; cbn [bind_result];
    [|intros E; injection E as <-; rewrite (get_raises _ _ _ Gb); discriminate].
  intros E. destruct (circular_correlation_raises _ _ _ E) as [-> | ->]; discriminate.
Qed.

Lemma superpose_stores (self : SemanticVocabulary R) (names : list string)
    (result_name : string) :
  stores self result_name (superpose self names result_name).
Proof.
  replace (superpose self names result_name)
    with (do value <- (do vs <- get_all self names; superposition vs);
          Ok (store self result_name value, value))
    by (unfold superpose; destruct (get_all self names); reflexivity).
  apply wrapper_stores. intros e.
  destruct (get_all self names) as [vs|e1] eqn:G; cbn [bind_result].
  - intros E. destruct (superposition_raises _ _ E) as [-> | ->]; discriminate.
  - intros E. injection E as <-. destruct (get_all_raises _ _ _ G) as [name ->]. discriminate.
Qed.

(** On a well-formed vocabulary the wrappers succeed as soon as the operands
    are there, whatever is stored under the name of the result. *)
Lemma wrappers_succeed (self : SemanticVocabulary R) (name_a name_b result_name : string) :
  vocab_wf self -> contains self name_a = true -> contains self name_b = true ->
  succeeds (bind self name_a name_b result_name)
  /\ succeeds (unbind self name_a name_b result_name)
  /\ succeeds (superpose self [name_a; name_b] result_name).
Proof.
  intros Hwf Ha Hb.
  destruct (get_wf self name_a Hwf Ha) as [a [Ga La]].
  destruct (get_wf self name_b Hwf Hb) as [b [Gb Lb]].
  assert (HL : length a = length b) by congruence.
  assert (Hn : (0 < length a)%nat) by (destruct Hwf as [Hd _]; lia).
  split; [|split].
  - unfold bind. rewrite Ga, Gb. cbn [bind_result].
    rewrite (circular_convolution_sum a b HL Hn). cbn [bind_result]. eexists. reflexivity.
  - unfold unbind. rewrite Ga, Gb. cbn [bind_result].
    rewrite (circular_correlation_sum a b HL Hn). cbn [bind_result]. eexists. reflexivity.
  - unfold superpose. cbn [get_all]. rewrite Ga, Gb. cbn [bind_result].
    unfold superposition. cbn [forallb]. rewrite <- HL, Nat.eqb_refl. cbn [andb bind_result].
    eexists. reflexivity.
Qed.

Lemma conv_sum_10_01 : conv_sum [1; 0] [0; 1] = [0; 1].
Proof.
  unfold conv_sum. cbn. repeat (apply (f_equal2 cons); [ring|]). reflexivity.
Qed.

Lemma voc_AB_wf : vocab_wf voc_AB.
Proof. split; [cbn; lia|]. repeat constructor. Qed.

(** C2 fails as stated: in the vocabulary [{A: [1, 0], B: [0, 1]}],
    [bind(A, B, A)] succeeds although [A] is present, and the vector
    stored under [A] changes from [[1, 0]] to [[0, 1]]. *)
Lemma bind_overwrites_counterexample :
  contains voc_AB "A"%string = true
  /\ get voc_AB "A"%string = Ok [1; 0]
  /\ exists voc', bind voc_AB "A"%string "B"%string "A"%string = Ok (voc', [0; 1])
       /\ get voc' "A"%string = Ok [0; 1]
       /\ [0; 1] <> [1; 0].
Proof.
  split; [reflexivity|]. split; [reflexivity|].
  exists (store voc_AB "A"%string [0; 1]). split; [|split].
  - unfold bind. change (get voc_AB "A"%string) with (Ok [1; 0]).
    change (get voc_AB "B"%string) with (Ok [0; 1]). cbn [bind_result].
    rewrite circular_convolution_sum by (cbn; lia).
    rewrite conv_sum_10_01, (normalize_of_unit _ vnorm_0_1). reflexivity.
  - apply get_store_same.
  - intros E. injection E as E0 _. lra.
Qed.

(** On a well-formed vocabulary [get_all] returns, for names that are all
    present, as many vectors as names, each of the vocabulary's dimension. *)
Lemma get_all_present (self : SemanticVocabulary R) (names : list string) :
  vocab_wf self -> Forall (fun name => contains self name = true) names ->
  exists vs, get_all self names = Ok vs /\ length vs = length names
    /\ Forall (fun v => length v = vocab_dim self) vs.
Proof.
  intros Hwf Hn. induction Hn as [|name names Hname Hn IH].
  - exists []. split; [reflexivity|]. split; [reflexivity | constructor].
  - destruct (get_wf self name Hwf Hname) as [v [Gv Lv]].
    destruct IH as [vs [Gvs [Lvs Fvs]]].
    exists (v :: vs). cbn [get_all]. rewrite Gv, Gvs. cbn [bind_result length].
    split; [reflexivity|]. split; [rewrite Lvs; reflexivity | constructor; assumption].
Qed.

(** [superpose] returns for every non-empty list of names that are present,
    whatever is stored under the name of the result. *)
Lemma superpose_succeeds (self : SemanticVocabulary R) (names : list string)
    (result_name : string) :
  vocab_wf self -> names <> [] -> Forall (fun name => contains self name = true) names ->
  succeeds (superpose self names result_name).
Proof.
  intros Hwf Hne Hn.
  destruct (get_all_present self names Hwf Hn) as [vs [G [L F]]].
  unfold superpose. rewrite G. cbn [bind_result].
  destruct vs as [|first rest]; [destruct names; [contradiction | discriminate]|].
  inversion F as [|? ? Hfirst Hrest]; subst.
  unfold superposition.
  assert (E : forallb (fun v => (length v =? length first)%nat) rest = true).
  { apply forallb_forall. intros v Hv. apply Nat.eqb_eq.
    rewrite Forall_forall in Hrest. rewrite (Hrest v Hv), Hfirst. reflexivity. }
  rewrite E. cbn [bind_result]. eexists. reflexivity.
Qed.

(** C2, amended: [bind], [unbind] and [superpose] never fail with the
    already-exists error.  Whenever one of them returns, the new vocabulary is
    the old one with the result assigned to [result_name]: looking that name
    up gives the result, whether or not the name was present before, and
    every other name is as it was.  On a well-formed vocabulary [bind] and
    [unbind] return once their two operands are present, and [superpose]
    returns for every list of present names that is not empty; with no name
    at all [superpose] raises the no-vectors error of [superposition]. *)
Theorem composite_results_overwrite (self : SemanticVocabulary R) (result_name : string) :
  (forall name_a name_b, stores self result_name (bind self name_a name_b result_name))
  /\ (forall bound_name key_name,
        stores self result_name (unbind self bound_name key_name result_name))
  /\ (forall names, stores self result_name (superpose self names result_name))
  /\ (vocab_wf self ->
      (forall name_a name_b,
         contains self name_a = true -> contains self name_b = true ->
         succeeds (bind self name_a name_b result_name)
         /\ succeeds (unbind self name_a name_b result_name))
      /\ (forall names,
            names <> [] -> Forall (fun name => contains self name = true) names ->
            succeeds (superpose self names result_name)))
  /\ raises (superpose self [] result_name) (ValueError NoVectors).
Proof.
  split; [intros; apply bind_stores|].
  split; [intros; apply unbind_stores|].
  split; [intros; apply superpose_stores|].
  split; [|reflexivity].
  intros Hwf. split.
  - intros name_a name_b Ha Hb.
    destruct (wrappers_succeed self name_a name_b result_name Hwf Ha Hb) as [Sb [Su _]].
    split; assumption.
  - intros names Hne Hn. apply superpose_succeeds; assumption.
Qed.

Lemma composite_results_overwrite_witness :
  (succeeds (bind voc_AB "A"%string "B"%string "A"%string)
   /\ succeeds (unbind voc_AB "A"%string "B"%string "A"%string))
  /\ succeeds (superpose voc_AB ["B"%string; "A"%string; "B"%string] "A"%string).
Proof.
  destruct (proj1 (proj2 (proj2 (proj2 (composite_results_overwrite voc_AB "A"%string))))
              voc_AB_wf) as [Hbind Hsuperpose].
  split.
  - apply (Hbind "A"%string "B"%string); reflexivity.
  - apply (Hsuperpose ["B"%string; "A"%string; "B"%string]).
    + discriminate.
    + repeat constructor.
Defined.

(** ** Binding commutes *)

Lemma Cmul_comm (z w : complex) : Cmul z w = Cmul w z.
Proof. unfold Cmul. f_equal; ring. Qed.

Lemma Cmul_arrays_comm (X Y : list complex) : Cmul_arrays X Y = Cmul_arrays Y X.
Proof.
  unfold Cmul_arrays. revert Y. induction X as [|z X IH]; intros [|w Y]; cbn; try reflexivity.
  rewrite IH. f_equal. apply Cmul_comm.
Qed.

Lemma fft_convolve_comm (a b : vec R) :
  length a = length b -> fft_convolve a b = fft_convolve b a.
Proof.
  intros HL. unfold fft_convolve.
  destruct (rfft a) as [X|e1] eqn:Ea; destruct (rfft b) as [Y|e2] eqn:Eb; cbn [bind_result].
  - rewrite Cmul_arrays_comm, HL. reflexivity.
  - reflexivity.
  - reflexivity.
  - rewrite (rfft_raises _ _ Ea), (rfft_raises _ _ Eb). reflexivity.
Qed.

Lemma circular_convolution_comm (a b : vec R) :
  circular_convolution a b = circular_convolution b a.
Proof.
  unfold circular_convolution. rewrite (Nat.eqb_sym (length b) (length a)).
  destruct (length a =? length b)%nat eqn:E; cbn [negb]; [|reflexivity].
  apply Nat.eqb_eq in E. rewrite (fft_convolve_comm a b E). reflexivity.
Qed.

Lemma dot_self_unit (v : vec R) : vnorm v = 1 -> dot v v = 1.
Proof. intros E. rewrite <- vnorm_sqr, E. ring. Qed.

Lemma dot_self_small (v : vec R) : vnorm v <= sfloor -> dot v v <= sfloor * sfloor.
Proof.
  intros E. rewrite <- vnorm_sqr. pose proof (vnorm_nonneg v). nra.
Qed.

(** The similarity of [bind(a, b)] to [bind(b, a)] is the squared norm of
    what [bind] returns: 1 when it normalised, next to nothing when it did
    not. *)
Lemma bind_self_similarity (a b raw c c' : vec R) (s : R) :
  fft_convolve a b = Ok raw ->
  circular_convolution a b = Ok c -> circular_convolution b a = Ok c' ->
  cosine_similarity c c' = Ok s ->
  (sfloor < vnorm raw -> s = 1) /\ (vnorm raw <= sfloor -> s <= sfloor * sfloor).
Proof.
  intros Eraw Ec Ec' Es. rewrite <- circular_convolution_comm in Ec'.
  assert (c' = c) by congruence. subst c'.
  rewrite cosine_similarity_ok in Es by reflexivity. injection Es as <-.
  unfold circular_convolution in Ec.
  destruct (negb (length a =? length b)%nat); [discriminate|].
  rewrite Eraw in Ec. cbn [bind_result] in Ec. injection Ec as <-. split.
  - intros Hn. apply dot_self_unit, normalize_unit. exact Hn.
  - intros Hn. rewrite normalize_below by exact Hn. apply dot_self_small. exact Hn.
Qed.

Lemma vnorm_quarter_alternating : vnorm [1 / 2; - (1 / 2); 1 / 2; - (1 / 2)] = 1.
Proof.
  unfold vnorm. cbn [dot sadd smul s0 R_scalar ssqrt].
  replace (1 / 2 * (1 / 2) + (- (1 / 2) * - (1 / 2) + (1 / 2 * (1 / 2) + (- (1 / 2) * - (1 / 2) + 0))))
    with 1 by field.
  apply sqrt_1.
Qed.

Lemma vnorm_quarter_constant : vnorm [1 / 2; 1 / 2; 1 / 2; 1 / 2] = 1.
Proof.
  unfold vnorm. cbn [dot sadd smul s0 R_scalar ssqrt].
  replace (1 / 2 * (1 / 2) + (1 / 2 * (1 / 2) + (1 / 2 * (1 / 2) + (1 / 2 * (1 / 2) + 0))))
    with 1 by field.
  apply sqrt_1.
Qed.

Lemma conv_sum_alternating_constant :
  conv_sum [1 / 2; - (1 / 2); 1 / 2; - (1 / 2)] [1 / 2; 1 / 2; 1 / 2; 1 / 2] = zeros 4.
Proof.
  unfold conv_sum. cbn. repeat (apply (f_equal2 cons); [field|]). reflexivity.
Qed.

Lemma circular_convolution_alternating_constant :
  circular_convolution [1 / 2; - (1 / 2); 1 / 2; - (1 / 2)] [1 / 2; 1 / 2; 1 / 2; 1 / 2]
  = Ok (zeros 4).
Proof.
  rewrite circular_convolution_sum by (cbn; lia).
  rewrite conv_sum_alternating_constant, normalize_below; [reflexivity|].
  rewrite vnorm_zeros. pose proof sfloor_pos. lra.
Qed.

(** C9 fails as stated in its consequence: for the unit vectors
    [a = [1/2, -1/2, 1/2, -1/2]] and [b = [1/2, 1/2, 1/2, 1/2]] the circular
    convolution is the zero vector, which is below the floor and is not
    normalised, so the similarity of [bind(a, b)] and [bind(b, a)] is 0,
    not above 0.99. *)
Lemma bind_similarity_counterexample :
  let a := [1 / 2; - (1 / 2); 1 / 2; - (1 / 2)] in
  let b := [1 / 2; 1 / 2; 1 / 2; 1 / 2] in
  length a = length b /\ vnorm a = 1 /\ vnorm b = 1
  /\ circular_convolution a b = Ok (zeros 4)
  /\ circular_convolution b a = Ok (zeros 4)
  /\ cosine_similarity (zeros 4) (zeros 4) = Ok 0
  /\ ~ 0 > 99 / 100.
Proof.
  cbv zeta. split; [reflexivity|].
  split; [exact vnorm_quarter_alternating|]. split; [exact vnorm_quarter_constant|].
  split; [exact circular_convolution_alternating_constant|].
  split; [rewrite <- circular_convolution_comm; exact circular_convolution_alternating_constant|].
  split; [rewrite cosine_similarity_ok by reflexivity; rewrite dot_zeros; reflexivity|].
  lra.
Qed.

(** C9, amended: [circular_convolution(a, b)] equals
    [circular_convolution(b, a)] for all [a] and [b], in exact arithmetic.
    The similarity of the two results is 1, above 0.99, whenever the norm of
    the convolution before normalisation is above the floor [1e-10]; when it
    is not, the similarity is at most the square of the floor. *)
Theorem binding_commutes :
  (forall a b : vec R, circular_convolution a b = circular_convolution b a)
  /\ (forall (a b raw c c' : vec R) (s : R),
        fft_convolve a b = Ok raw ->
        circular_convolution a b = Ok c -> circular_convolution b a = Ok c' ->
        cosine_similarity c c' = Ok s ->
        (sfloor < vnorm raw -> s = 1 /\ s > 99 / 100)
        /\ (vnorm raw <= sfloor -> s <= sfloor * sfloor)).
Proof.
  split; [exact circular_convolution_comm|].
  intros a b raw c c' s Eraw Ec Ec' Es.
  destruct (bind_self_similarity a b raw c c' s Eraw Ec Ec' Es) as [Hu Hd].
  split; [|exact Hd]. intros Hn. rewrite (Hu Hn). split; [reflexivity | lra].
Qed.

Lemma fft_convolve_10_01 : fft_convolve [1; 0] [0; 1] = Ok [0; 1].
Proof. rewrite fft_convolve_sum by (cbn; lia). rewrite conv_sum_10_01. reflexivity. Qed.

Lemma circular_convolution_10_01 : circular_convolution [1; 0] [0; 1] = Ok [0; 1].
Proof.
  rewrite circular_convolution_sum by (cbn; lia).
  rewrite conv_sum_10_01, (normalize_of_unit _ vnorm_0_1). reflexivity.
Qed.

Lemma binding_commutes_witness :
  circular_convolution [1; 0] [0; 1] = circular_convolution [0; 1] [1; 0]
  /\ 0 * 0 + (1 * 1 + 0) = 1 /\ 0 * 0 + (1 * 1 + 0) > 99 / 100.
Proof.
  split; [exact (proj1 binding_commutes [1; 0] [0; 1])|].
  apply (proj2 binding_commutes [1; 0] [0; 1] [0; 1] [0; 1] [0; 1]).
  - exact fft_convolve_10_01.
  - exact circular_convolution_10_01.
  - rewrite <- circular_convolution_comm. exact circular_convolution_10_01.
  - reflexivity.
  - rewrite vnorm_0_1. exact sfloor_lt_1.
Defined.

(** ** The circulant matrix *)

Lemma length_roll (v : vec R) (i : nat) : length (roll v i) = length v.
Proof.
  unfold roll. rewrite length_app, length_skipn, length_firstn.
  destruct (Nat.eq_dec (length v) 0) as [E | E].
  - rewrite E. reflexivity.
  - pose proof (Nat.mod_upper_bound i (length v) E). lia.
Qed.

Lemma nth_roll (v : vec R) (i j : nat) :
  (i < length v)%nat -> (j < length v)%nat ->
  nth j (roll v i) 0 = nth ((j + length v - i) mod length v) v 0.
Proof.
  intros Hi Hj. unfold roll. rewrite (Nat.mod_small i (length v) Hi).
  rewrite (wrap_sub (length v) j i Hj Hi).
  destruct (i <=? j)%nat eqn:E; [apply Nat.leb_le in E | apply Nat.leb_gt in E].
  - rewrite app_nth2 by (rewrite length_skipn; lia).
    rewrite length_skipn, nth_firstn.
    replace (j - (length v - (length v - i)))%nat with (j - i)%nat by lia.
    assert (L : (j - i <? length v - i)%nat = true) by (apply Nat.ltb_lt; lia).
    rewrite L. reflexivity.
  - rewrite app_nth1 by (rewrite length_skipn; lia).
    rewrite nth_skipn. f_equal. lia.
Qed.

(** [_circular_conv_matrix(v) @ x] is the circular correlation of [x] with
    [v], not their circular convolution: the rows of the matrix are [v]
    rolled to the right, where those of the convolution matrix are its
    columns. *)
Theorem circulant_matrix_is_correlation (v x : vec R) :
  length x = length v ->
  matvec (_circular_conv_matrix v) x = corr_sum x v
  /\ ((0 < length v)%nat -> fft_correlate x v = Ok (matvec (_circular_conv_matrix v) x)).
Proof.
  intros HL.
  assert (E : matvec (_circular_conv_matrix v) x = corr_sum x v).
  { unfold matvec, _circular_conv_matrix, corr_sum. rewrite map_map, HL.
    apply map_ext_in. intros i Hi. apply in_seq in Hi.
    rewrite dot_rsum by (rewrite length_roll; symmetry; exact HL).
    rewrite length_roll. apply rsum_ext. intros j Hj.
    rewrite nth_roll by lia. cbn [smul R_scalar]. ring. }
  split; [exact E|]. intros Hn. rewrite E. apply fft_correlate_sum; [exact HL | lia].
Qed.

Lemma circulant_matrix_is_correlation_witness :
  matvec (_circular_conv_matrix [0; 1; 0]) [1; 0; 0] = corr_sum [1; 0; 0] [0; 1; 0]
  /\ ((0 < length [0; 1; 0])%nat ->
      fft_correlate [1; 0; 0] [0; 1; 0]
      = Ok (matvec (_circular_conv_matrix [0; 1; 0]) [1; 0; 0])).
Proof.
  apply (circulant_matrix_is_correlation [0; 1; 0] [1; 0; 0]). reflexivity.
Defined.

Lemma conv_sum_100_010 : conv_sum [1; 0; 0] [0; 1; 0] = [0; 1; 0].
Proof.
  unfold conv_sum. cbn. repeat (apply (f_equal2 cons); [ring|]). reflexivity.
Qed.

Lemma corr_sum_100_010 : corr_sum [1; 0; 0] [0; 1; 0] = [0; 0; 1].
Proof.
  unfold corr_sum. cbn. repeat (apply (f_equal2 cons); [ring|]). reflexivity.
Qed.

(** C1 (the code departs from it): for [v = [0, 1, 0]] and [x = [1, 0, 0]],
    of dimension 3, [_circular_conv_matrix(v) @ x] is [[0, 0, 1]], the
    circular correlation of [x] with [v], while their circular convolution
    [irfft(rfft(x) * rfft(v))] is [[0, 1, 0]]. *)
Theorem circulant_matrix_not_convolution :
  matvec (_circular_conv_matrix [0; 1; 0]) [1; 0; 0] = [0; 0; 1]
  /\ fft_convolve [1; 0; 0] [0; 1; 0] = Ok [0; 1; 0]
  /\ fft_correlate [1; 0; 0] [0; 1; 0] = Ok [0; 0; 1]
  /\ [0; 0; 1] <> [0; 1; 0].
Proof.
  split; [|split; [|split]].
  - rewrite (proj1 (circulant_matrix_is_correlation [0; 1; 0] [1; 0; 0] eq_refl)).
    exact corr_sum_100_010.
  - rewrite fft_convolve_sum by (cbn; lia). rewrite conv_sum_100_010. reflexivity.
  - rewrite fft_correlate_sum by (cbn; lia). rewrite corr_sum_100_010. reflexivity.
  - intros E. injection E as E1 E2. lra.
Qed.

(** ** The round trip of binding and unbinding *)

Lemma length_conv_sum (a b : vec R) : length (conv_sum a b) = length a.
Proof. unfold conv_sum. rewrite length_map, length_seq. reflexivity. Qed.

Lemma length_corr_sum (c a : vec R) : length (corr_sum c a) = length c.
Proof. unfold corr_sum. rewrite length_map, length_seq. reflexivity. Qed.

Lemma nth_conv_sum (a b : vec R) (k : nat) :
  (k < length a)%nat ->
  nth k (conv_sum a b) 0
  = rsum (length a) (fun j => nth j a 0 * nth ((k + length a - j) mod length a) b 0).
Proof. intros Hk. unfold conv_sum. rewrite nth_map_seq by exact Hk. reflexivity. Qed.

Lemma nth_corr_sum (c a : vec R) (k : nat) :
  (k < length c)%nat ->
  nth k (corr_sum c a) 0
  = rsum (length c) (fun j => nth j c 0 * nth ((j + length c - k) mod length c) a 0).
Proof. intros Hk. unfold corr_sum. rewrite nth_map_seq by exact Hk. reflexivity. Qed.

(** Correlation with [b] is the adjoint of convolution with [b]. *)
Lemma correlation_adjoint (c a b : vec R) :
  length c = length a ->
  dot (corr_sum c b) a = dot c (conv_sum a b).
Proof.
  intros HL.
  rewrite dot_rsum by (rewrite length_corr_sum; exact HL).
  rewrite (dot_rsum c (conv_sum a b)) by (rewrite length_conv_sum; exact HL).
  rewrite length_corr_sum.
  rewrite (rsum_ext _ _ (fun m => rsum (length c)
            (fun j => nth j c 0 * nth ((j + length c - m) mod length c) b 0 * nth m a 0))).
  2:{ intros m Hm. rewrite nth_corr_sum by exact Hm. rewrite rsum_scal_r. reflexivity. }
  rewrite rsum_swap. apply rsum_ext. intros j Hj.
  rewrite nth_conv_sum by lia. rewrite <- HL, <- rsum_scal.
  apply rsum_ext. intros m Hm. ring.
Qed.

Lemma normalize_scale (v : vec R) : exists k, 0 < k /\ normalize v = vdiv v k.
Proof.
  destruct (Rlt_le_dec sfloor (vnorm v)) as [Hab | Hbe].
  - exists (vnorm v). split; [pose proof sfloor_pos; lra | apply normalize_above; exact Hab].
  - exists 1. split; [lra|]. rewrite normalize_below by exact Hbe. symmetry. apply vdiv_one.
Qed.

(** C3, amended: for all vectors [a] and [b] of one length, unit vectors of
    dimension at least 50 among them, the similarity of
    [unbind(bind(a, b), b)] to [a] is not negative.  The bound 0.6 is not
    universal: it is met by the operands the tests draw, not by every pair of
    unit vectors. *)
Theorem roundtrip_similarity_bound (a b : vec R) (s : R) :
  length a = length b -> roundtrip_similarity a b = Ok s -> 0 <= s.
Proof.
  intros HL. unfold roundtrip_similarity.
  destruct (Nat.eq_dec (length a) 0) as [Z0 | Hn].
  - unfold circular_convolution, fft_convolve, rfft.
    rewrite HL, Nat.eqb_refl. cbn [negb]. rewrite <- HL, Z0. cbn. discriminate.
  - rewrite circular_convolution_sum by (exact HL || lia). cbn [bind_result].
    destruct (normalize_scale (conv_sum a b)) as [k [Hk Ek]].
    assert (Lb : length (normalize (conv_sum a b)) = length b)
      by (rewrite length_normalize, length_conv_sum; exact HL).
    rewrite circular_correlation_sum by (exact Lb || (rewrite Lb; lia)). cbn [bind_result].
    destruct (normalize_scale (corr_sum (normalize (conv_sum a b)) b)) as [k' [Hk' Ek']].
    rewrite cosine_similarity_ok
      by (rewrite length_normalize, length_corr_sum, Lb; symmetry; exact HL).
    intros E. injection E as <-.
    rewrite Ek', dot_vdiv_l, correlation_adjoint by (rewrite Lb; symmetry; exact HL).
    rewrite Ek, dot_vdiv_l.
    pose proof (dot_self_nonneg (conv_sum a b)) as P.
    apply Rmult_le_pos; [apply Rmult_le_pos; [exact P|]|];
      apply Rlt_le, Rinv_0_lt_compat; assumption.
Qed.

(** *** Convolution and correlation with a constant vector *)

Lemma nth_repeat_lt (c : R) (n i : nat) : (i < n)%nat -> nth i (repeat c n) 0 = c.
Proof.
  revert i. induction n as [|n IH]; intros i Hi; [lia|].
  destruct i as [|i]; [reflexivity|]. cbn [repeat nth]. apply IH. lia.
Qed.

Lemma map_seq_const {T : Type} (f : nat -> T) (c : T) (start n : nat) :
  (forall k, (start <= k < start + n)%nat -> f k = c) -> map f (seq start n) = repeat c n.
Proof.
  revert start. induction n as [|n IH]; intros start Hf; [reflexivity|].
  cbn [seq map repeat]. rewrite Hf by lia. f_equal. apply IH. intros k Hk. apply Hf. lia.
Qed.

Lemma conv_sum_constant (a : vec R) (c : R) :
  conv_sum a (repeat c (length a)) = repeat (total a * c) (length a).
Proof.
  unfold conv_sum. apply map_seq_const. intros k Hk. unfold total.
  rewrite <- rsum_scal_r. apply rsum_ext. intros j Hj.
  rewrite nth_repeat_lt by (apply Nat.mod_upper_bound; lia). reflexivity.
Qed.

Lemma corr_sum_constant (c' : vec R) (c : R) :
  corr_sum c' (repeat c (length c')) = repeat (total c' * c) (length c').
Proof.
  unfold corr_sum. apply map_seq_const. intros k Hk. unfold total.
  rewrite <- rsum_scal_r. apply rsum_ext. intros j Hj.
  rewrite nth_repeat_lt by (apply Nat.mod_upper_bound; lia). reflexivity.
Qed.

Lemma total_repeat (c : R) (n : nat) : total (repeat c n) = INR n * c.
Proof.
  unfold total. rewrite repeat_length.
  rewrite (rsum_ext n _ (fun _ => c)) by (intros j Hj; apply nth_repeat_lt; exact Hj).
  apply rsum_const.
Qed.

Lemma total_cons (x : R) (v : vec R) : total (x :: v) = x + total v.
Proof. unfold total. cbn [length]. rewrite rsum_shift. reflexivity. Qed.

Lemma dot_repeat (c d : R) (n : nat) : dot (repeat c n) (repeat d n) = INR n * (c * d).
Proof.
  induction n as [|n IH]; [cbn; ring|].
  rewrite S_INR. cbn [repeat dot]. rewrite IH. cbn [sadd smul R_scalar]. ring.
Qed.

Lemma vdiv_repeat (c k : R) (n : nat) : vdiv (repeat c n) k = repeat (c / k) n.
Proof. unfold vdiv. rewrite map_repeat. reflexivity. Qed.

(** *** The round trip at the first basis vector and the constant vector *)

Lemma INR_63 : INR 63 = 63.
Proof. rewrite INR_IZR_INZ. reflexivity. Qed.

Lemma INR_64 : INR 64 = 64.
Proof. rewrite INR_IZR_INZ. reflexivity. Qed.

Lemma length_basis_64 : length basis_64 = 64%nat.
Proof. reflexivity. Qed.

Lemma length_constant_64 : length constant_64 = 64%nat.
Proof. reflexivity. Qed.

Lemma total_basis_64 : total basis_64 = 1.
Proof. unfold basis_64. rewrite total_cons, total_repeat. ring. Qed.

Lemma total_constant_64 : total constant_64 = 8.
Proof. unfold constant_64. rewrite total_repeat, INR_64. field. Qed.

Lemma vnorm_basis_64 : vnorm basis_64 = 1.
Proof.
  unfold vnorm, basis_64. cbn [dot]. rewrite dot_repeat. cbn [sadd smul R_scalar ssqrt].
  replace (1 * 1 + INR 63 * (0 * 0)) with 1 by ring. apply sqrt_1.
Qed.

Lemma vnorm_constant_64 : vnorm constant_64 = 1.
Proof.
  unfold vnorm, constant_64. rewrite dot_repeat, INR_64. cbn [ssqrt R_scalar].
  replace (64 * (1 / 8 * (1 / 8))) with 1 by field. apply sqrt_1.
Qed.

Lemma vnorm_ones_64 : vnorm (repeat 1 64) = 8.
Proof.
  unfold vnorm. rewrite dot_repeat, INR_64. cbn [ssqrt R_scalar].
  replace (64 * (1 * 1)) with (8 * 8) by ring. apply sqrt_square. lra.
Qed.

Lemma bind_basis_constant : circular_convolution basis_64 constant_64 = Ok constant_64.
Proof.
  rewrite circular_convolution_sum by (rewrite length_basis_64; reflexivity || lia).
  change constant_64 with (repeat (1 / 8) (length basis_64)) at 1.
  rewrite conv_sum_constant, total_basis_64, length_basis_64.
  replace (1 * (1 / 8)) with (1 / 8) by field.
  fold constant_64. rewrite (normalize_of_unit _ vnorm_constant_64). reflexivity.
Qed.

Lemma unbind_constant_constant : circular_correlation constant_64 constant_64 = Ok constant_64.
Proof.
  rewrite circular_correlation_sum by (rewrite length_constant_64; reflexivity || lia).
  change constant_64 with (repeat (1 / 8) (length constant_64)) at 2.
  rewrite corr_sum_constant, total_constant_64, length_constant_64.
  replace (8 * (1 / 8)) with 1 by field.
  rewrite normalize_above by (rewrite vnorm_ones_64; pose proof sfloor_lt_1; lra).
  rewrite vnorm_ones_64, vdiv_repeat. reflexivity.
Qed.

Lemma roundtrip_basis_constant : roundtrip_similarity basis_64 constant_64 = Ok (1 / 8).
Proof.
  unfold roundtrip_similarity. rewrite bind_basis_constant. cbn [bind_result].
  rewrite unbind_constant_constant. cbn [bind_result].
  rewrite cosine_similarity_ok by reflexivity. f_equal.
  unfold constant_64, basis_64. change (repeat (1 / 8) 64) with (1 / 8 :: repeat (1 / 8) 63).
  cbn [dot]. rewrite dot_repeat. cbn [sadd smul R_scalar]. ring.
Qed.

(** C3 fails as stated: [a = [1, 0, ..., 0]] and [b = [1/8, ..., 1/8]] are
    unit vectors of dimension 64, and the similarity of
    [unbind(bind(a, b), b)] to [a] is 1/8, not above 0.6. *)
Lemma roundtrip_counterexample :
  length basis_64 = length constant_64 /\ (50 <= length basis_64)%nat
  /\ vnorm basis_64 = 1 /\ vnorm constant_64 = 1
  /\ roundtrip_similarity basis_64 constant_64 = Ok (1 / 8)
  /\ ~ 1 / 8 > 6 / 10.
Proof.
  split; [reflexivity|]. split; [rewrite length_basis_64; lia|].
  split; [exact vnorm_basis_64|]. split; [exact vnorm_constant_64|].
  split; [exact roundtrip_basis_constant | lra].
Qed.

Lemma roundtrip_similarity_bound_witness : 0 <= 1 / 8.
Proof.
  apply (roundtrip_similarity_bound basis_64 constant_64 (1 / 8)).
  - reflexivity.
  - exact roundtrip_basis_constant.
Defined.

(** ** The zero vector in IEEE arithmetic *)

Module IEEEFacts.
Import Floats IEEE.

Section Libm.
Variable libm_tanh : float -> float.
Hypothesis tanh_zero_or_nan : forall x, zero_or_nan x -> zero_or_nan (libm_tanh x).

Local Instance libm_scalar : Scalar float := float_scalar libm_tanh.

Lemma zn_cases x :
  zero_or_nan x -> (exists s, Prim2SF x = S754_zero s) \/ Prim2SF x = S754_nan.
Proof.
  unfold zero_or_nan. destruct (Prim2SF x) eqn:E; try contradiction; eauto.
Qed.

Lemma zn_mul w x : zero_or_nan x -> zero_or_nan (w * x)%float.
Proof.
  intros Hx. unfold zero_or_nan. rewrite mul_spec.
  destruct (zn_cases x Hx) as [[s ->] | ->];
    destruct (Prim2SF w) as [sw | sw | | sw mw ew]; cbn; exact I.
Qed.

Lemma zn_add x y : zero_or_nan x -> zero_or_nan y -> zero_or_nan (x + y)%float.
Proof.
  intros Hx Hy. unfold zero_or_nan. rewrite add_spec.
  destruct (zn_cases x Hx) as [[s ->] | ->];
    destruct (zn_cases y Hy) as [[s' ->] | ->]; cbn; try exact I.
  destruct s, s'; exact I.
Qed.

Lemma zn_sqrt x : zero_or_nan x -> zero_or_nan (sqrt x).
Proof.
  intros Hx. unfold zero_or_nan. rewrite sqrt_spec.
  destruct (zn_cases x Hx) as [[s ->] | ->]; cbn; exact I.
Qed.

Lemma zn_zero : zero_or_nan 0%float.
Proof. exact I. Qed.

Lemma zn_nan : zero_or_nan nan.
Proof. exact I. Qed.

Lemma zn_not_above_floor x : zero_or_nan x -> sgtb x sfloor = false.
Proof.
  intros Hx. cbn. rewrite ltb_spec.
  destruct (zn_cases x Hx) as [[s ->] | ->]; destruct s || reflexivity; reflexivity.
Qed.

Lemma zn_dot (w x : vec float) : Forall zero_or_nan x -> zero_or_nan (dot w x).
Proof.
  intros Hx. revert w. induction Hx as [|y x Hy Hx IH]; intros [|a w]; cbn; try exact I.
  apply zn_add; [apply zn_mul; exact Hy | apply IH].
Qed.

Lemma zn_dot_self (x : vec float) : Forall zero_or_nan x -> zero_or_nan (dot x x).
Proof. intros Hx. apply zn_dot. exact Hx. Qed.

Lemma zn_matvec W (x : vec float) :
  Forall zero_or_nan x -> Forall zero_or_nan (vtanh (matvec W x)).
Proof.
  intros Hx. unfold vtanh, matvec. rewrite map_map. apply Forall_forall.
  intros y Hy. apply in_map_iff in Hy. destruct Hy as [row [<- _]].
  apply tanh_zero_or_nan, zn_dot, Hx.
Qed.

Lemma float_vnorm_zeros n : vnorm (zeros n) = 0%float.
Proof.
  unfold vnorm. assert (E : dot (zeros n) (zeros n) = 0%float).
  { unfold zeros. induction n as [|n IH]; [reflexivity|].
    cbn [repeat dot]. rewrite IH. reflexivity. }
  rewrite E. reflexivity.
Qed.

Lemma float_vdiv_zeros n : vdiv (zeros n) 0%float = repeat nan n.
Proof.
  unfold zeros, vdiv. induction n as [|n IH]; [reflexivity|].
  cbn [repeat map]. rewrite IH. reflexivity.
Qed.

Lemma nan_sub_l x y : is_nan_value x -> is_nan_value (x - y)%float.
Proof. unfold is_nan_value. intros Hx. rewrite sub_spec, Hx. reflexivity. Qed.

Lemma nan_mul_l x y : is_nan_value x -> is_nan_value (x * y)%float.
Proof. unfold is_nan_value. intros Hx. rewrite mul_spec, Hx. reflexivity. Qed.

Lemma nan_add_l x y : is_nan_value x -> is_nan_value (x + y)%float.
Proof. unfold is_nan_value. intros Hx. rewrite add_spec, Hx. reflexivity. Qed.

Lemma nan_sqrt x : is_nan_value x -> is_nan_value (sqrt x).
Proof. unfold is_nan_value. intros Hx. rewrite sqrt_spec, Hx. reflexivity. Qed.

Lemma nan_not_below x y : is_nan_value x -> sltb x y = false.
Proof. unfold is_nan_value. intros Hx. cbn. rewrite ltb_spec, Hx. reflexivity. Qed.

Lemma change_from_nan n (x : vec float) (thr : float) :
  (1 <= n)%nat -> length x = n ->
  sltb (vnorm (vsub (repeat nan n) x)) thr = false.
Proof.
  intros Hn Hx. apply nan_not_below. unfold vnorm. apply nan_sqrt.
  destruct n as [|n]; [lia|]. destruct x as [|y x]; [discriminate|].
  cbn [repeat vsub dot]. apply nan_add_l, nan_mul_l, nan_sub_l. reflexivity.
Qed.

Lemma settle_step_zeros (cm : CleanupMemory float) n (x : vec float) :
  Forall zero_or_nan x -> settle_step cm (zeros n) x = repeat nan n.
Proof.
  intros Hx. unfold settle_step.
  rewrite zn_not_above_floor by (apply zn_sqrt, zn_dot_self, zn_matvec, Hx).
  rewrite float_vnorm_zeros. apply float_vdiv_zeros.
Qed.

Lemma Forall_zn_nan n : Forall zero_or_nan (repeat nan n).
Proof. apply Forall_forall. intros y Hy. apply repeat_spec in Hy. subst y. exact I. Qed.

Lemma Forall_zn_zeros n : Forall zero_or_nan (zeros n).
Proof. apply Forall_forall. intros y Hy. apply repeat_spec in Hy. subst y. exact I. Qed.

Lemma settle_zeros (cm : CleanupMemory float) n todo iteration (x : vec float) trajectory :
  (1 <= n)%nat -> length x = n -> Forall zero_or_nan x ->
  settle cm (zeros n) false (S todo) iteration x trajectory
  = Exhausted (repeat nan n) trajectory.
Proof.
  intros Hn. revert iteration x.
  induction todo as [|todo IH]; intros iteration x Hlen Hx.
  - cbn [settle]. rewrite (settle_step_zeros cm n x Hx).
    rewrite (change_from_nan n x (threshold cm) Hn Hlen). reflexivity.
  - change (settle cm (zeros n) false (S (S todo)) iteration x trajectory)
      with (let x_new := settle_step cm (zeros n) x in
            if sltb (vnorm (vsub x_new x)) (threshold cm)
            then Converged x_new trajectory iteration
            else settle cm (zeros n) false (S todo) (iteration + 1)%Z x_new trajectory).
    cbv zeta. rewrite (settle_step_zeros cm n x Hx).
    rewrite (change_from_nan n x (threshold cm) Hn Hlen).
    apply IH; [apply repeat_length | apply Forall_zn_nan].
Qed.

(** C10: the fallback of [cleanup] divides the input by its norm without a
    guard.  For the all-zero input of the memory's dimension the norm of
    [tanh(W @ x)] is not above the floor at the first pass, the divisor
    [np.linalg.norm(noisy_vector)] is zero, and [cleanup] returns, without
    raising, the vector whose entries are all NaN, for every memory and every
    [max_iterations >= 1].  [tanh] is any function that takes zeros and NaN
    to zeros and NaN, as that of the C library does. *)
Theorem cleanup_zeros_nan (cm : CleanupMemory float) (max_iterations : Z) :
  (1 <= cm_dim cm)%nat -> (1 <= max_iterations)%Z ->
  sgtb (vnorm (vtanh (matvec (weights cm) (zeros (cm_dim cm))))) sfloor = false
  /\ vnorm (zeros (cm_dim cm)) = 0%float
  /\ settle_step cm (zeros (cm_dim cm)) (zeros (cm_dim cm))
     = vdiv (zeros (cm_dim cm)) (vnorm (zeros (cm_dim cm)))
  /\ cleanup cm (zeros (cm_dim cm)) false max_iterations
     = Ok (Vector (repeat nan (cm_dim cm))).
Proof.
  intros Hd Hk.
  assert (Z0 : sgtb (vnorm (vtanh (matvec (weights cm) (zeros (cm_dim cm))))) sfloor = false)
    by (apply zn_not_above_floor, zn_sqrt, zn_dot_self, zn_matvec, Forall_zn_zeros).
  split; [exact Z0|]. split; [apply float_vnorm_zeros|]. split.
  - unfold settle_step. rewrite Z0. reflexivity.
  - unfold cleanup.
    assert (L : length (zeros (cm_dim cm)) = cm_dim cm) by apply repeat_length.
    rewrite L, Nat.eqb_refl. cbn [negb].
    destruct (Z.to_nat max_iterations) as [|todo] eqn:E; [lia|].
    rewrite (settle_zeros cm (cm_dim cm) todo 0%Z _ [] Hd L (Forall_zn_zeros _)).
    reflexivity.
Qed.
End Libm.

Lemma cleanup_zeros_nan_witness :
  let ieee := float_scalar (fun x => x) in
  @sgtb float ieee
    (vnorm (vtanh (matvec (weights float_mem_A) (zeros (cm_dim float_mem_A))))) sfloor = false
  /\ @vnorm float ieee (zeros (cm_dim float_mem_A)) = 0%float
  /\ @settle_step float ieee float_mem_A (zeros (cm_dim float_mem_A)) (zeros (cm_dim float_mem_A))
     = vdiv (zeros (cm_dim float_mem_A)) (vnorm (zeros (cm_dim float_mem_A)))
  /\ @cleanup float ieee float_mem_A (zeros (cm_dim float_mem_A)) false 100
     = Ok (Vector (repeat nan (cm_dim float_mem_A))).
Proof.
  apply (cleanup_zeros_nan (fun x => x) (fun x Hx => Hx) float_mem_A 100).
  - cbn. lia.
  - lia.
Defined.

End IEEEFacts.

(** * Further properties of the module *)

(** ** The vocabulary *)

Lemma dict_set_absent {V : Type} (name : string) (v : V) (d : dict V) :
  dict_mem name d = false -> dict_set name v d = d ++ [(name, v)].
Proof.
  unfold dict_mem. induction d as [|[k w] d IH]; cbn [dict_get dict_set app]; [reflexivity|].
  destruct (String.eqb k name); [discriminate|]. intros Hm. rewrite IH by exact Hm. reflexivity.
Qed.

Lemma dict_set_Forall {V : Type} (P : string * V -> Prop) (name : string) (v : V) (d : dict V) :
  (forall k w, In (k, w) d -> P (k, w) -> P (k, v)) ->
  P (name, v) -> Forall P d -> Forall P (dict_set name v d).
Proof.
  intros Hk Hv Hd. induction Hd as [|[k w] d Hw Hd IH]; cbn [dict_set].
  - constructor; [exact Hv | constructor].
  - destruct (String.eqb k name) eqn:E.
    + constructor; [|exact Hd]. apply (Hk k w); [left; reflexivity | exact Hw].
    + constructor; [exact Hw|]. apply IH. intros k' w' Hin. apply Hk. right. exact Hin.
Qed.

Lemma store_wf {A : Type} (self : SemanticVocabulary A) (name : string) (v : vec A) :
  vocab_wf self -> length v = vocab_dim self -> vocab_wf (store self name v).
Proof.
  intros [Hd Hwf] Hv. split; [exact Hd|]. unfold store. cbn [vectors vocab_dim].
  apply dict_set_Forall; [|exact Hv|exact Hwf].
  intros k w _ _. exact Hv.
Qed.

Lemma circular_convolution_length (a b r : vec R) :
  circular_convolution a b = Ok r -> length a = length b /\ length r = length a.
Proof.
  intros E. unfold circular_convolution in E.
  destruct (length a =? length b)%nat eqn:L; cbn [negb] in E; [|discriminate].
  apply Nat.eqb_eq in L. split; [exact L|].
  destruct (Nat.eq_dec (length a) 0) as [Z0 | Hn].
  - unfold fft_convolve, rfft in E. rewrite Z0 in E. cbn in E. discriminate.
  - rewrite fft_convolve_sum in E by (exact L || lia). cbn [bind_result] in E.
    injection E as <-. rewrite length_normalize, length_conv_sum. reflexivity.
Qed.

Lemma circular_correlation_length (c a r : vec R) :
  circular_correlation c a = Ok r -> length c = length a /\ length r = length c.
Proof.
  intros E. unfold circular_correlation in E.
  destruct (length c =? length a)%nat eqn:L; cbn [negb] in E; [|discriminate].
  apply Nat.eqb_eq in L. split; [exact L|].
  destruct (Nat.eq_dec (length c) 0) as [Z0 | Hn].
  - unfold fft_correlate, rfft in E. rewrite Z0 in E. cbn in E. discriminate.
  - rewrite fft_correlate_sum in E by (exact L || lia). cbn [bind_result] in E.
    injection E as <-. rewrite length_normalize, length_corr_sum. reflexivity.
Qed.

Lemma length_vadd (a b : vec R) : length a = length b -> length (vadd a b) = length a.
Proof.
  revert b. induction a as [|x a IH]; intros [|y b] HL; try discriminate; [reflexivity|].
  cbn [vadd length]. rewrite IH by (injection HL; auto). reflexivity.
Qed.

Lemma length_vsum (first : vec R) (rest : list (vec R)) :
  Forall (fun v => length v = length first) rest -> length (vsum first rest) = length first.
Proof.
  revert first. induction rest as [|v rest IH]; intros first Hr; [reflexivity|].
  inversion Hr as [|? ? Hv Hrest]; subst. cbn [vsum].
  rewrite IH.
  - apply length_vadd. symmetry. exact Hv.
  - rewrite length_vadd by (symmetry; exact Hv). exact Hrest.
Qed.

Lemma superposition_length (first : vec R) (rest : list (vec R)) (r : vec R) :
  superposition (first :: rest) = Ok r -> length r = length first.
Proof.
  unfold superposition.
  destruct (forallb (fun v => (length v =? length first)%nat) rest) eqn:F; [|discriminate].
  intros E. injection E as <-. rewrite length_normalize. apply length_vsum.
  apply Forall_forall. intros v Hv. rewrite forallb_forall in F.
  apply Nat.eqb_eq, F, Hv.
Qed.

Lemma get_length {A : Type} (self : SemanticVocabulary A) (name : string) (v : vec A) :
  vocab_wf self -> get self name = Ok v -> length v = vocab_dim self.
Proof.
  intros [_ Hwf]. unfold get.
  induction Hwf as [|[k w] d Hw Hwf IH]; cbn [dict_get]; [discriminate|].
  destruct (String.eqb k name); [|exact IH].
  intros E. injection E as <-. exact Hw.
Qed.

Lemma get_all_length {A : Type} (self : SemanticVocabulary A) (names : list string)
    (vs : list (vec A)) :
  vocab_wf self -> get_all self names = Ok vs ->
  Forall (fun v => length v = vocab_dim self) vs.
Proof.
  intros Hwf. revert vs. induction names as [|name names IH]; intros vs; cbn [get_all].
  - intros E. injection E as <-. constructor.
  - destruct (get self name) as [v|e] eqn:G; cbn [bind_result]; [|discriminate].
    destruct (get_all self names) as [vs'|e]; cbn [bind_result]; [|discriminate].
    intros E. injection E as <-. constructor; [exact (get_length self name v Hwf G)|].
    apply IH. reflexivity.
Qed.

(** X1: The vocabulary keeps its invariant: a new vocabulary is well formed and
    empty, and [add], [bind], [unbind] and [superpose] take a well-formed
    vocabulary to a well-formed one, returning a vector of the vocabulary's
    dimension.  [randn] stands for [np.random.randn(self.dim)], of length
    [self.dim]. *)
Theorem vocabulary_invariant :
  (forall (d : nat) (self : SemanticVocabulary R),
     SemanticVocabulary_init d = Ok self ->
     vocab_wf self /\ vocab_dim self = d /\ vocab_len self = 0%nat)
  /\ (forall (self self' : SemanticVocabulary R) name vector randn (v : vec R),
        vocab_wf self -> (vector = None -> length randn = vocab_dim self) ->
        add self name vector randn = Ok (self', v) ->
        vocab_wf self' /\ vocab_dim self' = vocab_dim self /\ length v = vocab_dim self)
  /\ (forall (self self' : SemanticVocabulary R) name_a name_b result_name (v : vec R),
        vocab_wf self ->
        bind self name_a name_b result_name = Ok (self', v) ->
        vocab_wf self' /\ vocab_dim self' = vocab_dim self /\ length v = vocab_dim self)
  /\ (forall (self self' : SemanticVocabulary R) bound_name key_name result_name (v : vec R),
        vocab_wf self ->
        unbind self bound_name key_name result_name = Ok (self', v) ->
        vocab_wf self' /\ vocab_dim self' = vocab_dim self /\ length v = vocab_dim self)
  /\ (forall (self self' : SemanticVocabulary R) names result_name (v : vec R),
        vocab_wf self ->
        superpose self names result_name = Ok (self', v) ->
        vocab_wf self' /\ vocab_dim self' = vocab_dim self /\ length v = vocab_dim self).
Proof.
  split; [|split; [|split; [|split]]].
  - intros d self. unfold SemanticVocabulary_init.
    destruct (d <? 2)%nat eqn:E; [discriminate|]. apply Nat.ltb_ge in E.
    intros I. injection I as <-. split; [|split; reflexivity].
    split; [exact E | constructor].
  - intros self self' name vector randn v Hwf Hr. unfold add.
    destruct (dict_mem name (vectors self)); [discriminate|].
    assert (S : forall w, length w = vocab_dim self ->
                Ok ({| vocab_dim := vocab_dim self;
                       vectors := dict_set name w (vectors self) |}, w) = Ok (self', v) ->
                vocab_wf self' /\ vocab_dim self' = vocab_dim self /\ length v = vocab_dim self).
    { intros w Hw E. injection E as <- <-. split; [|split; [reflexivity | exact Hw]].
      exact (store_wf self name w Hwf Hw). }
    destruct vector as [w|]; cbn [bind_result].
    + destruct (length w =? vocab_dim self)%nat eqn:L; cbn [negb bind_result]; [|discriminate].
      apply Nat.eqb_eq in L. apply S. rewrite length_normalize. exact L.
    + apply S. rewrite length_vdiv. apply Hr. reflexivity.
  - intros self self' name_a name_b result_name v Hwf. unfold bind.
    destruct (get self name_a) as [a|e] eqn:Ga; cbn [bind_result]; [|discriminate].
    destruct (get self name_b) as [b|e] eqn:Gb; cbn [bind_result]; [|discriminate].
    destruct (circular_convolution a b) as [r|e] eqn:C; cbn [bind_result]; [|discriminate].
    intros E. injection E as <- <-.
    destruct (circular_convolution_length a b r C) as [_ Lr].
    pose proof (get_length self name_a a Hwf Ga) as La.
    split; [apply store_wf; [exact Hwf | congruence]|]. split; [reflexivity | congruence].
  - intros self self' bound_name key_name result_name v Hwf. unfold unbind.
    destruct (get self bound_name) as [a|e] eqn:Ga; cbn [bind_result]; [|discriminate].
    destruct (get self key_name) as [b|e] eqn:Gb; cbn [bind_result]; [|discriminate].
    destruct (circular_correlation a b) as [r|e] eqn:C; cbn [bind_result]; [|discriminate].
    intros E. injection E as <- <-.
    destruct (circular_correlation_length a b r C) as [_ Lr].
    pose proof (get_length self bound_name a Hwf Ga) as La.
    split; [apply store_wf; [exact Hwf | congruence]|]. split; [reflexivity | congruence].
  - intros self self' names result_name v Hwf. unfold superpose.
    destruct (get_all self names) as [vs|e] eqn:G; cbn [bind_result]; [|discriminate].
    destruct (superposition vs) as [r|e] eqn:S; cbn [bind_result]; [|discriminate].
    intros E. injection E as <- <-.
    pose proof (get_all_length self names vs Hwf G) as Lvs.
    destruct vs as [|first rest]; [discriminate|].
    pose proof (superposition_length first rest r S) as Lr.
    inversion Lvs as [|? ? Lf _]; subst.
    split; [apply store_wf; [exact Hwf | congruence]|]. split; [reflexivity | congruence].
Qed.

Lemma vocabulary_invariant_witness :
  vocab_wf voc_AB /\ vocab_dim voc_AB = vocab_dim voc_A /\ length [0; 1] = vocab_dim voc_A.
Proof.
  apply (proj1 (proj2 vocabulary_invariant) voc_A voc_AB "B"%string (Some [0; 1]) [] [0; 1]).
  - split; [cbn; lia | repeat constructor].
  - discriminate.
  - exact voc_AB_built.
Defined.

Lemma dict_keys_app {V : Type} (d d' : dict V) : dict_keys (d ++ d') = dict_keys d ++ dict_keys d'.
Proof. unfold dict_keys. apply map_app. Qed.

(** X2: Adding and looking up: after [add] has returned, the name is in the
    vocabulary and [get] gives the vector [add] returned; the name was absent
    before and is now the last key; every other name is looked up as before
    and the vocabulary has one entry more. *)
Theorem add_then_get {A : Type} `{Scalar A} (self self' : SemanticVocabulary A)
    (name : string) (vector : option (vec A)) (randn v : vec A) :
  add self name vector randn = Ok (self', v) ->
  contains self name = false
  /\ contains self' name = true
  /\ get self' name = Ok v
  /\ (forall other, other <> name -> get self' other = get self other)
  /\ dict_keys (vectors self') = dict_keys (vectors self) ++ [name]
  /\ vocab_len self' = S (vocab_len self).
Proof.
  unfold add, contains. destruct (dict_mem name (vectors self)) eqn:M; [discriminate|].
  intros E.
  assert (S' : self' = store self name v).
  { destruct vector as [w|]; cbn [bind_result] in E.
    - destruct (negb (length w =? vocab_dim self)); cbn [bind_result] in E; [discriminate|].
      injection E as <- <-. reflexivity.
    - injection E as <- <-. reflexivity. }
  subst self'. split; [reflexivity|].
  split; [unfold dict_mem, store; cbn [vectors]; rewrite dict_get_set_same; reflexivity|].
  split; [apply get_store_same|].
  split; [intros other Hne; apply get_store_other; exact Hne|].
  unfold store, vocab_len. cbn [vectors]. rewrite (dict_set_absent name v _ M).
  split; [rewrite dict_keys_app; reflexivity|].
  rewrite length_app. cbn [length]. lia.
Qed.

Lemma add_then_get_witness :
  contains voc_A "B" = false
  /\ contains voc_AB "B" = true
  /\ get voc_AB "B" = Ok [0; 1]
  /\ (forall other, other <> "B"%string -> get voc_AB other = get voc_A other)
  /\ dict_keys (vectors voc_AB) = dict_keys (vectors voc_A) ++ ["B"%string]
  /\ vocab_len voc_AB = S (vocab_len voc_A).
Proof.
  apply (add_then_get voc_A voc_AB "B"%string (Some [0; 1]) [] [0; 1]).
  exact voc_AB_built.
Defined.

(** X3: How [add] fails: with the already-exists error exactly when the name is
    present, whatever the vector; with the dimension error exactly when the
    name is absent and a vector of another length is given; in every other
    case it succeeds. *)
Theorem add_failures {A : Type} `{Scalar A} (self : SemanticVocabulary A)
    (name : string) (vector : option (vec A)) (randn : vec A) :
  (raises (add self name vector randn) (ValueError AlreadyExists)
   <-> contains self name = true)
  /\ (raises (add self name vector randn) (ValueError DimensionMismatch)
      <-> contains self name = false
          /\ exists w, vector = Some w /\ length w <> vocab_dim self)
  /\ (succeeds (add self name vector randn)
      <-> contains self name = false
          /\ forall w, vector = Some w -> length w = vocab_dim self).
Proof.
  unfold raises, succeeds, add, contains.
  destruct (dict_mem name (vectors self)).
  - split; [split; reflexivity || auto|].
    split; [split; [discriminate | intros [D _]; discriminate]|].
    split; [intros [r E]; discriminate | intros [D _]; discriminate].
  - destruct vector as [w|]; cbn [bind_result].
    + destruct (length w =? vocab_dim self)%nat eqn:L; cbn [negb bind_result].
      * apply Nat.eqb_eq in L.
        split; [split; discriminate|].
        split; [split; [discriminate | intros [_ [w' [E Hne]]]; injection E as <-; contradiction]|].
        split; [intros _; split; [reflexivity | intros w' E; injection E as <-; exact L]
               | intros _; eexists; reflexivity].
      * apply Nat.eqb_neq in L.
        split; [split; discriminate|].
        split; [split; [intros _; split; [reflexivity | exists w; split; [reflexivity | exact L]]
                       | reflexivity]|].
        split; [intros [r E]; discriminate | intros [_ Hw]; exfalso; exact (L (Hw w eq_refl))].
    + split; [split; discriminate|].
      split; [split; [discriminate | intros [_ [w' [E _]]]; discriminate]|].
      split; [intros _; split; [reflexivity | intros w' E; discriminate]
             | intros _; eexists; reflexivity].
Qed.

(** X4: How lookups fail: [get] raises [KeyError] for a name exactly when the
    name is absent; [similarity] raises [KeyError] for the first operand that
    is absent, and on a well-formed vocabulary with both operands present it
    returns their dot product, the same in either order. *)
Theorem lookup_failures (self : SemanticVocabulary R) (name_a name_b : string) :
  (raises (get self name_a) (KeyError name_a) <-> contains self name_a = false)
  /\ (contains self name_a = false ->
      raises (similarity self name_a name_b) (KeyError name_a))
  /\ (contains self name_a = true -> contains self name_b = false ->
      raises (similarity self name_a name_b) (KeyError name_b))
  /\ (vocab_wf self -> contains self name_a = true -> contains self name_b = true ->
      exists a b, get self name_a = Ok a /\ get self name_b = Ok b
        /\ similarity self name_a name_b = Ok (dot a b)
        /\ similarity self name_b name_a = Ok (dot a b)).
Proof.
  unfold raises, contains, dict_mem, similarity, get.
  split; [|split; [|split]].
  - destruct (dict_get name_a (vectors self)); split; try discriminate; reflexivity.
  - destruct (dict_get name_a (vectors self)); [discriminate | reflexivity].
  - destruct (dict_get name_a (vectors self)); [|discriminate].
    destruct (dict_get name_b (vectors self)); [discriminate | reflexivity].
  - intros Hwf Ha Hb.
    destruct (get_wf self name_a Hwf) as [a [Ga La]]; [exact Ha|].
    destruct (get_wf self name_b Hwf) as [b [Gb Lb]]; [exact Hb|].
    unfold get in Ga, Gb.
    destruct (dict_get name_a (vectors self)) as [a'|]; [|discriminate].
    destruct (dict_get name_b (vectors self)) as [b'|]; [|discriminate].
    injection Ga as ->. injection Gb as ->.
    exists a, b. split; [reflexivity|]. split; [reflexivity|]. cbn [bind_result].
    rewrite !cosine_similarity_ok by congruence. rewrite (dot_comm b a). split; reflexivity.
Qed.

Lemma lookup_failures_witness :
  exists a b, get voc_AB "A" = Ok a /\ get voc_AB "B" = Ok b
    /\ similarity voc_AB "A" "B" = Ok (dot a b)
    /\ similarity voc_AB "B" "A" = Ok (dot a b).
Proof.
  apply (proj2 (proj2 (proj2 (lookup_failures voc_AB "A" "B")))); [exact voc_AB_wf | |];
    reflexivity.
Defined.

(** ** Similarity and superposition *)

Lemma dot_vsub_self (a b : vec R) :
  length a = length b ->
  dot (vsub a b) (vsub a b) = dot a a - 2 * dot a b + dot b b.
Proof.
  revert b. induction a as [|x a IH]; intros [|y b] HL; try discriminate.
  - cbn. ring.
  - cbn [vsub dot]. rewrite IH by (injection HL; auto). cbn [sadd smul ssub R_scalar]. ring.
Qed.

Lemma dot_vadd_self (a b : vec R) :
  length a = length b ->
  dot (vadd a b) (vadd a b) = dot a a + 2 * dot a b + dot b b.
Proof.
  revert b. induction a as [|x a IH]; intros [|y b] HL; try discriminate.
  - cbn. ring.
  - cbn [vadd dot]. rewrite IH by (injection HL; auto). cbn [sadd smul R_scalar]. ring.
Qed.

Lemma dot_unit_bounds (a b : vec R) :
  length a = length b -> vnorm a = 1 -> vnorm b = 1 -> -1 <= dot a b <= 1.
Proof.
  intros HL Ha Hb.
  pose proof (dot_self_unit a Ha) as Da. pose proof (dot_self_unit b Hb) as Db.
  pose proof (dot_self_nonneg (vsub a b)) as P. rewrite (dot_vsub_self a b HL) in P.
  pose proof (dot_self_nonneg (vadd a b)) as Q. rewrite (dot_vadd_self a b HL) in Q.
  lra.
Qed.

(** X5: On unit vectors of one length [cosine_similarity] stays within [-1, 1],
    as its docstring says; it is symmetric, and the similarity of a unit
    vector to itself is 1. *)
Theorem cosine_similarity_unit_range (a b : vec R) :
  length a = length b -> vnorm a = 1 -> vnorm b = 1 ->
  exists s, cosine_similarity a b = Ok s /\ cosine_similarity b a = Ok s
    /\ -1 <= s <= 1 /\ cosine_similarity a a = Ok 1.
Proof.
  intros HL Ha Hb. exists (dot a b).
  rewrite !cosine_similarity_ok by congruence.
  split; [reflexivity|]. split; [rewrite (dot_comm b a); reflexivity|].
  split; [exact (dot_unit_bounds a b HL Ha Hb)|].
  rewrite (dot_self_unit a Ha). reflexivity.
Qed.

Lemma cosine_similarity_unit_range_witness :
  exists s, cosine_similarity [1; 0] [0; 1] = Ok s /\ cosine_similarity [0; 1] [1; 0] = Ok s
    /\ -1 <= s <= 1 /\ cosine_similarity [1; 0] [1; 0] = Ok 1.
Proof.
  apply (cosine_similarity_unit_range [1; 0] [0; 1]);
    [reflexivity | exact vnorm_1_0 | exact vnorm_0_1].
Defined.

(** X6: [cosine_similarity] does not divide by the norms: scaling an argument
    scales the result, so outside the unit vectors it leaves [-1, 1]. *)
Theorem cosine_similarity_scales (a b : vec R) (c : R) :
  length a = length b ->
  cosine_similarity (vscale c a) b = Ok (c * dot a b)
  /\ cosine_similarity a a = Ok (vnorm a * vnorm a).
Proof.
  intros HL. split.
  - rewrite cosine_similarity_ok by (unfold vscale; rewrite length_map; exact HL).
    f_equal. clear HL. revert b. induction a as [|x a IH]; intros [|y b]; cbn; try ring.
    unfold vscale in IH. rewrite IH. cbn. ring.
  - rewrite cosine_similarity_ok by reflexivity. rewrite vnorm_sqr. reflexivity.
Qed.

Lemma cosine_similarity_scales_witness :
  cosine_similarity (vscale 3 [1; 0]) [1; 0] = Ok (3 * dot [1; 0] [1; 0])
  /\ cosine_similarity [1; 0] [1; 0] = Ok (vnorm [1; 0] * vnorm [1; 0]).
Proof. apply (cosine_similarity_scales [1; 0] [1; 0] 3). reflexivity. Defined.

Lemma vadd_comm (a b : vec R) : vadd a b = vadd b a.
Proof.
  revert b. induction a as [|x a IH]; intros [|y b]; cbn [vadd]; try reflexivity.
  rewrite IH. cbn [sadd R_scalar]. f_equal. ring.
Qed.

Lemma vadd_swap (f a b : vec R) : vadd (vadd f a) b = vadd (vadd f b) a.
Proof.
  revert a b. induction f as [|x f IH]; intros [|y a] [|z b]; cbn [vadd]; try reflexivity.
  rewrite IH. cbn [sadd R_scalar]. f_equal. ring.
Qed.

Lemma vsum_perm (first : vec R) (rest rest' : list (vec R)) :
  Permutation rest rest' -> vsum first rest = vsum first rest'.
Proof.
  intros P. revert first. induction P as [|v l l' P IH|v w l|l l' l'' P1 IH1 P2 IH2]; intros first.
  - reflexivity.
  - cbn [vsum]. apply IH.
  - cbn [vsum]. rewrite vadd_swap. reflexivity.
  - rewrite IH1. apply IH2.
Qed.

Lemma forallb_perm {T : Type} (p : T -> bool) (l l' : list T) :
  Permutation l l' -> forallb p l = forallb p l'.
Proof.
  intros P. induction P as [|v l l' P IH|v w l|l l' l'' P1 IH1 P2 IH2]; cbn [forallb].
  - reflexivity.
  - rewrite IH. reflexivity.
  - destruct (p v), (p w); reflexivity.
  - rewrite IH1. exact IH2.
Qed.

Lemma superposition_perm_rest (first : vec R) (rest rest' : list (vec R)) :
  Permutation rest rest' -> superposition (first :: rest) = superposition (first :: rest').
Proof.
  intros P. unfold superposition.
  rewrite (forallb_perm _ rest rest' P), (vsum_perm first rest rest' P). reflexivity.
Qed.

Lemma superposition_swap (a b : vec R) (l : list (vec R)) :
  superposition (a :: b :: l) = superposition (b :: a :: l).
Proof.
  unfold superposition. cbn [forallb vsum]. rewrite (Nat.eqb_sym (length a) (length b)).
  destruct (length b =? length a)%nat eqn:E; cbn [andb]; [|reflexivity].
  apply Nat.eqb_eq in E. rewrite E, (vadd_comm a b). reflexivity.
Qed.

Lemma superposition_to_front (l1 l2 : list (vec R)) (a : vec R) :
  superposition (l1 ++ a :: l2) = superposition (a :: l1 ++ l2).
Proof.
  destruct l1 as [|b l1]; [reflexivity|]. cbn [app].
  rewrite (superposition_perm_rest b (l1 ++ a :: l2) (a :: l1 ++ l2)).
  - apply superposition_swap.
  - symmetry. apply Permutation_middle.
Qed.

(** X7: [superposition] does not depend on the order of its arguments, in its
    result as in its failures. *)
Theorem superposition_order (vs vs' : list (vec R)) :
  Permutation vs vs' -> superposition vs = superposition vs'.
Proof.
  intros P. destruct vs as [|a l].
  - apply Permutation_nil in P. subst vs'. reflexivity.
  - assert (Hin : In a vs') by (apply (Permutation_in a P); left; reflexivity).
    apply in_split in Hin. destruct Hin as [l1 [l2 ->]].
    rewrite superposition_to_front. apply superposition_perm_rest.
    exact (Permutation_cons_app_inv l1 l2 P).
Qed.

Lemma superposition_order_witness :
  superposition [[1; 0]; [0; 1]; [1; 0]] = superposition [[0; 1]; [1; 0]; [1; 0]].
Proof.
  apply superposition_order. apply perm_swap.
Defined.

(** ** Binding with basis vectors, and correlation as convolution *)

Lemma length_basis (n k : nat) : length (basis n k) = n.
Proof. unfold basis. rewrite length_map, length_seq. reflexivity. Qed.

Lemma nth_basis (n k i : nat) :
  (i < n)%nat -> nth i (basis n k) 0 = if (i =? k)%nat then 1 else 0.
Proof. intros Hi. unfold basis. rewrite nth_map_seq by exact Hi. reflexivity. Qed.

Lemma wrap_add (n m k : nat) :
  (m < n)%nat -> (k < n)%nat ->
  ((m + k) mod n = if (m + k <? n)%nat then m + k else m + k - n)%nat.
Proof.
  intros Hm Hk. destruct (m + k <? n)%nat eqn:E.
  - apply Nat.ltb_lt in E. apply Nat.mod_small. exact E.
  - apply Nat.ltb_ge in E.
    replace (m + k)%nat with ((m + k - n) + 1 * n)%nat at 1 by lia.
    rewrite Nat.Div0.mod_add. apply Nat.mod_small. lia.
Qed.

Lemma shift_index (n j k m : nat) :
  (j < n)%nat -> (k < n)%nat -> (m < n)%nat ->
  (Z.of_nat n | Z.of_nat j - Z.of_nat k - Z.of_nat m)%Z <-> j = ((m + k) mod n)%nat.
Proof.
  intros Hj Hk Hm. rewrite wrap_add by assumption. split.
  - intros D. apply divides_window_neg in D; [|lia|lia].
    destruct (m + k <? n)%nat eqn:E; [apply Nat.ltb_lt in E | apply Nat.ltb_ge in E]; lia.
  - intros ->. destruct (m + k <? n)%nat eqn:E; [apply Nat.ltb_lt in E | apply Nat.ltb_ge in E].
    + exists 0%Z. lia.
    + exists (-1)%Z. lia.
Qed.

Lemma rsum_indicator (n j0 : nat) (f : nat -> R) (p : nat -> bool) :
  (j0 < n)%nat -> (forall j, (j < n)%nat -> p j = true <-> j = j0) ->
  rsum n (fun j => f j * (if p j then 1 else 0)) = f j0.
Proof.
  intros Hj Hp. rewrite (rsum_single n _ j0 Hj).
  - assert (E : p j0 = true) by (apply Hp; [exact Hj | reflexivity]). rewrite E. ring.
  - intros j Hjn Hne. destruct (p j) eqn:E; [|ring].
    exfalso. apply Hne. apply Hp; assumption.
Qed.

Lemma nth_conv_sum_basis (a : vec R) (k m : nat) :
  (k < length a)%nat -> (m < length a)%nat ->
  nth m (conv_sum a (basis (length a) k)) 0 = nth ((m + length a - k) mod length a) a 0.
Proof.
  intros Hk Hm. rewrite nth_conv_sum by exact Hm.
  rewrite (rsum_ext _ _ (fun j => nth j a 0
             * (if ((m + length a - j) mod length a =? k)%nat then 1 else 0))).
  2:{ intros j Hj. rewrite nth_basis by (apply Nat.mod_upper_bound; lia). reflexivity. }
  apply (rsum_indicator (length a) ((m + length a - k) mod length a)
           (fun j => nth j a 0) (fun j => ((m + length a - j) mod length a =? k)%nat)).
  - apply Nat.mod_upper_bound. lia.
  - intros j Hj. rewrite Nat.eqb_eq.
    rewrite <- (conv_index (length a) k j m Hk Hj Hm).
    split.
    + intros E. symmetry in E. apply (conv_index (length a) j k m Hj Hk Hm) in E.
      replace (Z.of_nat k + Z.of_nat j - Z.of_nat m)%Z
        with (Z.of_nat j + Z.of_nat k - Z.of_nat m)%Z by lia. exact E.
    + intros D. symmetry. apply (conv_index (length a) j k m Hj Hk Hm).
      replace (Z.of_nat j + Z.of_nat k - Z.of_nat m)%Z
        with (Z.of_nat k + Z.of_nat j - Z.of_nat m)%Z by lia. exact D.
Qed.

Lemma conv_sum_basis (a : vec R) (k : nat) :
  (k < length a)%nat -> conv_sum a (basis (length a) k) = roll a k.
Proof.
  intros Hk. apply (nth_ext _ _ 0 0).
  - rewrite length_conv_sum, length_roll. reflexivity.
  - intros m Hm. rewrite length_conv_sum in Hm.
    rewrite nth_conv_sum_basis by assumption. rewrite nth_roll by assumption. reflexivity.
Qed.

Lemma nth_corr_sum_basis (c : vec R) (k m : nat) :
  (k < length c)%nat -> (m < length c)%nat ->
  nth m (corr_sum c (basis (length c) k)) 0 = nth ((m + k) mod length c) c 0.
Proof.
  intros Hk Hm. rewrite nth_corr_sum by exact Hm.
  rewrite (rsum_ext _ _ (fun j => nth j c 0
             * (if ((j + length c - m) mod length c =? k)%nat then 1 else 0))).
  2:{ intros j Hj. rewrite nth_basis by (apply Nat.mod_upper_bound; lia). reflexivity. }
  apply (rsum_indicator (length c) ((m + k) mod length c)
           (fun j => nth j c 0) (fun j => ((j + length c - m) mod length c =? k)%nat)).
  - apply Nat.mod_upper_bound. lia.
  - intros j Hj. rewrite Nat.eqb_eq.
    rewrite <- (shift_index (length c) j k m Hj Hk Hm).
    rewrite (corr_index (length c) j k m Hj Hk Hm). split; intros E; symmetry; exact E.
Qed.

Lemma unroll_index (n m k : nat) :
  (m < n)%nat -> (k < n)%nat -> (((m + k) mod n + n - k) mod n = m)%nat.
Proof.
  intros Hm Hk. rewrite (wrap_add n m k Hm Hk).
  destruct (m + k <? n)%nat eqn:E; [apply Nat.ltb_lt in E | apply Nat.ltb_ge in E].
  - replace (m + k + n - k)%nat with (m + 1 * n)%nat by lia.
    rewrite Nat.Div0.mod_add. apply Nat.mod_small. exact Hm.
  - replace (m + k - n + n - k)%nat with m by lia. apply Nat.mod_small. exact Hm.
Qed.

Lemma corr_sum_roll_basis (a : vec R) (k : nat) :
  (k < length a)%nat -> corr_sum (roll a k) (basis (length a) k) = a.
Proof.
  intros Hk. apply (nth_ext _ _ 0 0).
  - rewrite length_corr_sum, length_roll. reflexivity.
  - intros m Hm. rewrite length_corr_sum, length_roll in Hm.
    pose proof (length_roll a k) as LR.
    rewrite <- LR at 1. rewrite nth_corr_sum_basis by (rewrite LR; assumption).
    rewrite LR. rewrite nth_roll by (exact Hk || (apply Nat.mod_upper_bound; lia)).
    rewrite unroll_index by assumption. reflexivity.
Qed.

Lemma dot_app (a b c d : vec R) :
  length a = length c -> dot (a ++ b) (c ++ d) = dot a c + dot b d.
Proof.
  revert c. induction a as [|x a IH]; intros [|y c] HL; try discriminate.
  - cbn. ring.
  - cbn [app dot]. rewrite IH by (injection HL; auto). cbn [sadd smul R_scalar]. ring.
Qed.

Lemma vnorm_roll (a : vec R) (k : nat) : vnorm (roll a k) = vnorm a.
Proof.
  unfold vnorm. f_equal. unfold roll.
  set (c := (length a - k mod length a)%nat).
  rewrite dot_app by reflexivity.
  rewrite <- (firstn_skipn c a) at 5 6.
  rewrite (dot_app (firstn c a) (skipn c a)) by reflexivity. ring.
Qed.

(** X8: Binding with the [k]-th basis vector rotates by [k] places, and
    unbinding with it rotates back: the round trip through a basis vector is
    exact, with similarity 1 for a unit vector. *)
Theorem bind_basis_roundtrip (a : vec R) (k : nat) :
  (k < length a)%nat ->
  circular_convolution a (basis (length a) k) = Ok (normalize (roll a k))
  /\ circular_correlation (roll a k) (basis (length a) k) = Ok (normalize a)
  /\ (vnorm a = 1 ->
      circular_convolution a (basis (length a) k) = Ok (roll a k)
      /\ circular_correlation (roll a k) (basis (length a) k) = Ok a
      /\ roundtrip_similarity a (basis (length a) k) = Ok 1).
Proof.
  intros Hk.
  assert (C : circular_convolution a (basis (length a) k) = Ok (normalize (roll a k))).
  { rewrite circular_convolution_sum by (rewrite ?length_basis; reflexivity || lia).
    rewrite conv_sum_basis by exact Hk. reflexivity. }
  assert (U : circular_correlation (roll a k) (basis (length a) k) = Ok (normalize a)).
  { rewrite circular_correlation_sum by (rewrite ?length_basis, ?length_roll; reflexivity || lia).
    rewrite corr_sum_roll_basis by exact Hk. reflexivity. }
  split; [exact C|]. split; [exact U|]. intros Ha.
  assert (Hr : vnorm (roll a k) = 1) by (rewrite vnorm_roll; exact Ha).
  rewrite (normalize_of_unit _ Hr) in C. rewrite (normalize_of_unit _ Ha) in U.
  split; [exact C|]. split; [exact U|].
  unfold roundtrip_similarity. rewrite C. cbn [bind_result]. rewrite U. cbn [bind_result].
  rewrite cosine_similarity_ok by reflexivity. rewrite (dot_self_unit a Ha). reflexivity.
Qed.

Lemma bind_basis_roundtrip_witness :
  circular_convolution [0; 1; 0] (basis (length [0; 1; 0]) 1)
    = Ok (normalize (roll [0; 1; 0] 1))
  /\ circular_correlation (roll [0; 1; 0] 1) (basis (length [0; 1; 0]) 1)
     = Ok (normalize [0; 1; 0])
  /\ (vnorm [0; 1; 0] = 1 ->
      circular_convolution [0; 1; 0] (basis (length [0; 1; 0]) 1) = Ok (roll [0; 1; 0] 1)
      /\ circular_correlation (roll [0; 1; 0] 1) (basis (length [0; 1; 0]) 1) = Ok [0; 1; 0]
      /\ roundtrip_similarity [0; 1; 0] (basis (length [0; 1; 0]) 1) = Ok 1).
Proof. apply (bind_basis_roundtrip [0; 1; 0] 1). cbn. lia. Defined.

Lemma length_reversed_vector (v : vec R) : length (reversed_vector v) = length v.
Proof. destruct v as [|x v]; [reflexivity|]. cbn [reversed_vector length]. rewrite length_rev. reflexivity. Qed.

Lemma nth_reversed_vector (v : vec R) (i : nat) :
  (i < length v)%nat ->
  nth i (reversed_vector v) 0 = nth ((length v - i) mod length v) v 0.
Proof.
  intros Hi. destruct v as [|x v]; [cbn in Hi; lia|].
  cbn [reversed_vector length] in *. destruct i as [|i].
  - rewrite Nat.sub_0_r, Nat.Div0.mod_same. reflexivity.
  - cbn [nth]. rewrite Nat.mod_small by lia.
    rewrite rev_nth by lia.
    replace (S (length v) - S i)%nat with (S (length v - S i)) by lia. reflexivity.
Qed.

Lemma reversed_index (n j k : nat) :
  (j < n)%nat -> (k < n)%nat ->
  ((n - (k + n - j) mod n) mod n = (j + n - k) mod n)%nat.
Proof.
  intros Hj Hk. rewrite (wrap_sub n k j Hk Hj), (wrap_sub n j k Hj Hk).
  destruct (j <=? k)%nat eqn:E1; destruct (k <=? j)%nat eqn:E2;
    try apply Nat.leb_le in E1; try apply Nat.leb_le in E2;
    try apply Nat.leb_gt in E1; try apply Nat.leb_gt in E2.
  - assert (j = k) by lia. subst k. rewrite !Nat.sub_diag, Nat.sub_0_r.
    apply Nat.Div0.mod_same.
  - replace (n - (k - j))%nat with (j + n - k)%nat by lia. apply Nat.mod_small. lia.
  - replace (n - (k + n - j))%nat with (j - k)%nat by lia. apply Nat.mod_small. lia.
  - lia.
Qed.

Lemma corr_sum_reversed (c a : vec R) :
  length c = length a -> corr_sum c a = conv_sum c (reversed_vector a).
Proof.
  intros HL. unfold corr_sum, conv_sum. apply map_ext_in. intros k Hk. apply in_seq in Hk.
  apply rsum_ext. intros j Hj. f_equal.
  rewrite nth_reversed_vector by (rewrite <- HL; apply Nat.mod_upper_bound; lia).
  rewrite <- HL. rewrite reversed_index by lia. reflexivity.
Qed.

Lemma reversed_vector_involutive (v : vec R) : reversed_vector (reversed_vector v) = v.
Proof. destruct v as [|x v]; [reflexivity|]. cbn [reversed_vector]. rewrite rev_involutive. reflexivity. Qed.

(** X9: Unbinding is binding with the reversed key, as the docstring of
    [_circular_corr_matrix] has it: [circular_correlation(c, a)] equals
    [circular_convolution] of [c] with [a[0]] followed by the rest of [a]
    reversed, in its result and in its failures. *)
Theorem correlation_is_convolution_with_reversed (c a : vec R) :
  circular_correlation c a = circular_convolution c (reversed_vector a).
Proof.
  unfold circular_correlation, circular_convolution. rewrite length_reversed_vector.
  destruct (length c =? length a)%nat eqn:L; cbn [negb]; [|reflexivity].
  apply Nat.eqb_eq in L.
  destruct (Nat.eq_dec (length c) 0) as [Z0 | Hn].
  - unfold fft_correlate, fft_convolve, rfft. rewrite Z0. reflexivity.
  - rewrite fft_correlate_sum by (exact L || lia).
    rewrite fft_convolve_sum by (rewrite ?length_reversed_vector; exact L || lia).
    rewrite corr_sum_reversed by exact L. reflexivity.
Qed.

(** X10: The matrix of [_circular_corr_matrix(v)], the transform of
    [unbinding_weights], takes [x] to the circular convolution of [x] with
    [v]: with the rows of [_circular_conv_matrix] rolled the way they are, the
    reversal turns its correlation into convolution. *)
Theorem corr_matrix_is_convolution (v x : vec R) :
  length x = length v ->
  matvec (_circular_corr_matrix v) x = conv_sum x v
  /\ ((0 < length v)%nat -> fft_convolve x v = Ok (matvec (_circular_corr_matrix v) x)).
Proof.
  intros HL.
  assert (E : matvec (_circular_corr_matrix v) x = conv_sum x v).
  { unfold _circular_corr_matrix.
    rewrite (proj1 (circulant_matrix_is_correlation (reversed_vector v) x
                      ltac:(rewrite length_reversed_vector; exact HL))).
    rewrite corr_sum_reversed by (rewrite length_reversed_vector; exact HL).
    rewrite reversed_vector_involutive. reflexivity. }
  split; [exact E|]. intros Hn. rewrite E. apply fft_convolve_sum; [exact HL | lia].
Qed.

Lemma corr_matrix_is_convolution_witness :
  matvec (_circular_corr_matrix [0; 1; 0]) [1; 0; 0] = conv_sum [1; 0; 0] [0; 1; 0]
  /\ ((0 < length [0; 1; 0])%nat ->
      fft_convolve [1; 0; 0] [0; 1; 0] = Ok (matvec (_circular_corr_matrix [0; 1; 0]) [1; 0; 0])).
Proof. apply (corr_matrix_is_convolution [0; 1; 0] [1; 0; 0]). reflexivity. Defined.

(** ** Shapes of the matrices *)

Section Shapes.
Context {A : Type} `{Scalar A}.

Lemma length_roll_any (v : vec A) (i : nat) : length (roll v i) = length v.
Proof.
  unfold roll. rewrite length_app, length_skipn, length_firstn.
  destruct (Nat.eq_dec (length v) 0) as [E | E].
  - rewrite E. reflexivity.
  - pose proof (Nat.mod_upper_bound i (length v) E). lia.
Qed.

Lemma shape_circular_conv_matrix (v : vec A) :
  shape (_circular_conv_matrix v) (length v) (length v).
Proof.
  unfold shape, _circular_conv_matrix. split.
  - rewrite length_map, length_seq. reflexivity.
  - apply Forall_forall. intros row Hr. apply in_map_iff in Hr.
    destruct Hr as [i [<- _]]. apply length_roll_any.
Qed.

Lemma length_reversed_any (v : vec A) : length (reversed_vector v) = length v.
Proof.
  destruct v as [|x v]; [reflexivity|]. cbn [reversed_vector length].
  rewrite length_rev. reflexivity.
Qed.

Lemma shape_circular_corr_matrix (v : vec A) :
  shape (_circular_corr_matrix v) (length v) (length v).
Proof.
  unfold _circular_corr_matrix. rewrite <- (length_reversed_any v).
  apply shape_circular_conv_matrix.
Qed.

Lemma shape_matmul (M N : matrix A) (rows inner cols : nat) :
  shape M rows inner -> shape N inner cols -> (0 < inner)%nat ->
  shape (matmul M N) rows cols.
Proof.
  intros [HM _] [HN HNr] Hi. unfold shape, matmul. split.
  - rewrite length_map. exact HM.
  - apply Forall_forall. intros row Hr. apply in_map_iff in Hr.
    destruct Hr as [r [<- _]]. rewrite length_map, length_seq.
    destruct N as [|n0 N]; [cbn in HN; lia|]. cbn [hd].
    inversion HNr; subst. reflexivity.
Qed.

Lemma length_matvec (M : matrix A) (x : vec A) : length (matvec M x) = length M.
Proof. apply length_map. Qed.

(** X11: The weight matrices have one row per target neuron and one column per
    source neuron: for a generator built from two well-formed encoders,
    [identity_weights], [binding_weights] and [unbinding_weights] all return
    an [n_tgt] by [n_src] matrix, through a [dim] by [dim] transform. *)
Theorem weight_matrix_shapes (encoder_src encoder_tgt : NeuralEncoder A)
    (gen : SemanticWeightGenerator A) (v : vec A) :
  encoder_wf encoder_src -> encoder_wf encoder_tgt ->
  SemanticWeightGenerator_init encoder_src encoder_tgt = Ok gen ->
  length v = enc_dim encoder_src ->
  shape (identity_weights gen) (n_neurons encoder_tgt) (n_neurons encoder_src)
  /\ shape (_circular_conv_matrix v) (enc_dim encoder_src) (enc_dim encoder_src)
  /\ shape (_circular_corr_matrix v) (enc_dim encoder_src) (enc_dim encoder_src)
  /\ exists W W',
       binding_weights gen v = Ok W /\ unbinding_weights gen v = Ok W'
       /\ shape W (n_neurons encoder_tgt) (n_neurons encoder_src)
       /\ shape W' (n_neurons encoder_tgt) (n_neurons encoder_src).
Proof.
  intros [Hns [Hds [Es Ds]]] [Hnt [Hdt [Et Dt]]] G Hv.
  unfold SemanticWeightGenerator_init in G.
  destruct (enc_dim encoder_src =? enc_dim encoder_tgt) eqn:E; cbn [negb] in G; [|discriminate].
  apply Nat.eqb_eq in E. injection G as <-.
  pose proof (shape_circular_conv_matrix v) as Sc.
  pose proof (shape_circular_corr_matrix v) as Sr.
  rewrite Hv in Sc, Sr. rewrite <- E in Et.
  split; [|split; [exact Sc|split; [exact Sr|]]].
  - unfold identity_weights. cbn [enc_src enc_tgt].
    apply (shape_matmul _ _ _ (enc_dim encoder_src)); [exact Et | exact Ds | lia].
  - unfold binding_weights, unbinding_weights. cbn [enc_src enc_tgt].
    rewrite Hv, Nat.eqb_refl. cbn [negb].
    eexists _, _. split; [reflexivity|]. split; [reflexivity|].
    split; apply (shape_matmul _ _ _ (enc_dim encoder_src)); try exact Ds; try lia;
      apply (shape_matmul _ _ _ (enc_dim encoder_src)); try exact Et; try lia; assumption.
Qed.

(** The constructor of the encoder checks the number of neurons first and
    the dimension second. *)
Lemma NeuralEncoder_init_cases (n d : nat) (randn : matrix A) (fit : matrix A -> matrix A) :
  ((n < 1)%nat -> NeuralEncoder_init n d randn fit = Raise (ValueError NoNeurons))
  /\ ((1 <= n)%nat -> (d < 2)%nat ->
      NeuralEncoder_init n d randn fit = Raise (ValueError BadDimensionality))
  /\ ((1 <= n)%nat -> (2 <= d)%nat ->
      NeuralEncoder_init n d randn fit
      = Ok {| n_neurons := n; enc_dim := d;
              encoders := map (fun row => vdiv row (vnorm row)) randn;
              decoders := fit (map (fun row => vdiv row (vnorm row)) randn) |}).
Proof.
  unfold NeuralEncoder_init. split; [|split].
  - intros Hn. apply Nat.ltb_lt in Hn. rewrite Hn. reflexivity.
  - intros Hn Hd. apply Nat.ltb_ge in Hn. apply Nat.ltb_lt in Hd. rewrite Hn, Hd. reflexivity.
  - intros Hn Hd. apply Nat.ltb_ge in Hn. apply Nat.ltb_ge in Hd. rewrite Hn, Hd. reflexivity.
Qed.
End Shapes.

Lemma weight_matrix_shapes_witness_encoder :
  encoder_wf {| n_neurons := 1; enc_dim := 2; encoders := [[1; 0]];
                decoders := [[1]; [0]] |}.
Proof.
  unfold encoder_wf, shape. cbn. repeat split; try lia; repeat constructor.
Qed.

Lemma weight_matrix_shapes_witness :
  let enc := {| n_neurons := 1; enc_dim := 2; encoders := [[1; 0]];
                decoders := [[1]; [0]] |} in
  let gen := {| enc_src := enc; enc_tgt := enc |} in
  shape (identity_weights gen) 1 1
  /\ shape (_circular_conv_matrix [0; 1]) 2 2
  /\ shape (_circular_corr_matrix [0; 1]) 2 2
  /\ exists W W',
       binding_weights gen [0; 1] = Ok W /\ unbinding_weights gen [0; 1] = Ok W'
       /\ shape W 1 1 /\ shape W' 1 1.
Proof.
  cbv zeta.
  apply (weight_matrix_shapes _ _ _ [0; 1]
           weight_matrix_shapes_witness_encoder weight_matrix_shapes_witness_encoder);
    reflexivity.
Defined.

(** ** The encoder *)

Lemma nth_map_any {T U : Type} (f : T -> U) (l : list T) (i : nat) (d : U) (d' : T) :
  (i < length l)%nat -> nth i (map f l) d = f (nth i l d').
Proof.
  intros Hi. rewrite (nth_indep _ d (f d')) by (rewrite length_map; exact Hi).
  apply map_nth.
Qed.

Lemma relu_Rmax (x : R) : relu x = Rmax 0 x.
Proof.
  unfold relu. cbn [sltb s0 R_scalar]. unfold Rmax.
  destruct (Rltb x 0) eqn:E; destruct (Rle_dec 0 x) as [L | L]; try reflexivity.
  - apply Rltb_true in E. lra.
  - apply Rltb_false in E. lra.
Qed.

Lemma vnorm_pos_unit_row (row : vec R) : 0 < vnorm row -> vnorm (vdiv row (vnorm row)) = 1.
Proof. apply vnorm_vdiv_self. Qed.

(** X12: The constructor leaves an encoder with [n_neurons] preferred directions
    of dimension [dim], each of norm 1, when the random matrix it draws has
    that shape and no zero row; it rejects fewer than one neuron and then a
    dimension below 2. *)
Theorem encoder_init_rows (n d : nat) (randn : matrix R) (fit : matrix R -> matrix R) :
  ((n < 1)%nat -> raises (NeuralEncoder_init n d randn fit) (ValueError NoNeurons))
  /\ ((1 <= n)%nat -> (d < 2)%nat ->
      raises (NeuralEncoder_init n d randn fit) (ValueError BadDimensionality))
  /\ ((1 <= n)%nat -> (2 <= d)%nat -> shape randn n d ->
      Forall (fun row => 0 < vnorm row) randn ->
      exists enc, NeuralEncoder_init n d randn fit = Ok enc
        /\ n_neurons enc = n /\ enc_dim enc = d
        /\ shape (encoders enc) n d
        /\ Forall (fun row => vnorm row = 1) (encoders enc)).
Proof.
  destruct (NeuralEncoder_init_cases n d randn fit) as [C1 [C2 C3]].
  split; [exact C1|]. split; [exact C2|].
  intros Hn Hd [Hr Hc] Hp. eexists. split; [exact (C3 Hn Hd)|].
  cbn [n_neurons enc_dim encoders]. split; [reflexivity|]. split; [reflexivity|].
  split; [split|].
  - rewrite length_map. exact Hr.
  - apply Forall_forall. intros row Hin. apply in_map_iff in Hin.
    destruct Hin as [r [<- Hin]]. rewrite length_vdiv.
    rewrite Forall_forall in Hc. apply Hc. exact Hin.
  - apply Forall_forall. intros row Hin. apply in_map_iff in Hin.
    destruct Hin as [r [<- Hin]]. apply vnorm_vdiv_self.
    rewrite Forall_forall in Hp. apply Hp. exact Hin.
Qed.

Lemma vnorm_3_4 : vnorm [3; 4] = 5.
Proof.
  unfold vnorm. cbn [dot sadd smul s0 R_scalar ssqrt].
  replace (3 * 3 + (4 * 4 + 0)) with (5 * 5) by ring. apply sqrt_square. lra.
Qed.

Lemma encoder_init_rows_witness :
  exists enc, NeuralEncoder_init 1 2 [[3; 4]] (fun _ => [[1]; [0]]) = Ok enc
    /\ n_neurons enc = 1%nat /\ enc_dim enc = 2%nat
    /\ shape (encoders enc) 1 2
    /\ Forall (fun row => vnorm row = 1) (encoders enc).
Proof.
  apply (proj2 (proj2 (encoder_init_rows 1 2 [[3; 4]] (fun _ => [[1]; [0]]))));
    [lia | lia | split; [reflexivity | repeat constructor] |].
  constructor; [rewrite vnorm_3_4; lra | constructor].
Defined.

(** X13: [encode] returns one firing rate per row of [encoders], none of them
    negative: rate [i] is [max(0, gain * dot(encoders[i], sp) + bias)].  With
    the default gain 1 and bias 0, unit preferred directions and a unit
    vector, every rate lies in [0, 1]. *)
Theorem encode_rates (self : NeuralEncoder R) (semantic_pointer : vec R) (gain bias : R)
    (rates : vec R) :
  encode self semantic_pointer gain bias = Ok rates ->
  length rates = length (encoders self)
  /\ Forall (fun rate => 0 <= rate) rates
  /\ (forall i, (i < length (encoders self))%nat ->
        nth i rates 0 = Rmax 0 (gain * dot (nth i (encoders self) []) semantic_pointer + bias))
  /\ (gain = 1 -> bias = 0 -> vnorm semantic_pointer = 1 ->
      Forall (fun row => length row = length semantic_pointer /\ vnorm row = 1)
             (encoders self) ->
      Forall (fun rate => 0 <= rate <= 1) rates).
Proof.
  unfold encode. destruct (negb (length semantic_pointer =? enc_dim self)%nat); [discriminate|].
  intros E. injection E as <-.
  split; [unfold matvec; rewrite !length_map; reflexivity|].
  split; [|split].
  - apply Forall_forall. intros rate Hin. apply in_map_iff in Hin.
    destruct Hin as [x [<- _]]. rewrite relu_Rmax. apply Rmax_l.
  - intros i Hi. unfold matvec.
    rewrite (nth_map_any relu _ i 0 0) by (rewrite !length_map; exact Hi).
    rewrite (nth_map_any _ _ i 0 0) by (rewrite length_map; exact Hi).
    rewrite (nth_map_any _ _ i 0 []) by exact Hi.
    rewrite relu_Rmax. reflexivity.
  - intros -> -> Hs Hrows. unfold matvec. rewrite !map_map.
    apply Forall_forall. intros rate Hin. apply in_map_iff in Hin.
    destruct Hin as [row [<- Hin]]. rewrite Forall_forall in Hrows.
    destruct (Hrows row Hin) as [Hl Hu].
    pose proof (dot_unit_bounds row semantic_pointer Hl Hu Hs) as B.
    rewrite relu_Rmax. cbn [sadd smul R_scalar]. unfold Rmax.
    destruct (Rle_dec 0 (1 * dot row semantic_pointer + 0)); lra.
Qed.

Lemma encode_rates_witness :
  length [1] = length [[1; 0]]
  /\ Forall (fun rate => 0 <= rate) [1]
  /\ (forall i, (i < length [[1; 0]])%nat ->
        nth i [1] 0 = Rmax 0 (1 * dot (nth i [[1; 0]] []) [1; 0] + 0))
  /\ (1 = 1 -> 0 = 0 -> vnorm [1; 0] = 1 ->
      Forall (fun row => length row = length [1; 0] /\ vnorm row = 1) [[1; 0]] ->
      Forall (fun rate => 0 <= rate <= 1) [1]).
Proof.
  apply (encode_rates {| n_neurons := 1; enc_dim := 2; encoders := [[1; 0]];
                         decoders := [[1]; [0]] |} [1; 0] 1 0 [1]).
  unfold encode. cbn [length enc_dim Nat.eqb negb encoders matvec map dot].
  rewrite relu_Rmax. cbn [sadd smul s0 R_scalar].
  replace (1 * (1 * 1 + (0 * 0 + 0)) + 0) with 1 by ring.
  rewrite Rmax_right by lra. reflexivity.
Defined.

(** ** The Hopfield matrix *)

Lemma nth_vadd (a b : vec R) (j : nat) :
  length a = length b -> nth j (vadd a b) 0 = nth j a 0 + nth j b 0.
Proof.
  revert b j. induction a as [|x a IH]; intros [|y b] j HL; try discriminate.
  - destruct j; cbn; ring.
  - destruct j as [|j]; cbn [vadd nth]; [reflexivity|]. apply IH. injection HL; auto.
Qed.

Lemma nth_madd (M N : matrix R) (i : nat) :
  length M = length N -> nth i (madd M N) [] = vadd (nth i M []) (nth i N []).
Proof.
  revert N i. induction M as [|r M IH]; intros [|s N] i HL; try discriminate.
  - destruct i; reflexivity.
  - destruct i as [|i]; cbn [madd nth]; [reflexivity|]. apply IH. injection HL; auto.
Qed.

Lemma shape_nth {A : Type} (M : matrix A) (rows cols i : nat) :
  shape M rows cols -> (i < rows)%nat -> length (nth i M []) = cols.
Proof.
  intros [HM Hr] Hi. rewrite Forall_forall in Hr. apply Hr. apply nth_In. lia.
Qed.

Lemma shape_madd (M N : matrix R) (rows cols : nat) :
  shape M rows cols -> shape N rows cols -> shape (madd M N) rows cols.
Proof.
  intros [HM HMr] [HN HNr]. subst rows. revert N HN HNr.
  induction HMr as [|r M Hr HMr IH]; intros [|s N] HN HNr; try discriminate.
  - split; [reflexivity | constructor].
  - inversion HNr as [|? ? Hs HNr']; subst. cbn [madd].
    destruct (IH N ltac:(injection HN; auto) HNr') as [L F].
    split; [cbn [length]; rewrite L; reflexivity|].
    constructor; [rewrite length_vadd; [reflexivity | congruence] | exact F].
Qed.

Lemma shape_outer (a b : vec R) : shape (outer a b) (length a) (length b).
Proof.
  unfold shape, outer. split; [apply length_map|].
  apply Forall_forall. intros row Hin. apply in_map_iff in Hin.
  destruct Hin as [x [<- _]]. apply length_map.
Qed.

Lemma nth_outer (a b : vec R) (i j : nat) :
  (i < length a)%nat -> (j < length b)%nat ->
  nth j (nth i (outer a b) []) 0 = nth i a 0 * nth j b 0.
Proof.
  intros Hi Hj. unfold outer.
  rewrite (nth_map_any _ a i [] 0) by exact Hi.
  rewrite (nth_map_any _ b j 0 0) by exact Hj. reflexivity.
Qed.

Lemma shape_mzeros (rows cols : nat) : shape (mzeros rows cols : matrix R) rows cols.
Proof.
  unfold shape, mzeros. split; [apply repeat_length|].
  apply Forall_forall. intros row Hin. apply repeat_spec in Hin. subst row.
  apply repeat_length.
Qed.

Lemma nth_mzeros (rows cols i j : nat) : nth j (nth i (mzeros rows cols) []) 0 = 0.
Proof.
  unfold mzeros. destruct (Nat.lt_ge_cases i rows) as [Hi | Hi].
  - rewrite (nth_indep _ [] (zeros cols)) by (rewrite repeat_length; exact Hi).
    rewrite nth_repeat. unfold zeros.
    destruct (Nat.lt_ge_cases j cols) as [Hj | Hj].
    + apply nth_repeat_lt. exact Hj.
    + apply nth_overflow. rewrite repeat_length. exact Hj.
  - rewrite (nth_overflow (repeat (zeros cols) rows) []) by (rewrite repeat_length; exact Hi).
    destruct j; reflexivity.
Qed.

Lemma hopfield_accumulate (d : nat) (entries : dict (vec R)) (W0 : matrix R) :
  Forall (fun entry => length (snd entry) = d) entries -> shape W0 d d ->
  shape (fold_left (fun W entry => madd W (outer (snd entry) (snd entry))) entries W0) d d
  /\ forall i j, (i < d)%nat -> (j < d)%nat ->
       nth j (nth i (fold_left (fun W entry => madd W (outer (snd entry) (snd entry)))
                               entries W0) []) 0
       = fold_left (fun acc entry => acc + nth i (snd entry) 0 * nth j (snd entry) 0)
                   entries (nth j (nth i W0 []) 0).
Proof.
  intros He. revert W0. induction He as [|[name v] entries Hv He IH]; intros W0 S0.
  - split; [exact S0 | intros; reflexivity].
  - cbn [snd] in Hv. cbn [fold_left snd].
    assert (So : shape (outer v v) d d) by (rewrite <- Hv; apply shape_outer).
    pose proof (shape_madd W0 (outer v v) d d S0 So) as S1.
    destruct (IH (madd W0 (outer v v)) S1) as [Sh Hn]. split; [exact Sh|].
    intros i j Hi Hj. rewrite (Hn i j Hi Hj). f_equal.
    rewrite nth_madd by (destruct S0 as [L0 _]; destruct So as [Lo _]; congruence).
    rewrite nth_vadd
      by (rewrite (shape_nth W0 d d i S0 Hi), (shape_nth (outer v v) d d i So Hi); reflexivity).
    rewrite nth_outer by (rewrite Hv; assumption). reflexivity.
Qed.

Lemma nth_set_nth (v : vec R) (k j : nat) (x : R) :
  (j < length v)%nat -> nth j (set_nth k x v) 0 = if (j =? k)%nat then x else nth j v 0.
Proof.
  revert k j. induction v as [|y v IH]; intros k j Hj; [cbn in Hj; lia|].
  destruct k as [|k]; destruct j as [|j]; cbn [set_nth nth Nat.eqb]; try reflexivity.
  apply IH. cbn in Hj. lia.
Qed.

Lemma length_set_nth (v : vec R) (k : nat) (x : R) : length (set_nth k x v) = length v.
Proof.
  revert k. induction v as [|y v IH]; intros [|k]; cbn [set_nth length];
    try reflexivity. rewrite IH. reflexivity.
Qed.

Lemma fill_diagonal_from_spec (M : matrix R) (start rows cols : nat) :
  shape M rows cols ->
  shape (fill_diagonal_from start M) rows cols
  /\ forall i j, (i < rows)%nat -> (j < cols)%nat ->
       nth j (nth i (fill_diagonal_from start M) []) 0
       = if (j =? start + i)%nat then 0 else nth j (nth i M []) 0.
Proof.
  intros [HM Hr]. subst rows. revert start.
  induction Hr as [|r M Hrow Hr IH]; intros start.
  - split; [split; [reflexivity | constructor]|]. intros i j Hi. cbn in Hi. lia.
  - destruct (IH (S start)) as [[L F] Hn]. cbn [fill_diagonal_from]. split.
    + split; [cbn [length]; rewrite L; reflexivity|].
      constructor; [rewrite length_set_nth; exact Hrow | exact F].
    + intros i j Hi Hj. destruct i as [|i]; cbn [nth].
      * rewrite nth_set_nth by (rewrite Hrow; exact Hj). rewrite Nat.add_0_r. reflexivity.
      * rewrite (Hn i j) by (cbn [length] in Hi; lia || exact Hj).
        replace (S start + i)%nat with (start + S i)%nat by lia. reflexivity.
Qed.

Lemma outer_sum_symmetric (entries : dict (vec R)) (i j : nat) :
  outer_sum entries i j = outer_sum entries j i.
Proof.
  unfold outer_sum.
  assert (G : forall acc,
    fold_left (fun acc entry => acc + nth i (snd entry) 0 * nth j (snd entry) 0) entries acc
    = fold_left (fun acc entry => acc + nth j (snd entry) 0 * nth i (snd entry) 0) entries acc).
  { induction entries as [|e entries IH]; intros acc; [reflexivity|].
    cbn [fold_left]. rewrite IH. f_equal. ring. }
  apply G.
Qed.

Lemma hopfield_entries (voc : SemanticVocabulary R) :
  vocab_wf voc ->
  shape (_compute_hopfield_weights voc) (vocab_dim voc) (vocab_dim voc)
  /\ forall i j, (i < vocab_dim voc)%nat -> (j < vocab_dim voc)%nat ->
       nth j (nth i (_compute_hopfield_weights voc) []) 0
       = if (i =? j)%nat then 0 else outer_sum (vectors voc) i j.
Proof.
  intros [_ Hwf]. unfold _compute_hopfield_weights, fill_diagonal.
  destruct (hopfield_accumulate (vocab_dim voc) (vectors voc)
              (mzeros (vocab_dim voc) (vocab_dim voc)) Hwf (shape_mzeros _ _)) as [Sh Hn].
  destruct (fill_diagonal_from_spec _ 0 _ _ Sh) as [Sf Hf].
  split; [exact Sf|]. intros i j Hi Hj. rewrite (Hf i j Hi Hj). cbn [Nat.add].
  rewrite (Nat.eqb_sym j i). destruct (i =? j)%nat; [reflexivity|].
  rewrite (Hn i j Hi Hj), nth_mzeros. reflexivity.
Qed.

(** X14: Building a cleanup memory: an empty vocabulary is rejected first and a
    threshold that is not positive second.  For a well-formed vocabulary the
    constructor returns a well-formed memory whose weight matrix is [dim] by
    [dim], zero on the diagonal, symmetric, and off the diagonal the sum over
    the vocabulary of [v[i] * v[j]]. *)
Theorem cleanup_memory_construction (vocabulary : SemanticVocabulary R) (thr : R) :
  (vectors vocabulary = [] ->
   raises (CleanupMemory_init vocabulary thr) (ValueError EmptyVocabulary))
  /\ (vectors vocabulary <> [] -> thr <= 0 ->
      raises (CleanupMemory_init vocabulary thr) (ValueError BadThreshold))
  /\ (vectors vocabulary <> [] -> 0 < thr -> vocab_wf vocabulary ->
      exists cm, CleanupMemory_init vocabulary thr = Ok cm
        /\ cm_wf cm /\ vocab cm = vocabulary /\ threshold cm = thr
        /\ shape (weights cm) (cm_dim cm) (cm_dim cm)
        /\ forall i j, (i < cm_dim cm)%nat -> (j < cm_dim cm)%nat ->
             nth j (nth i (weights cm) []) 0
             = (if (i =? j)%nat then 0 else outer_sum (vectors vocabulary) i j)
             /\ nth j (nth i (weights cm) []) 0 = nth i (nth j (weights cm) []) 0).
Proof.
  unfold raises, CleanupMemory_init. split; [|split].
  - intros ->. reflexivity.
  - intros Hne Ht. destruct (vectors vocabulary) as [|e l]; [contradiction|].
    cbn [length Nat.eqb sleb s0 R_scalar].
    assert (E : Rleb thr 0 = true) by (apply Rleb_true; exact Ht). rewrite E. reflexivity.
  - intros Hne Ht Hwf. destruct (vectors vocabulary) as [|e l] eqn:V; [contradiction|].
    cbn [length Nat.eqb sleb s0 R_scalar].
    assert (E : Rleb thr 0 = false) by (apply Rleb_false; exact Ht). rewrite E.
    eexists. split; [reflexivity|]. cbn [vocab cm_dim threshold weights].
    split; [split; [reflexivity | exact Hwf]|]. split; [reflexivity|]. split; [reflexivity|].
    destruct (hopfield_entries vocabulary Hwf) as [Sh Hn]. split; [exact Sh|].
    intros i j Hi Hj. rewrite (Hn i j Hi Hj), (Hn j i Hj Hi), V. split; [reflexivity|].
    rewrite (Nat.eqb_sym j i). destruct (i =? j)%nat; [reflexivity|].
    apply outer_sum_symmetric.
Qed.

Lemma cleanup_memory_construction_witness :
  exists cm, CleanupMemory_init voc_AB (1 / 1000) = Ok cm
    /\ cm_wf cm /\ vocab cm = voc_AB /\ threshold cm = 1 / 1000
    /\ shape (weights cm) (cm_dim cm) (cm_dim cm)
    /\ forall i j, (i < cm_dim cm)%nat -> (j < cm_dim cm)%nat ->
         nth j (nth i (weights cm) []) 0
         = (if (i =? j)%nat then 0 else outer_sum (vectors voc_AB) i j)
         /\ nth j (nth i (weights cm) []) 0 = nth i (nth j (weights cm) []) 0.
Proof.
  apply (proj2 (proj2 (cleanup_memory_construction voc_AB (1 / 1000)))).
  - discriminate.
  - lra.
  - exact voc_AB_wf.
Defined.

(** ** The settling loop *)

Lemma settle_flag {A : Type} `{Scalar A} (self : CleanupMemory A) (noisy_vector : vec A)
    (todo : nat) (iteration : Z) (x : vec A) (t t' : list (vec A)) :
  match settle self noisy_vector true todo iteration x t,
        settle self noisy_vector false todo iteration x t' with
  | Converged a _ i, Converged a' _ i' => a = a' /\ i = i'
  | Exhausted a _, Exhausted a' _ => a = a'
  | _, _ => False
  end.
Proof.
  revert iteration x t t'. induction todo as [|todo IH]; intros iteration x t t'.
  - reflexivity.
  - cbn [settle].
    destruct (sltb (vnorm (vsub (settle_step self noisy_vector x) x)) (threshold self)).
    + split; reflexivity.
    + apply IH.
Qed.

(** X15: The vector [cleanup] returns does not depend on [return_trajectory];
    with the trajectory requested it is the last entry of the trajectory,
    and the count is at least 1 once a pass is allowed. *)
Theorem cleanup_vector_is_last_state {A : Type} `{Scalar A}
    (self : CleanupMemory A) (noisy_vector : vec A) (max_iterations : Z) :
  length noisy_vector = cm_dim self ->
  exists x trajectory n,
    cleanup self noisy_vector true max_iterations = Ok (WithTrajectory x trajectory n)
    /\ cleanup self noisy_vector false max_iterations = Ok (Vector x)
    /\ last trajectory noisy_vector = x
    /\ ((1 <= max_iterations)%Z -> (1 <= n)%Z).
Proof.
  intros HL.
  assert (V : forall c c', cleanup self noisy_vector true max_iterations = Ok c ->
                cleanup self noisy_vector false max_iterations = Ok c' ->
                c' = Vector (cleaned_vector c)).
  { unfold cleanup. rewrite HL, Nat.eqb_refl. cbn [negb].
    pose proof (settle_flag self noisy_vector (Z.to_nat max_iterations) 0%Z noisy_vector
                  [noisy_vector] []) as F.
    destruct (settle self noisy_vector true _ _ _ _) as [a t i | a t];
      destruct (settle self noisy_vector false _ _ _ _) as [a' t' i' | a' t'];
      try contradiction; intros c c' E E'; injection E as <-; injection E' as <-.
    - destruct F as [-> _]. reflexivity.
    - rewrite F. reflexivity. }
  destruct (cleanup_succeeds self noisy_vector false max_iterations HL) as [c' E'].
  destruct (cleanup_cases self noisy_vector true max_iterations HL)
    as [[m [Hm [_ E]]] | [_ E]].
  - eexists _, _, _. split; [exact E|]. rewrite E', (V _ _ E E'). split; [reflexivity|].
    split; [|intros _; lia].
    destruct (trajectory_end self noisy_vector (S m) noisy_vector) as [front ->].
    apply last_last.
  - eexists _, _, _. split; [exact E|]. rewrite E', (V _ _ E E'). split; [reflexivity|].
    split; [|intros HK; exact HK].
    destruct (trajectory_end self noisy_vector (Z.to_nat max_iterations) noisy_vector)
      as [front ->].
    apply last_last.
Qed.

Lemma cleanup_vector_is_last_state_witness :
  exists x trajectory n,
    cleanup mem_A [1; 0] true 100 = Ok (WithTrajectory x trajectory n)
    /\ cleanup mem_A [1; 0] false 100 = Ok (Vector x)
    /\ last trajectory [1; 0] = x
    /\ ((1 <= 100)%Z -> (1 <= n)%Z).
Proof.
  apply (cleanup_vector_is_last_state mem_A [1; 0] 100). reflexivity.
Defined.

(** X16: The trajectory of [cleanup] is the orbit of the update, in every
    arithmetic: it starts with the input as given, and each later entry
    comes from the entry before it by one pass of the loop, [tanh(W @ x)]
    with every entry divided by its norm when that norm passes the test
    [norm > 1e-10], and the input with every entry divided by the norm of
    the input when it does not. *)
Theorem cleanup_trajectory_orbit {A : Type} `{Scalar A}
    (self : CleanupMemory A) (noisy_vector : vec A)
    (max_iterations : Z) (x : vec A) (trajectory : list (vec A)) (n : Z) :
  cleanup self noisy_vector true max_iterations = Ok (WithTrajectory x trajectory n) ->
  nth 0 trajectory [] = noisy_vector
  /\ forall i, (S i < length trajectory)%nat ->
       let raw := vtanh (matvec (weights self) (nth i trajectory [])) in
       nth (S i) trajectory []
       = if sgtb (ssqrt (dot raw raw)) sfloor
         then map (fun entry => sdiv entry (ssqrt (dot raw raw))) raw
         else map (fun entry => sdiv entry (ssqrt (dot noisy_vector noisy_vector)))
                  noisy_vector.
Proof.
  intros E.
  destruct (cleanup_trajectory_states self noisy_vector max_iterations x trajectory n E)
    as [k ->].
  split; [reflexivity|]. intros i Hi. cbn [length] in Hi.
  rewrite length_settle_states in Hi. cbv zeta.
  rewrite (nth_trajectory self noisy_vector k noisy_vector (S i)) by lia.
  rewrite (nth_trajectory self noisy_vector k noisy_vector i) by lia.
  rewrite settle_iter_snoc. reflexivity.
Qed.

Module IEEEOrbit.
Import Floats IEEE.

Lemma cleanup_trajectory_orbit_witness :
  let ieee := float_scalar (fun x => x) in
  let trajectory := [[3; 4]; [0x1.3333333333333p-1; 0x1.999999999999ap-1]]%float in
  nth 0 trajectory [] = [3; 4]%float
  /\ forall i, (S i < length trajectory)%nat ->
       let raw := @vtanh float ieee (matvec (weights float_mem_A) (nth i trajectory [])) in
       nth (S i) trajectory []
       = if @sgtb float ieee (ssqrt (dot raw raw)) sfloor
         then map (fun entry => @sdiv float ieee entry (ssqrt (dot raw raw))) raw
         else map (fun entry => @sdiv float ieee entry (ssqrt (dot [3; 4] [3; 4])))%float
                  [3; 4]%float.
Proof.
  intros ieee trajectory.
  apply (@cleanup_trajectory_orbit float ieee float_mem_A [3; 4]%float 1
           [0x1.3333333333333p-1; 0x1.999999999999ap-1]%float trajectory 1).
  vm_compute. reflexivity.
Defined.

End IEEEOrbit.

(** X17: A fixed point of the update is returned at the first iteration: when a
    pass of the loop maps the input to itself and the threshold is positive,
    [cleanup] returns the input with count 1. *)
Theorem cleanup_fixed_point (self : CleanupMemory R) (noisy_vector : vec R)
    (max_iterations : Z) :
  length noisy_vector = cm_dim self -> 0 < threshold self -> (1 <= max_iterations)%Z ->
  settle_step self noisy_vector noisy_vector = noisy_vector ->
  cleanup self noisy_vector true max_iterations
  = Ok (WithTrajectory noisy_vector [noisy_vector; noisy_vector] 1)
  /\ cleanup self noisy_vector false max_iterations = Ok (Vector noisy_vector).
Proof.
  intros HL Ht HK Hfix.
  assert (C : sltb (vnorm (vsub noisy_vector noisy_vector)) (threshold self) = true).
  { apply Rltb_true. unfold vnorm. rewrite vsub_self. cbn [ssqrt R_scalar].
    rewrite sqrt_0. exact Ht. }
  destruct (Z.to_nat max_iterations) as [|todo] eqn:T; [lia|].
  unfold cleanup. rewrite HL, Nat.eqb_refl, T. cbn [negb settle].
  rewrite Hfix, C. split; reflexivity.
Qed.

Lemma cleanup_fixed_point_witness :
  cleanup mem_A [1; 0] true 100 = Ok (WithTrajectory [1; 0] [[1; 0]; [1; 0]] 1)
  /\ cleanup mem_A [1; 0] false 100 = Ok (Vector [1; 0]).
Proof.
  apply (cleanup_fixed_point mem_A [1; 0] 100).
  - reflexivity.
  - cbn. lra.
  - lia.
  - rewrite mem_A_step, vnorm_1_0. apply vdiv_one.
Defined.

(** ** Vocabularies of basis vectors *)

Lemma outer_sum_basis (d : nat) (entries : dict (vec R)) (i j : nat) :
  Forall (fun entry => exists k, snd entry = basis d k) entries ->
  (i < d)%nat -> (j < d)%nat -> i <> j -> outer_sum entries i j = 0.
Proof.
  intros Hb Hi Hj Hne. unfold outer_sum.
  induction Hb as [|[name v] entries [k Hv] Hb IH]; [reflexivity|].
  cbn [fold_left snd]. cbn [snd] in Hv. subst v.
  rewrite (nth_basis d k i Hi), (nth_basis d k j Hj).
  destruct (Nat.eqb_spec i k) as [-> | Hik]; destruct (Nat.eqb_spec j k) as [-> | Hjk];
    try contradiction;
    match goal with
    | |- fold_left ?f entries ?acc = 0 => replace acc with 0 by ring
    end; exact IH.
Qed.

Lemma matrix_ext (M N : matrix R) (rows cols : nat) :
  shape M rows cols -> shape N rows cols ->
  (forall i j, (i < rows)%nat -> (j < cols)%nat ->
     nth j (nth i M []) 0 = nth j (nth i N []) 0) ->
  M = N.
Proof.
  intros SM SN Hn. apply (nth_ext M N [] []).
  - destruct SM as [-> _]. destruct SN as [-> _]. reflexivity.
  - intros i Hi. destruct SM as [LM FM] eqn:EM. clear EM. rewrite LM in Hi.
    apply (nth_ext _ _ 0 0).
    + rewrite (shape_nth M rows cols i (conj LM FM) Hi), (shape_nth N rows cols i SN Hi).
      reflexivity.
    + intros j Hj. rewrite (shape_nth M rows cols i (conj LM FM) Hi) in Hj.
      apply Hn; assumption.
Qed.

Lemma dot_zeros_l (n : nat) (x : vec R) : dot (zeros n) x = 0.
Proof.
  unfold zeros. revert x. induction n as [|n IH]; intros [|y x]; try reflexivity.
  cbn [repeat dot]. rewrite IH. cbn [sadd smul s0 R_scalar]. ring.
Qed.

Lemma matvec_mzeros (rows cols : nat) (x : vec R) :
  vtanh (matvec (mzeros rows cols) x) = zeros rows.
Proof.
  unfold matvec, mzeros, vtanh, zeros. induction rows as [|rows IH]; [reflexivity|].
  cbn [repeat map]. rewrite IH.
  change (repeat s0 cols) with (zeros cols : vec R). rewrite dot_zeros_l.
  cbn [stanh R_scalar]. rewrite tanh_0. reflexivity.
Qed.

(** X18: A vocabulary of standard basis vectors leaves nothing in the Hopfield
    matrix: the outer product of a basis vector with itself lies on the
    diagonal, which is cleared.  The memory built from it has the zero
    matrix, and [cleanup] with at least one iteration returns the input
    divided by its norm, whatever the vocabulary holds. *)
Theorem cleanup_basis_vocabulary (vocabulary : SemanticVocabulary R) (thr : R)
    (cm : CleanupMemory R) (noisy_vector : vec R) (return_trajectory : bool)
    (max_iterations : Z) (c : cleaned R) :
  vocab_wf vocabulary ->
  Forall (fun entry => exists k, snd entry = basis (vocab_dim vocabulary) k)
         (vectors vocabulary) ->
  CleanupMemory_init vocabulary thr = Ok cm ->
  (1 <= max_iterations)%Z ->
  cleanup cm noisy_vector return_trajectory max_iterations = Ok c ->
  weights cm = mzeros (vocab_dim vocabulary) (vocab_dim vocabulary)
  /\ cleaned_vector c = vdiv noisy_vector (vnorm noisy_vector).
Proof.
  intros Hwf Hb Hcm HK E.
  assert (W : weights cm = mzeros (vocab_dim vocabulary) (vocab_dim vocabulary)).
  { assert (Ew : weights cm = _compute_hopfield_weights vocabulary).
    { unfold CleanupMemory_init in Hcm.
      destruct (length (vectors vocabulary) =? 0)%nat; [discriminate|].
      destruct (sleb thr s0); [discriminate|]. injection Hcm as <-. reflexivity. }
    rewrite Ew. destruct (hopfield_entries vocabulary Hwf) as [Sh Hn].
    apply (matrix_ext _ _ _ _ Sh (shape_mzeros _ _)). intros i j Hi Hj.
    rewrite (Hn i j Hi Hj), nth_mzeros.
    destruct (Nat.eqb_spec i j) as [_ | Hne]; [reflexivity|].
    apply (outer_sum_basis (vocab_dim vocabulary)); assumption. }
  split; [exact W|].
  destruct (cleanup_result_is_step cm noisy_vector return_trajectory max_iterations c HK E)
    as [x ->].
  apply settle_step_degenerate. rewrite W, matvec_mzeros, vnorm_zeros.
  pose proof sfloor_pos. lra.
Qed.

Lemma cleanup_basis_vocabulary_witness :
  weights mem_A = mzeros (vocab_dim voc_A) (vocab_dim voc_A)
  /\ cleaned_vector (WithTrajectory [1; 0] [[1; 0]; [1; 0]] 1)
     = vdiv [1; 0] (vnorm [1; 0]).
Proof.
  apply (cleanup_basis_vocabulary voc_A (1 / 1000) mem_A [1; 0] true 1).
  - split; [cbn; lia | repeat constructor].
  - constructor; [exists 0%nat; reflexivity | constructor].
  - exact mem_A_built.
  - lia.
  - exact mem_A_cleanup.
Defined.

(** ** The nearest match *)

(** X19: What the scan of [find_nearest_match] returns, for a well-formed memory
    and a vector of its dimension: a similarity that no entry of the
    vocabulary exceeds; with it the name of the first entry that reaches it,
    when that similarity is above -1, and [None] with -1 when no entry is
    more similar than -1. *)
Theorem find_nearest_match_best (self : CleanupMemory R) (vector : vec R) :
  cm_wf self -> length vector = cm_dim self ->
  exists best s,
    find_nearest_match self vector = Ok (best, s)
    /\ (forall entry, In entry (vectors (vocab self)) -> dot vector (snd entry) <= s)
    /\ match best with
       | None => s = -1
       | Some name =>
           -1 < s /\
           exists before v after,
             vectors (vocab self) = before ++ (name, v) :: after
             /\ s = dot vector v
             /\ forall entry, In entry before -> dot vector (snd entry) < s
       end.
Proof.
  intros [Hd [_ Hwf]] HL. unfold find_nearest_match.
  rewrite HL, Nat.eqb_refl. cbn [negb sopp s1 R_scalar].
  assert (F : Forall (fun entry => length (snd entry) = length vector) (vectors (vocab self))).
  { apply Forall_impl with (2 := Hwf). intros entry E. rewrite E, HL, Hd. reflexivity. }
  destruct (nearest_scan_spec vector (vectors (vocab self)) None (-1) F)
    as [[E Hall] | [before [name [v [after [Hv [E [Hgt [Hb Ha]]]]]]]]].
  - exists None, (-1). split; [exact E|]. split; [exact Hall | reflexivity].
  - exists (Some name), (dot vector v). split; [exact E|]. split.
    + intros entry Hin. rewrite Hv in Hin. apply in_app_or in Hin.
      destruct Hin as [Hin | [<- | Hin]].
      * apply Rlt_le. apply Hb. exact Hin.
      * cbn [snd]. lra.
      * apply Ha. exact Hin.
    + split; [exact Hgt|]. exists before, v, after. split; [exact Hv|]. split; [reflexivity|].
      exact Hb.
Qed.

Lemma find_nearest_match_best_witness :
  exists best s,
    find_nearest_match mem_A [1; 0] = Ok (best, s)
    /\ (forall entry, In entry (vectors (vocab mem_A)) -> dot [1; 0] (snd entry) <= s)
    /\ match best with
       | None => s = -1
       | Some name =>
           -1 < s /\
           exists before v after,
             vectors (vocab mem_A) = before ++ (name, v) :: after
             /\ s = dot [1; 0] v
             /\ forall entry, In entry before -> dot [1; 0] (snd entry) < s
       end.
Proof.
  apply (find_nearest_match_best mem_A [1; 0]); [exact mem_A_wf | reflexivity].
Defined.

Module IEEERecall.
(* [add] is the method of the vocabulary, not the addition of floats. *)
Local Abbreviation vocabulary_add := add.
Import Floats IEEE.

(** X20: In binary64 a stored vector is not always recalled under its own
    name.  In the vocabulary of dimension 2 built by [add] of [N] as
    [[1, 1]] and of [R] as [[3, 3]], the two stored vectors differ in the
    last bit; the similarity of the vector stored under [N] with itself
    rounds below 1, its similarity with the vector stored under [R] rounds
    to 1, and [find_nearest_match] of the vector stored under [N] returns
    [R]. *)
Theorem find_nearest_match_misses_stored :
  let ieee := float_scalar (fun x => x) in
  exists voc cm stored_N stored_R,
    (do voc0 <- @SemanticVocabulary_init float 2;
     do ' (voc1, _) <- @vocabulary_add float ieee voc0 "N"%string (Some [1; 1]%float) [];
     do ' (voc2, _) <- @vocabulary_add float ieee voc1 "R"%string (Some [3; 3]%float) [];
     Ok voc2) = Ok voc
    /\ @CleanupMemory_init float ieee voc 0x1.0624dd2f1a9fcp-10%float = Ok cm
    /\ get voc "N"%string = Ok stored_N /\ get voc "R"%string = Ok stored_R
    /\ @cosine_similarity float ieee stored_N stored_N = Ok 0x1.ffffffffffffep-1%float
    /\ @cosine_similarity float ieee stored_N stored_R = Ok 1%float
    /\ @find_nearest_match float ieee cm stored_N = Ok (Some "R"%string, 1%float).
Proof.
  cbv zeta. eexists _, _, _, _.
  split; [vm_compute; reflexivity|]. split; [vm_compute; reflexivity|].
  split; [vm_compute; reflexivity|]. split; [vm_compute; reflexivity|].
  split; [vm_compute; reflexivity|]. split; vm_compute; reflexivity.
Qed.

End IEEERecall.

(** ** The command [spCleanup] of the server *)

Section ServerFacts.
Context {A : Type} `{Scalar A}.
Variable default_threshold : A.

Lemma length_normalize_any (v : vec A) : length (normalize v) = length v.
Proof. unfold normalize. cbv zeta. destruct (sgtb _ _); [apply length_map | reflexivity]. Qed.

Lemma length_madd (M N : matrix A) :
  length M = length N -> length (madd M N) = length M.
Proof.
  revert N. induction M as [|r M IH]; intros [|s N] HL; try discriminate; [reflexivity|].
  cbn [madd length]. rewrite IH by (injection HL; auto). reflexivity.
Qed.

Lemma length_fill_diagonal_from (i : nat) (M : matrix A) :
  length (fill_diagonal_from i M) = length M.
Proof.
  revert i. induction M as [|row M IH]; intros i; [reflexivity|].
  cbn [fill_diagonal_from length]. rewrite IH. reflexivity.
Qed.

(** The Hopfield matrix has as many rows as the vocabulary has dimensions. *)
Lemma length_hopfield_weights (voc : SemanticVocabulary A) :
  Forall (fun entry => length (snd entry) = vocab_dim voc) (vectors voc) ->
  length (_compute_hopfield_weights voc) = vocab_dim voc.
Proof.
  intros F. unfold _compute_hopfield_weights, fill_diagonal. cbv zeta.
  rewrite length_fill_diagonal_from.
  assert (G : forall W0 : matrix A, length W0 = vocab_dim voc ->
            length (fold_left (fun W entry => madd W (outer (snd entry) (snd entry)))
                              (vectors voc) W0) = vocab_dim voc).
  { induction F as [|entry entries He F IH]; intros W0 L0; [exact L0|].
    cbn [fold_left]. apply IH. rewrite length_madd; [exact L0|].
    unfold outer. rewrite length_map, L0. symmetry. exact He. }
  apply G. unfold mzeros. apply repeat_length.
Qed.

Lemma length_settle_step_any (self : CleanupMemory A) (noisy_vector x : vec A) :
  length (weights self) = length noisy_vector ->
  length (settle_step self noisy_vector x) = length noisy_vector.
Proof.
  intros HW. unfold settle_step. cbv zeta.
  destruct (sgtb _ _); unfold vdiv; rewrite length_map; [|reflexivity].
  unfold vtanh, matvec. rewrite !length_map. exact HW.
Qed.

Lemma length_settle_iter (self : CleanupMemory A) (noisy_vector : vec A) (k : nat) :
  length (weights self) = length noisy_vector ->
  length (settle_iter self noisy_vector k noisy_vector) = length noisy_vector.
Proof.
  intros HW. destruct k as [|k]; [reflexivity|].
  rewrite settle_iter_snoc. apply length_settle_step_any. exact HW.
Qed.

(** With the trajectory requested [cleanup] returns a triple, whose vector
    has the length of the input. *)
Lemma cleanup_returns_triple (self : CleanupMemory A) (noisy_vector : vec A)
    (max_iterations : Z) :
  length noisy_vector = cm_dim self -> length (weights self) = cm_dim self ->
  exists x trajectory n,
    cleanup self noisy_vector true max_iterations = Ok (WithTrajectory x trajectory n)
    /\ length x = length noisy_vector.
Proof.
  intros HL HW.
  assert (HW' : length (weights self) = length noisy_vector) by congruence.
  destruct (cleanup_cases self noisy_vector true max_iterations HL)
    as [[m [_ [_ E]]] | [_ E]]; eexists _, _, _; (split; [exact E|]);
    apply length_settle_iter; exact HW'.
Qed.

(** The scan goes through a dictionary piece by piece. *)
Lemma nearest_scan_app (vector : vec A) (front back : dict (vec A))
    (best_name : option string) (best_similarity : A) :
  nearest_scan vector (front ++ back) best_name best_similarity
  = do best <- nearest_scan vector front best_name best_similarity;
    nearest_scan vector back (fst best) (snd best).
Proof.
  revert best_name best_similarity.
  induction front as [|[name v] front IH]; intros best_name best_similarity.
  - reflexivity.
  - cbn [app nearest_scan].
    destruct (cosine_similarity vector v) as [similarity|e]; cbn [bind_result];
      [|reflexivity].
    destruct (sgtb similarity best_similarity); apply IH.
Qed.

Lemma the_cleanup_memory_ok (sp : SemanticPointer A) (name : string) :
  sp_ok sp -> contains (sp_vocab sp) name = true ->
  sleb default_threshold s0 = false ->
  exists sp' cm,
    the_cleanup_memory default_threshold sp = (sp', Ok cm)
    /\ sp_vocab sp' = sp_vocab sp /\ cleanup_memory sp' = Some cm
    /\ cm_dim cm = vocab_dim (sp_vocab sp) /\ length (weights cm) = cm_dim cm.
Proof.
  intros [Hwf Hm] Hin Hthr. unfold the_cleanup_memory.
  destruct (cleanup_memory sp) as [cm|] eqn:M.
  - exists sp, cm. destruct (Hm cm eq_refl) as [Hd Hs].
    split; [reflexivity|]. split; [reflexivity|]. split; [exact M|]. split; assumption.
  - unfold initialize_cleanup, CleanupMemory_init.
    destruct (vectors (sp_vocab sp)) as [|e l] eqn:V.
    + unfold contains, dict_mem in Hin. rewrite V in Hin. discriminate.
    + cbn [length Nat.eqb]. rewrite Hthr. cbn [cleanup_memory].
      eexists _, _. split; [reflexivity|]. cbn [sp_vocab cleanup_memory cm_dim weights].
      split; [reflexivity|]. split; [reflexivity|]. split; [reflexivity|].
      apply length_hopfield_weights. apply Hwf.
Qed.

(** X21: What [spCleanup] reports as the nearest match, in every arithmetic.
    The cleaned vector is added to the vocabulary, normalised once more by
    [add], before the nearest match is looked up, and the memory scans that
    same vocabulary: the stored copy of the result is the last candidate of
    the scan.  For a state with a well-formed vocabulary, a stored
    [noisy_name] and a new [result_name] the command succeeds and keeps the
    state well formed; it reports [result_name] itself as the nearest match
    exactly when the similarity of the cleaned vector with its stored copy
    passes the test [similarity > best_similarity] against the best of the
    entries that were there before, and that best entry otherwise. *)
Theorem spCleanup_scans_result (sp : SemanticPointer A) (noisy_name result_name : string)
    (max_iterations : Z) :
  sp_ok sp ->
  contains (sp_vocab sp) noisy_name = true ->
  contains (sp_vocab sp) result_name = false ->
  sleb default_threshold s0 = false ->
  exists sp' reply cm noisy_vec cleaned_vec trajectory old_best old_similarity,
    spCleanup default_threshold noisy_name result_name max_iterations sp = (sp', Ok reply)
    /\ sp_ok sp'
    /\ cleanup_memory sp' = Some cm
    /\ get (sp_vocab sp) noisy_name = Ok noisy_vec
    /\ cleanup (shared_memory sp cm) noisy_vec true max_iterations
       = Ok (WithTrajectory cleaned_vec trajectory (iterations reply))
    /\ trajectoryLength reply = length trajectory
    /\ cleanedVector reply = result_name
    /\ vectors (sp_vocab sp')
       = vectors (sp_vocab sp) ++ [(result_name, normalize cleaned_vec)]
    /\ nearest_scan cleaned_vec (vectors (sp_vocab sp)) None (sopp s1)
       = Ok (old_best, old_similarity)
    /\ (nearestMatch reply, reply_similarity reply)
       = (if sgtb (dot cleaned_vec (normalize cleaned_vec)) old_similarity
          then (Some result_name, dot cleaned_vec (normalize cleaned_vec))
          else (old_best, old_similarity)).
Proof.
  intros Hok Hin Hnew Hthr.
  destruct (the_cleanup_memory_ok sp noisy_name Hok Hin Hthr)
    as [sp1 [cm [E1 [V1 [M1 [Hd Hs]]]]]].
  destruct Hok as [Hwf Hm].
  destruct (get_wf (sp_vocab sp) noisy_name Hwf Hin) as [noisy_vec [Eg HL]].
  assert (Esh : shared_memory sp1 cm = shared_memory sp cm)
    by (unfold shared_memory; rewrite V1; reflexivity).
  destruct (cleanup_returns_triple (shared_memory sp cm) noisy_vec max_iterations)
    as [cleaned_vec [trajectory [n_iters [Ec Lc]]]].
  { cbn [shared_memory cm_dim]. rewrite Hd. exact HL. }
  { cbn [shared_memory cm_dim weights]. exact Hs. }
  assert (Hcl : length cleaned_vec = vocab_dim (sp_vocab sp)) by (rewrite Lc; exact HL).
  pose (stored := normalize cleaned_vec).
  pose (voc2 := {| vocab_dim := vocab_dim (sp_vocab sp);
                   vectors := vectors (sp_vocab sp) ++ [(result_name, stored)] |}).
  assert (Eadd : add (sp_vocab sp) result_name (Some cleaned_vec) [] = Ok (voc2, stored)).
  { unfold add. unfold contains in Hnew. rewrite Hnew, Hcl, Nat.eqb_refl.
    cbn [negb bind_result]. rewrite (dict_set_absent _ _ _ Hnew). reflexivity. }
  assert (Hold : Forall (fun entry => length (snd entry) = length cleaned_vec)
                        (vectors (sp_vocab sp))).
  { destruct Hwf as [_ Hwf]. apply Forall_impl with (2 := Hwf).
    intros entry He. rewrite He, Hcl. reflexivity. }
  destruct (nearest_scan_succeeds cleaned_vec (vectors (sp_vocab sp)) None (sopp s1) Hold)
    as [[old_best old_similarity] Eold].
  assert (Ef : find_nearest_match {| vocab := voc2; cm_dim := cm_dim cm;
                                     threshold := threshold cm; weights := weights cm |}
                                  cleaned_vec
               = Ok (if sgtb (dot cleaned_vec stored) old_similarity
                     then (Some result_name, dot cleaned_vec stored)
                     else (old_best, old_similarity))).
  { unfold find_nearest_match. cbn [cm_dim vocab]. rewrite Hcl, Hd, Nat.eqb_refl.
    cbn [negb vectors voc2]. rewrite nearest_scan_app, Eold. cbn [bind_result fst snd].
    cbn [nearest_scan]. unfold cosine_similarity, stored.
    rewrite length_normalize_any, Nat.eqb_refl. cbn [bind_result].
    destruct (sgtb _ _); reflexivity. }
  eexists _, _, cm, noisy_vec, cleaned_vec, trajectory, old_best, old_similarity. split.
  { unfold spCleanup, and_then, vocab_contains, throw, vocab_get, memory_call, vocab_add, ret.
    rewrite Hin. cbn [negb]. rewrite E1, V1, Eg, Esh, Ec.
    cbn [with_trajectory]. rewrite V1, Eadd. unfold shared_memory at 1. cbn [sp_vocab].
    rewrite Ef. reflexivity. }
  cbn [sp_vocab cleanedVector reply_similarity nearestMatch fst snd cleanup_memory
       iterations trajectoryLength].
  split.
  { split.
    - split; [apply Hwf|]. cbn [voc2 vectors vocab_dim]. apply Forall_app. split.
      + apply Hwf.
      + constructor; [|constructor]. cbn [snd]. unfold stored.
        rewrite length_normalize_any. exact Hcl.
    - intros cm' Hcm'. rewrite M1 in Hcm'. injection Hcm' as <-. cbn [vocab_dim voc2].
      split; [exact Hd | exact Hs]. }
  split; [exact M1|]. split; [exact Eg|]. split; [exact Ec|].
  split; [reflexivity|]. split; [reflexivity|]. split; [reflexivity|].
  split; [exact Eold|]. unfold stored. destruct (sgtb _ _); reflexivity.
Qed.

End ServerFacts.

Module IEEEServer.
Import Floats IEEE.

(** In binary64, a state of dimension 2 whose vocabulary holds [A] as
    [[1, 0]], before any cleanup: the command cleans [A] into [A_cleaned]. *)
Lemma spCleanup_scans_result_witness :
  let ieee := float_scalar (fun x => x) in
  let default_threshold := 0x1.0624dd2f1a9fcp-10%float in
  let sp := {| sp_vocab := vocab float_mem_A; sp_encoders := []; sp_dim := 2;
               sp_n_neurons := 40; cleanup_memory := None |} in
  exists sp' reply cm noisy_vec cleaned_vec trajectory old_best old_similarity,
    @spCleanup float ieee default_threshold "A"%string "A_cleaned"%string 100 sp = (sp', Ok reply)
    /\ sp_ok sp'
    /\ cleanup_memory sp' = Some cm
    /\ get (sp_vocab sp) "A"%string = Ok noisy_vec
    /\ @cleanup float ieee (shared_memory sp cm) noisy_vec true 100
       = Ok (WithTrajectory cleaned_vec trajectory (iterations reply))
    /\ trajectoryLength reply = length trajectory
    /\ cleanedVector reply = "A_cleaned"%string
    /\ vectors (sp_vocab sp')
       = vectors (sp_vocab sp) ++ [("A_cleaned"%string, @normalize float ieee cleaned_vec)]
    /\ @nearest_scan float ieee cleaned_vec (vectors (sp_vocab sp)) None (@sopp float ieee s1)
       = Ok (old_best, old_similarity)
    /\ (nearestMatch reply, reply_similarity reply)
       = (if @sgtb float ieee (dot cleaned_vec (normalize cleaned_vec)) old_similarity
          then (Some "A_cleaned"%string, @dot float ieee cleaned_vec (normalize cleaned_vec))
          else (old_best, old_similarity)).
Proof.
  intros ieee default_threshold sp.
  apply (@spCleanup_scans_result float ieee default_threshold sp "A"%string "A_cleaned"%string 100).
  - split; [split; [cbn; lia | repeat constructor] | discriminate].
  - reflexivity.
  - reflexivity.
  - reflexivity.
Defined.

End IEEEServer.

(** ** What the FFT pipelines compute *)

(** X22: [circular_convolution] through the transforms is circular convolution:
    entry [m] of the result before normalisation is the sum over [j] of
    [a[j] * b[(m - j) mod n]].  Arrays of different lengths are rejected,
    and so are two empty arrays, by [np.fft.rfft]. *)
Theorem circular_convolution_computes (a b : vec R) :
  (length a <> length b ->
   raises (circular_convolution a b) (ValueError DimensionMismatch))
  /\ (a = [] -> b = [] -> raises (circular_convolution a b) (ValueError InvalidFFTPoints))
  /\ (length a = length b -> (0 < length a)%nat ->
      exists raw,
        fft_convolve a b = Ok raw
        /\ circular_convolution a b = Ok (normalize raw)
        /\ length raw = length a
        /\ forall m, (m < length a)%nat ->
             nth m raw 0
             = rsum (length a)
                 (fun j => nth j a 0 * nth ((m + length a - j) mod length a) b 0)).
Proof.
  split; [|split].
  - intros Hne. unfold raises, circular_convolution.
    destruct (Nat.eqb_spec (length a) (length b)) as [E | _]; [contradiction | reflexivity].
  - intros -> ->. reflexivity.
  - intros HL Hn. exists (conv_sum a b).
    assert (E : fft_convolve a b = Ok (conv_sum a b)).
    { unfold fft_convolve. rewrite (rfft_ok a Hn). rewrite (rfft_ok b) by lia.
      cbn [bind_result].
      apply irfft_rfft_convolution; [exact HL | apply rfft_ok; exact Hn | apply rfft_ok; lia]. }
    split; [exact E|]. split.
    + unfold circular_convolution. rewrite HL, Nat.eqb_refl. cbn [negb].
      rewrite E. reflexivity.
    + split; [apply length_conv_sum|]. intros m Hm. apply nth_conv_sum. exact Hm.
Qed.

Lemma circular_convolution_computes_witness :
  exists raw,
    fft_convolve [1; 0] [0; 1] = Ok raw
    /\ circular_convolution [1; 0] [0; 1] = Ok (normalize raw)
    /\ length raw = length [1; 0]
    /\ forall m, (m < length [1; 0])%nat ->
         nth m raw 0
         = rsum (length [1; 0])
             (fun j => nth j [1; 0] 0 * nth ((m + length [1; 0] - j) mod length [1; 0]) [0; 1] 0).
Proof.
  apply (proj2 (proj2 (circular_convolution_computes [1; 0] [0; 1]))).
  - reflexivity.
  - cbn. lia.
Defined.

(** X23: [circular_correlation] through the transforms is circular correlation:
    entry [m] of the result before normalisation is the sum over [j] of
    [c[j] * a[(j - m) mod n]]. *)
Theorem circular_correlation_computes (c a : vec R) :
  (length c <> length a ->
   raises (circular_correlation c a) (ValueError DimensionMismatch))
  /\ (c = [] -> a = [] -> raises (circular_correlation c a) (ValueError InvalidFFTPoints))
  /\ (length c = length a -> (0 < length c)%nat ->
      exists raw,
        fft_correlate c a = Ok raw
        /\ circular_correlation c a = Ok (normalize raw)
        /\ length raw = length c
        /\ forall m, (m < length c)%nat ->
             nth m raw 0
             = rsum (length c)
                 (fun j => nth j c 0 * nth ((j + length c - m) mod length c) a 0)).
Proof.
  split; [|split].
  - intros Hne. unfold raises, circular_correlation.
    destruct (Nat.eqb_spec (length c) (length a)) as [E | _]; [contradiction | reflexivity].
  - intros -> ->. reflexivity.
  - intros HL Hn. exists (corr_sum c a).
    assert (E : fft_correlate c a = Ok (corr_sum c a)).
    { unfold fft_correlate. rewrite (rfft_ok c Hn). rewrite (rfft_ok a) by lia.
      cbn [bind_result].
      apply irfft_rfft_correlation; [exact HL | apply rfft_ok; exact Hn | apply rfft_ok; lia]. }
    split; [exact E|]. split.
    + unfold circular_correlation. rewrite HL, Nat.eqb_refl. cbn [negb].
      rewrite E. reflexivity.
    + split; [apply length_corr_sum|]. intros m Hm. apply nth_corr_sum. exact Hm.
Qed.

Lemma circular_correlation_computes_witness :
  exists raw,
    fft_correlate [1; 0] [0; 1] = Ok raw
    /\ circular_correlation [1; 0] [0; 1] = Ok (normalize raw)
    /\ length raw = length [1; 0]
    /\ forall m, (m < length [1; 0])%nat ->
         nth m raw 0
         = rsum (length [1; 0])
             (fun j => nth j [1; 0] 0 * nth ((j + length [1; 0] - m) mod length [1; 0]) [0; 1] 0).
Proof.
  apply (proj2 (proj2 (circular_correlation_computes [1; 0] [0; 1]))).
  - reflexivity.
  - cbn. lia.
Defined.

(** ** Associativity of binding *)

Lemma rsum_split (p q : nat) (f : nat -> R) :
  rsum (p + q) f = rsum p f + rsum q (fun i => f (p + i)%nat).
Proof.
  induction q as [|q IH].
  - rewrite Nat.add_0_r. simpl. lra.
  - replace (p + S q)%nat with (S (p + q)) by lia. simpl. rewrite IH. lra.
Qed.

(** A sum over all indices does not change under a cyclic shift of them. *)
Lemma rsum_rotate (n s : nat) (f : nat -> R) :
  (s <= n)%nat -> rsum n (fun j => f ((j + s) mod n)%nat) = rsum n f.
Proof.
  intros Hs.
  transitivity (rsum (n - s + s) (fun j => f ((j + s) mod n)%nat));
    [f_equal; lia|].
  transitivity (rsum (s + (n - s)) f); [|f_equal; lia].
  rewrite !rsum_split.
  rewrite (rsum_ext (n - s) _ (fun i => f (s + i)%nat)).
  2:{ intros j Hj. rewrite Nat.mod_small by lia. f_equal. lia. }
  rewrite (rsum_ext s (fun i => f ((n - s + i + s) mod n)%nat) f).
  2:{ intros i Hi. f_equal. replace (n - s + i + s)%nat with (i + 1 * n)%nat by lia.
      rewrite Nat.Div0.mod_add. apply Nat.mod_small. lia. }
  lra.
Qed.

Lemma assoc_index (n m i j : nat) :
  (m < n)%nat -> (i < n)%nat -> (j < n)%nat ->
  (((m + n - i) mod n + n - (j + (n - i)) mod n) mod n = (m + n - j) mod n)%nat.
Proof.
  intros Hm Hi Hj.
  replace (j + (n - i))%nat with (j + n - i)%nat by lia.
  rewrite (wrap_sub n m i Hm Hi), (wrap_sub n j i Hj Hi), (wrap_sub n m j Hm Hj).
  destruct (Nat.leb_spec i m); destruct (Nat.leb_spec i j); destruct (Nat.leb_spec j m);
    try lia;
    match goal with
    | |- ((?A + n - ?B) mod n = _)%nat =>
        rewrite (wrap_sub n A B) by lia; destruct (Nat.leb_spec B A); lia
    end.
Qed.

(** Circular convolution, as the sum over the indices, is associative. *)
Lemma conv_sum_assoc (a b c : vec R) :
  length a = length b -> length b = length c ->
  conv_sum (conv_sum a b) c = conv_sum a (conv_sum b c).
Proof.
  intros Hab Hbc. apply (nth_ext _ _ 0 0).
  - rewrite !length_conv_sum. reflexivity.
  - intros m Hm. rewrite !length_conv_sum in Hm.
    rewrite nth_conv_sum by (rewrite length_conv_sum; exact Hm).
    rewrite (nth_conv_sum a (conv_sum b c) m Hm). rewrite length_conv_sum.
    set (n := length a) in *.
    rewrite (rsum_ext n _ (fun j => rsum n (fun i =>
               nth i a 0 * (nth ((j + n - i) mod n) b 0 * nth ((m + n - j) mod n) c 0)))).
    2:{ intros j Hj. rewrite (nth_conv_sum a b j Hj). fold n.
        rewrite <- rsum_scal_r. apply rsum_ext. intros i _. ring. }
    rewrite rsum_swap. apply rsum_ext. intros i Hi.
    rewrite rsum_scal. f_equal.
    rewrite nth_conv_sum by (rewrite <- Hab; apply Nat.mod_upper_bound; lia).
    rewrite <- Hab. fold n.
    rewrite <- (rsum_rotate n (n - i)
                  (fun l => nth l b 0 * nth (((m + n - i) mod n + n - l) mod n) c 0))
      by lia.
    apply rsum_ext. intros j Hj.
    rewrite (assoc_index n m i j Hm Hi Hj).
    replace (j + (n - i))%nat with (j + n - i)%nat by lia. reflexivity.
Qed.

Lemma nth_vdiv (v : vec R) (k : R) (j : nat) : nth j (vdiv v k) 0 = nth j v 0 / k.
Proof.
  unfold vdiv. revert j. induction v as [|x v IH]; intros [|j]; cbn [map nth sdiv R_scalar];
    try (unfold Rdiv; ring); try reflexivity. apply IH.
Qed.

Lemma conv_sum_vdiv_l (a b : vec R) (k : R) :
  conv_sum (vdiv a k) b = vdiv (conv_sum a b) k.
Proof.
  apply (nth_ext _ _ 0 0).
  - rewrite length_vdiv, !length_conv_sum, length_vdiv. reflexivity.
  - intros m Hm. rewrite length_conv_sum, length_vdiv in Hm.
    rewrite nth_vdiv, nth_conv_sum by (rewrite length_vdiv; exact Hm).
    rewrite (nth_conv_sum a b m Hm), length_vdiv.
    unfold Rdiv. rewrite <- rsum_scal_r. apply rsum_ext. intros j _.
    rewrite nth_vdiv. unfold Rdiv. ring.
Qed.

Lemma conv_sum_vdiv_r (a b : vec R) (k : R) :
  conv_sum a (vdiv b k) = vdiv (conv_sum a b) k.
Proof.
  apply (nth_ext _ _ 0 0).
  - rewrite length_vdiv, !length_conv_sum. reflexivity.
  - intros m Hm. rewrite length_conv_sum in Hm.
    rewrite nth_vdiv, !nth_conv_sum by exact Hm.
    unfold Rdiv. rewrite <- rsum_scal_r. apply rsum_ext. intros j _.
    rewrite nth_vdiv. unfold Rdiv. ring.
Qed.

(** A result of norm 1 has been normalised. *)
Lemma normalize_unit_inv (v : vec R) :
  vnorm (normalize v) = 1 -> 0 < vnorm v /\ normalize v = vdiv v (vnorm v).
Proof.
  intros E. destruct (Rlt_le_dec sfloor (vnorm v)) as [Hab | Hbe].
  - split; [pose proof sfloor_pos; lra | apply normalize_above; exact Hab].
  - rewrite (normalize_below v Hbe) in E. pose proof sfloor_lt_1. lra.
Qed.

Lemma normalize_scaled_unit (v : vec R) (k : R) :
  0 < k -> vnorm (normalize (vdiv v k)) = 1 ->
  0 < vnorm v /\ normalize (vdiv v k) = vdiv v (vnorm v).
Proof.
  intros Hk E. destruct (normalize_unit_inv _ E) as [Hpos ->].
  rewrite (vnorm_vdiv v k Hk) in *.
  assert (Hv : 0 < vnorm v).
  { apply Rmult_lt_reg_r with (r := / k); [apply Rinv_0_lt_compat; exact Hk|].
    rewrite Rmult_0_l. exact Hpos. }
  split; [exact Hv|]. unfold vdiv. rewrite map_map. apply map_ext. intros x.
  cbn [sdiv R_scalar]. field. split; lra.
Qed.

Lemma circular_convolution_inv (a b r : vec R) :
  circular_convolution a b = Ok r ->
  length a = length b /\ (0 < length a)%nat /\ r = normalize (conv_sum a b).
Proof.
  intros E.
  assert (HL : length a = length b).
  { unfold circular_convolution in E.
    destruct (Nat.eqb_spec (length a) (length b)) as [HL | _]; [exact HL | discriminate]. }
  assert (Hn : (0 < length a)%nat).
  { destruct a as [|x a]; [|cbn; lia]. destruct b as [|y b]; discriminate. }
  split; [exact HL|]. split; [exact Hn|].
  rewrite (circular_convolution_sum a b HL Hn) in E. congruence.
Qed.

(** X24: Binding is associative in exact arithmetic, normalisation included:
    when the four bindings of [(a * b) * c] and [a * (b * c)] return unit
    vectors, that is, when none of them falls back to its result as it is,
    the two groupings return the same vector. *)
Theorem bind_associative (a b c ab bc left_first right_first : vec R) :
  circular_convolution a b = Ok ab -> circular_convolution ab c = Ok left_first ->
  circular_convolution b c = Ok bc -> circular_convolution a bc = Ok right_first ->
  vnorm ab = 1 -> vnorm bc = 1 -> vnorm left_first = 1 -> vnorm right_first = 1 ->
  left_first = right_first.
Proof.
  intros Eab El Ebc Er Nab Nbc Nl Nr.
  destruct (circular_convolution_inv a b ab Eab) as [Lab [Hn Hab]].
  destruct (circular_convolution_inv b c bc Ebc) as [Lbc [_ Hbc]].
  destruct (circular_convolution_inv ab c _ El) as [_ [_ Hl]].
  destruct (circular_convolution_inv a bc _ Er) as [_ [_ Hr]].
  rewrite Hab in Nab. destruct (normalize_unit_inv _ Nab) as [Pab Fab].
  rewrite Hbc in Nbc. destruct (normalize_unit_inv _ Nbc) as [Pbc Fbc].
  rewrite Hab, Fab, conv_sum_vdiv_l in Hl.
  rewrite Hbc, Fbc, conv_sum_vdiv_r in Hr.
  rewrite Hl in Nl. destruct (normalize_scaled_unit _ _ Pab Nl) as [_ Fl].
  rewrite Hr in Nr. destruct (normalize_scaled_unit _ _ Pbc Nr) as [_ Fr].
  rewrite Hl, Fl, Hr, Fr, (conv_sum_assoc a b c Lab Lbc). reflexivity.
Qed.

Lemma conv_sum_10_10 : conv_sum [1; 0] [1; 0] = [1; 0].
Proof.
  unfold conv_sum. cbn. repeat (apply (f_equal2 cons); [ring|]). reflexivity.
Qed.

Lemma bind_10_10 : circular_convolution [1; 0] [1; 0] = Ok [1; 0].
Proof.
  rewrite circular_convolution_sum by (cbn; lia).
  rewrite conv_sum_10_10, (normalize_of_unit _ vnorm_1_0). reflexivity.
Qed.

Lemma bind_associative_witness : ([1; 0] : vec R) = [1; 0].
Proof.
  apply (bind_associative [1; 0] [1; 0] [1; 0] [1; 0] [1; 0] [1; 0] [1; 0]);
    try exact bind_10_10; exact vnorm_1_0.
Defined.

(** ** Superposition of orthonormal vectors *)

Lemma dot_vadd_l (a b c : vec R) :
  length a = length b -> dot (vadd a b) c = dot a c + dot b c.
Proof.
  revert b c. induction a as [|x a IH]; intros [|y b] c HL; try discriminate.
  - cbn. ring.
  - destruct c as [|z c]; cbn [vadd dot]; [cbn; ring|].
    rewrite IH by (injection HL; auto). cbn [sadd smul R_scalar]. ring.
Qed.

Lemma dot_vsum_l (first : vec R) (rest : list (vec R)) (c : vec R) :
  Forall (fun v => length v = length first) rest ->
  dot (vsum first rest) c = fold_right Rplus 0 (map (fun r => dot r c) (first :: rest)).
Proof.
  revert first. induction rest as [|v rest IH]; intros first Hr.
  - cbn. ring.
  - inversion Hr as [|? ? Hv Hrest]; subst. cbn [vsum].
    rewrite IH by (rewrite length_vadd by (symmetry; exact Hv); exact Hrest).
    cbn [map fold_right]. rewrite dot_vadd_l by (symmetry; exact Hv). ring.
Qed.

(** In an orthonormal family the dot products with one member sum to 1. *)
Lemma orthonormal_row (vs : list (vec R)) (v : vec R) :
  Forall (fun x => vnorm x = 1) vs ->
  ForallOrdPairs (fun a b => dot a b = 0) vs ->
  In v vs ->
  fold_right Rplus 0 (map (fun r => dot r v) vs) = 1.
Proof.
  intros Hu Ho Hin. revert Hu Hin.
  induction Ho as [|x l Hx Ho IH]; intros Hu Hin; [destruct Hin|].
  inversion Hu as [|? ? Ux Ul]; subst. cbn [map fold_right].
  rewrite Forall_forall in Hx. destruct Hin as [<- | Hin].
  - rewrite (dot_self_unit x Ux).
    assert (Z : fold_right Rplus 0 (map (fun r => dot r x) l) = 0).
    { clear IH Ho Ul Hu. induction l as [|r l IHl]; [reflexivity|].
      cbn [map fold_right]. rewrite IHl by (intros y Hy; apply Hx; right; exact Hy).
      rewrite dot_comm, (Hx r) by (left; reflexivity). ring. }
    rewrite Z. ring.
  - rewrite (Hx v Hin), (IH Ul Hin). ring.
Qed.

Lemma fold_right_ones {T : Type} (f : T -> R) (l : list T) :
  (forall x, In x l -> f x = 1) -> fold_right Rplus 0 (map f l) = INR (length l).
Proof.
  intros Hf. induction l as [|x l IH]; [reflexivity|].
  cbn [map fold_right length]. rewrite S_INR, IH by (intros y Hy; apply Hf; right; exact Hy).
  rewrite (Hf x) by (left; reflexivity). ring.
Qed.

(** X25: The superposition of [k] orthonormal vectors is a unit vector whose
    similarity to each of them is [1 / sqrt k]. *)
Theorem superposition_orthonormal (vs : list (vec R)) (v : vec R) (n : nat) :
  Forall (fun x => length x = n /\ vnorm x = 1) vs ->
  ForallOrdPairs (fun a b => dot a b = 0) vs ->
  In v vs ->
  exists s, superposition vs = Ok s /\ vnorm s = 1
    /\ cosine_similarity s v = Ok (1 / sqrt (INR (length vs))).
Proof.
  intros Hvs Ho Hin.
  assert (Hu : Forall (fun x => vnorm x = 1) vs)
    by (apply Forall_impl with (2 := Hvs); intros x [_ E]; exact E).
  assert (Hl : forall x, In x vs -> length x = n)
    by (rewrite Forall_forall in Hvs; intros x Hx; apply (Hvs x Hx)).
  destruct vs as [|first rest]; [destruct Hin|].
  assert (Hrest : Forall (fun x => length x = length first) rest).
  { apply Forall_forall. intros x Hx.
    rewrite (Hl x) by (right; exact Hx). rewrite (Hl first) by (left; reflexivity).
    reflexivity. }
  set (s := vsum first rest).
  assert (Ds : forall w, In w (first :: rest) -> dot s w = 1).
  { intros w Hw. unfold s. rewrite (dot_vsum_l first rest w Hrest).
    apply orthonormal_row; assumption. }
  assert (Dss : dot s s = INR (length (first :: rest))).
  { unfold s at 1. rewrite (dot_vsum_l first rest s Hrest).
    apply fold_right_ones. intros w Hw. rewrite dot_comm. apply Ds. exact Hw. }
  assert (Hk : 1 <= INR (length (first :: rest))).
  { cbn [length]. rewrite S_INR. pose proof (pos_INR (length rest)). lra. }
  assert (Ns : vnorm s = sqrt (INR (length (first :: rest))))
    by (unfold vnorm; rewrite Dss; reflexivity).
  assert (N1 : 1 <= vnorm s).
  { rewrite Ns. rewrite <- sqrt_1 at 1. apply sqrt_le_1_alt. exact Hk. }
  assert (Hfl : sfloor < vnorm s) by (pose proof sfloor_lt_1; lra).
  exists (normalize s). split; [|split].
  - unfold superposition.
    assert (F : forallb (fun x => (length x =? length first)%nat) rest = true).
    { apply forallb_forall. intros x Hx. apply Nat.eqb_eq.
      rewrite Forall_forall in Hrest. apply Hrest. exact Hx. }
    rewrite F. reflexivity.
  - apply normalize_unit. exact Hfl.
  - rewrite (normalize_above s Hfl). unfold cosine_similarity.
    rewrite length_vdiv. unfold s at 1. rewrite (length_vsum first rest Hrest).
    rewrite (Hl first) by (left; reflexivity). rewrite (Hl v Hin), Nat.eqb_refl.
    rewrite dot_vdiv_l, (Ds v Hin), Ns. reflexivity.
Qed.

Lemma superposition_orthonormal_witness :
  exists s, superposition [[1; 0]; [0; 1]] = Ok s /\ vnorm s = 1
    /\ cosine_similarity s [1; 0] = Ok (1 / sqrt (INR (length [[1; 0]; [0; 1]]))).
Proof.
  apply (superposition_orthonormal [[1; 0]; [0; 1]] [1; 0] 2).
  - constructor; [split; [reflexivity | exact vnorm_1_0]|].
    constructor; [split; [reflexivity | exact vnorm_0_1] | constructor].
  - constructor; [constructor; [cbn; ring | constructor]|].
    constructor; [constructor | constructor].
  - left. reflexivity.
Defined.

(** ** NaN in IEEE arithmetic: the nearest match and the settling loop *)

Module IEEENaN.
Import Floats IEEE.

Section Libm.
Variable libm_tanh : float -> float.
Hypothesis tanh_zero_or_nan : forall x, zero_or_nan x -> zero_or_nan (libm_tanh x).

Local Instance ieee_scalar : Scalar float := IEEEFacts.libm_scalar libm_tanh.

Lemma nan_mul_r x y : is_nan_value y -> is_nan_value (x * y)%float.
Proof.
  unfold is_nan_value. intros Hy. rewrite mul_spec, Hy.
  destruct (Prim2SF x) as [s | s | | s m e]; reflexivity.
Qed.

Lemma nan_add_r x y : is_nan_value y -> is_nan_value (x + y)%float.
Proof.
  unfold is_nan_value. intros Hy. rewrite add_spec, Hy.
  destruct (Prim2SF x) as [s | s | | s m e]; reflexivity.
Qed.

(** One NaN among the entries makes the dot product NaN. *)
Lemma nan_dot (a b : vec float) :
  length a = length b -> Exists is_nan_value a -> is_nan_value (dot a b).
Proof.
  intros HL Ha. revert b HL.
  induction Ha as [x a Hx | x a Ha IH]; intros [|y b] HL; try discriminate;
    cbn [dot sadd smul ieee_scalar IEEEFacts.libm_scalar float_scalar].
  - apply IEEEFacts.nan_add_l, IEEEFacts.nan_mul_l, Hx.
  - apply nan_add_r, IH. injection HL; auto.
Qed.

Lemma nan_not_above x y : is_nan_value x -> sgtb x y = false.
Proof.
  unfold is_nan_value. intros Hx. cbn. rewrite ltb_spec, Hx.
  destruct (Prim2SF y) as [s | s | | s m e]; reflexivity.
Qed.

Lemma nearest_scan_nan (vector : vec float) (entries : dict (vec float))
    (best_name : option string) (best_similarity : float) :
  Exists is_nan_value vector ->
  Forall (fun entry => length (snd entry) = length vector) entries ->
  nearest_scan vector entries best_name best_similarity = Ok (best_name, best_similarity).
Proof.
  intros Hn F. induction F as [|[name v] entries HL F IH]; [reflexivity|].
  cbn [snd] in HL. cbn [nearest_scan]. unfold cosine_similarity.
  rewrite HL, Nat.eqb_refl. cbn [bind_result].
  rewrite (nan_not_above _ best_similarity (nan_dot vector v (eq_sym HL) Hn)).
  exact IH.
Qed.

Lemma find_nearest_match_nan_aux (self : CleanupMemory float) (vector : vec float) :
  cm_wf self -> length vector = cm_dim self -> Exists is_nan_value vector ->
  find_nearest_match self vector = Ok (None, (-1)%float).
Proof.
  intros [Hd [_ Hwf]] HL Hn. unfold find_nearest_match.
  rewrite HL, Nat.eqb_refl. cbn [negb].
  apply nearest_scan_nan; [exact Hn|].
  apply Forall_impl with (2 := Hwf). intros entry E. rewrite E, HL, Hd. reflexivity.
Qed.

(** X26: [find_nearest_match] of a vector with a NaN among its entries: every
    similarity is NaN, no comparison [similarity > best_similarity] holds,
    and the result is [(None, -1.0)] whatever the vocabulary; no error is
    raised either. *)
Theorem find_nearest_match_nan (self : CleanupMemory float) (vector : vec float) :
  cm_wf self -> length vector = cm_dim self -> Exists is_nan_value vector ->
  find_nearest_match self vector = Ok (None, (-1)%float)
  /\ forall entry, In entry (vectors (vocab self)) ->
       exists similarity, cosine_similarity vector (snd entry) = Ok similarity
                          /\ is_nan_value similarity.
Proof.
  intros Hwf HL Hn. split; [exact (find_nearest_match_nan_aux self vector Hwf HL Hn)|].
  destruct Hwf as [Hd [_ Hwf]]. rewrite Forall_forall in Hwf.
  intros entry Hin. exists (dot vector (snd entry)).
  assert (E : length vector = length (snd entry)) by (rewrite HL, Hd; symmetry; exact (Hwf _ Hin)).
  split; [unfold cosine_similarity; rewrite E, Nat.eqb_refl; reflexivity|].
  apply nan_dot; assumption.
Qed.

(** X27: Cleaning the zero vector and looking the result up: [cleanup] returns
    the all-NaN vector, and [find_nearest_match] of it names no entry of
    the vocabulary. *)
Theorem cleanup_zeros_no_match (self : CleanupMemory float) (max_iterations : Z) :
  cm_wf self -> (1 <= max_iterations)%Z ->
  exists cleaned_vec,
    cleanup self (zeros (cm_dim self)) false max_iterations = Ok (Vector cleaned_vec)
    /\ length cleaned_vec = cm_dim self
    /\ Forall is_nan_value cleaned_vec
    /\ find_nearest_match self cleaned_vec = Ok (None, (-1)%float).
Proof.
  intros Hwf HK. pose proof Hwf as [Hd [H2 Hv]].
  assert (H1 : (1 <= cm_dim self)%nat) by lia.
  exists (repeat nan (cm_dim self)).
  assert (L : length (zeros (cm_dim self) : vec float) = cm_dim self) by apply repeat_length.
  split.
  { unfold cleanup. rewrite L, Nat.eqb_refl. cbn [negb].
    destruct (Z.to_nat max_iterations) as [|todo] eqn:E; [lia|]. unfold ieee_scalar in *.
    rewrite (IEEEFacts.settle_zeros libm_tanh tanh_zero_or_nan self (cm_dim self) todo 0%Z
               _ [] H1 L (IEEEFacts.Forall_zn_zeros libm_tanh _)).
    reflexivity. }
  split; [apply repeat_length|]. split.
  { apply Forall_forall. intros y Hy. apply repeat_spec in Hy. subst y. reflexivity. }
  apply find_nearest_match_nan_aux; [exact Hwf | apply repeat_length|].
  destruct (cm_dim self) as [|n]; [lia|]. left. reflexivity.
Qed.

End Libm.

Section Settling.
Variable libm_tanh : float -> float.
Hypothesis tanh_nan : forall x, is_nan_value x -> is_nan_value (libm_tanh x).

Local Instance nan_scalar : Scalar float := IEEEFacts.libm_scalar libm_tanh.

Variable self : CleanupMemory float.
Variable noisy_vector : vec float.
Hypothesis noisy_length : length noisy_vector = cm_dim self.
Hypothesis dim_positive : (1 <= cm_dim self)%nat.
Hypothesis weights_shape : shape (weights self) (cm_dim self) (cm_dim self).
Hypothesis noisy_nan : Exists is_nan_value noisy_vector.

Lemma nan_div_r x y : is_nan_value y -> is_nan_value (x / y)%float.
Proof.
  unfold is_nan_value. intros Hy. rewrite div_spec, Hy.
  destruct (Prim2SF x) as [s | s | | s m e]; reflexivity.
Qed.

Lemma nan_dot_r (a b : vec float) :
  length a = length b -> Exists is_nan_value b -> is_nan_value (dot a b).
Proof.
  intros HL Hb. revert a HL.
  induction Hb as [y b Hy | y b Hb IH]; intros [|x a] HL; try discriminate;
    cbn [dot sadd smul nan_scalar IEEEFacts.libm_scalar float_scalar].
  - apply IEEEFacts.nan_add_l, nan_mul_r, Hy.
  - apply nan_add_r, IH. injection HL; auto.
Qed.

Lemma nan_dot_self (a : vec float) : Exists is_nan_value a -> is_nan_value (dot a a).
Proof. intros Ha. apply nan_dot_r; [reflexivity | exact Ha]. Qed.

Lemma Forall_nan_Exists (a : vec float) :
  (1 <= length a)%nat -> Forall is_nan_value a -> Exists is_nan_value a.
Proof.
  intros HL F. destruct F as [|x a Hx F]; [cbn in HL; lia|]. left. exact Hx.
Qed.

(** The fallback state [noisy_vector / norm] is all NaN. *)
Lemma fallback_nan :
  Forall is_nan_value (vdiv noisy_vector (vnorm noisy_vector))
  /\ length (vdiv noisy_vector (vnorm noisy_vector)) = cm_dim self.
Proof.
  split.
  - unfold vdiv. apply Forall_forall. intros y Hy. apply in_map_iff in Hy.
    destruct Hy as [x [<- _]]. apply nan_div_r. unfold vnorm.
    apply IEEEFacts.nan_sqrt, nan_dot_self, noisy_nan.
  - unfold vdiv. rewrite length_map. exact noisy_length.
Qed.

(** From a state that holds a NaN, a pass of the loop takes the fallback. *)
Lemma settle_step_nan (x : vec float) :
  length x = cm_dim self -> Exists is_nan_value x ->
  settle_step self noisy_vector x = vdiv noisy_vector (vnorm noisy_vector).
Proof.
  intros HL Hx. unfold settle_step. cbv zeta.
  assert (F : Forall is_nan_value (vtanh (matvec (weights self) x))).
  { unfold vtanh, matvec. rewrite map_map. apply Forall_forall. intros y Hy.
    apply in_map_iff in Hy. destruct Hy as [row [<- Hrow]]. apply tanh_nan.
    apply nan_dot_r; [|exact Hx].
    destruct weights_shape as [_ Hr]. rewrite Forall_forall in Hr.
    rewrite (Hr _ Hrow), HL. reflexivity. }
  assert (L : (1 <= length (vtanh (matvec (weights self) x)))%nat).
  { unfold vtanh, matvec. rewrite !length_map.
    apply (Nat.le_trans _ _ _ dim_positive), Nat.eq_le_incl. symmetry.
    exact (proj1 weights_shape). }
  rewrite (nan_not_above libm_tanh).
  - reflexivity.
  - unfold vnorm. apply IEEEFacts.nan_sqrt, nan_dot_self, Forall_nan_Exists; assumption.
Qed.

Lemma settle_iter_nan (k : nat) :
  settle_iter self noisy_vector (S k) noisy_vector = vdiv noisy_vector (vnorm noisy_vector).
Proof.
  induction k as [|k IH].
  - cbn [settle_iter]. apply settle_step_nan; [exact noisy_length | exact noisy_nan].
  - rewrite settle_iter_snoc, IH. destruct fallback_nan as [F L].
    apply settle_step_nan; [exact L|].
    apply Forall_nan_Exists; [rewrite L; exact dim_positive | exact F].
Qed.

Lemma never_converged (k : nat) : converged_at self noisy_vector k noisy_vector = false.
Proof.
  unfold converged_at. rewrite settle_iter_nan. destruct fallback_nan as [F L].
  set (N := vdiv noisy_vector (vnorm noisy_vector)) in *.
  set (x := settle_iter self noisy_vector k noisy_vector).
  apply IEEEFacts.nan_not_below.
  change (is_nan_value (sqrt (dot (vsub N x) (vsub N x)))). apply IEEEFacts.nan_sqrt.
  assert (Lx : length x = cm_dim self).
  { unfold x. destruct k as [|k]; [exact noisy_length | rewrite settle_iter_nan; exact L]. }
  destruct N as [|y N']; [cbn in L; lia|]. destruct x as [|z x']; [cbn in Lx; lia|].
  inversion F as [|? ? Hy _]; subst.
  cbn [vsub dot sadd smul ssub nan_scalar IEEEFacts.libm_scalar float_scalar].
  apply IEEEFacts.nan_add_l, IEEEFacts.nan_mul_l, IEEEFacts.nan_sub_l, Hy.
Qed.

(** X28: A NaN among the entries of the input: every pass of the loop falls back
    to the input divided by its norm, which is all NaN; the convergence test
    never holds, so [cleanup] runs all its iterations, reports
    [max_iterations] as the count and returns an all-NaN vector, without an
    error. *)
Theorem cleanup_nan_never_converges (max_iterations : Z) :
  (1 <= max_iterations)%Z ->
  exists x trajectory,
    cleanup self noisy_vector true max_iterations
    = Ok (WithTrajectory x trajectory max_iterations)
    /\ cleanup self noisy_vector false max_iterations = Ok (Vector x)
    /\ length x = cm_dim self
    /\ Forall is_nan_value x.
Proof.
  intros HK.
  assert (C : forall rt,
            cleanup self noisy_vector rt max_iterations =
            Ok (if rt
                then WithTrajectory
                       (settle_iter self noisy_vector (Z.to_nat max_iterations) noisy_vector)
                       (noisy_vector ::
                        settle_states self noisy_vector (Z.to_nat max_iterations) noisy_vector)
                       max_iterations
                else Vector
                       (settle_iter self noisy_vector (Z.to_nat max_iterations) noisy_vector))).
  { intros rt.
    destruct (cleanup_cases self noisy_vector rt max_iterations noisy_length)
      as [[m [_ [Hc _]]] | [_ E]]; [|exact E].
    rewrite never_converged in Hc. discriminate. }
  destruct (Z.to_nat max_iterations) as [|k] eqn:T; [lia|].
  rewrite settle_iter_nan in C. destruct fallback_nan as [F L].
  eexists _, _. split; [exact (C true)|]. split; [exact (C false)|].
  split; [exact L | exact F].
Qed.

End Settling.

Lemma find_nearest_match_nan_witness :
  let ieee := float_scalar (fun x => x) in
  @find_nearest_match float ieee float_mem_A [nan; 0%float] = Ok (None, (-1)%float)
  /\ forall entry, In entry (vectors (vocab float_mem_A)) ->
       exists similarity,
         @cosine_similarity float ieee [nan; 0%float] (snd entry) = Ok similarity
         /\ is_nan_value similarity.
Proof.
  apply (find_nearest_match_nan (fun x => x) float_mem_A [nan; 0%float]).
  - split; [reflexivity|]. split; [cbn; lia | repeat constructor].
  - reflexivity.
  - left. reflexivity.
Defined.

Lemma cleanup_zeros_no_match_witness :
  let ieee := float_scalar (fun x => x) in
  exists cleaned_vec,
    @cleanup float ieee float_mem_A (zeros (cm_dim float_mem_A)) false 100
    = Ok (Vector cleaned_vec)
    /\ length cleaned_vec = cm_dim float_mem_A
    /\ Forall is_nan_value cleaned_vec
    /\ @find_nearest_match float ieee float_mem_A cleaned_vec = Ok (None, (-1)%float).
Proof.
  apply (cleanup_zeros_no_match (fun x => x) (fun x Hx => Hx) float_mem_A 100).
  - split; [reflexivity|]. split; [cbn; lia | repeat constructor].
  - lia.
Defined.

Lemma cleanup_nan_never_converges_witness :
  let ieee := float_scalar (fun x => x) in
  exists x trajectory,
    @cleanup float ieee float_mem_A [nan; 0%float] true 100
    = Ok (WithTrajectory x trajectory 100%Z)
    /\ @cleanup float ieee float_mem_A [nan; 0%float] false 100 = Ok (Vector x)
    /\ length x = cm_dim float_mem_A
    /\ Forall is_nan_value x.
Proof.
  apply (cleanup_nan_never_converges (fun x => x) (fun x Hx => Hx) float_mem_A [nan; 0%float]).
  - reflexivity.
  - cbn. lia.
  - split; [reflexivity | repeat constructor].
  - left. reflexivity.
  - lia.
Defined.

End IEEENaN.

